(** * pix2pix_model: graph construction, colour/dimension codec, summaries

    A shallow embedding of
    [sciencebeam_gym/trainer/models/pix2pix/pix2pix_model.py].

    Conventions.
    - Tensors are nested lists, innermost list = last axis.  An image of
      shape (H, W, C) is a list of H rows of W pixels of C channels; a batch
      of shape (B, H, W, C) is a list of B images.  (A nested list cannot
      tell shapes apart once one dimension is 0.)
    - [uint8] tensors hold [Z]; [float32] tensors hold [float32] values: a
      finite value is the rational it denotes, and every operation rounds
      its exact result to the nearest binary32 value, ties to even.
    - Python exceptions are values of [exn]; code that can raise returns a
      [pyresult].  TensorFlow graph-construction errors are [None].
    - [Model.build_graph] is embedded stage by stage, in the order of its
      statements: [build_graph_examples] (the example source),
      [feature_map] and [example_graph] (parsing and the per-example
      tensors), [batch_step] ([tf.train.batch]) and
      [add_model_summary_images].  The pix2pix network itself
      ([create_pix2pix_model]) is outside this file; its output is the
      [pred] field where the summaries read it. *)

From Stdlib Require Import ZArith QArith Qround Qabs Qpower Lqa.
From stdpp Require Import base option list gmap strings sorting pretty.

Local Open Scope string_scope.
Local Open Scope Z_scope.

(** ** Python values, exceptions *)

Inductive exn := TypeError | IndexError | OverflowError.

Inductive pyresult (A : Type) :=
  | Return (a : A)
  | Raise (e : exn).
Arguments Return {A} a.
Arguments Raise {A} e.

Definition pybind {A B} (m : pyresult A) (k : A → pyresult B) : pyresult B :=
  match m with
  | Return a => k a
  | Raise e => Raise e
  end.

Global Instance pyresult_ret : MRet pyresult := λ A, Return.
Global Instance pyresult_bind : MBind pyresult := λ A B k m, pybind m k.

(** A Python float: a finite double is the rational it denotes. *)
Inductive pyfloat :=
  | FFinite (q : Q)
  | FInf (negative : bool)
  | FNaN.

#[warnings="-register-all"]
Inductive PyVal :=
  | PNone
  | PBool (b : bool)
  | PInt (z : Z)
  | PFloat (f : pyfloat)
  | PStr (s : string)
  | PList (l : list PyVal)
  | PTuple (l : list PyVal).

(** [v[i]] for a literal index [i >= 0]. *)
Definition getitem (v : PyVal) (i : nat) : pyresult PyVal :=
  match v with
  | PList l | PTuple l =>
      match l !! i with
      | Some x => Return x
      | None => Raise IndexError
      end
  | PStr s =>
      match String.get i s with
      | Some c => Return (PStr (String c EmptyString))
      | None => Raise IndexError
      end
  | PNone | PBool _ | PInt _ | PFloat _ => Raise TypeError
  end.

(** *** ['%.3f' % x] *)

(** Round the non-negative rational [n / d] to the nearest integer, ties to
    even. *)
Definition round_half_even (n : Z) (d : positive) : Z :=
  let fl := n / Z.pos d in
  let r := n mod Z.pos d in
  match (2 * r ?= Z.pos d) with
  | Lt => fl
  | Gt => fl + 1
  | Eq => if Z.even fl then fl else fl + 1
  end.

Definition pad3 (s : string) : string :=
  match String.length s with
  | 0%nat => "000" ++ s
  | 1%nat => "00" ++ s
  | 2%nat => "0" ++ s
  | _ => s
  end.

(** Fixed-point rendering with three decimals of the exact value [q]; a
    negative value keeps its sign even when it rounds to zero. *)
Definition format_3f_finite (q : Q) : string :=
  let m := round_half_even (Z.abs (Qnum q) * 1000) (Qden q) in
  (if (Qnum q <? 0)%Z then "-" else "")
    ++ pretty (m / 1000) ++ "." ++ pad3 (pretty (m mod 1000)).

Definition format_3f (f : pyfloat) : string :=
  match f with
  | FFinite q => format_3f_finite q
  | FInf false => "inf"
  | FInf true => "-inf"
  | FNaN => "nan"
  end.

(** [float(z)] for a Python int: nearest double, ties to even;
    [OverflowError] when the rounded magnitude reaches [2^1024]. *)
Definition int_to_float (z : Z) : pyresult pyfloat :=
  let a := Z.abs z in
  if a <? 2 ^ 53 then Return (FFinite (inject_Z z))
  else
    let e := Z.log2 a - 52 in
    let m := Z.shiftr a e in
    let r := a mod 2 ^ e in
    let half := 2 ^ (e - 1) in
    let m' := if (half <? r) || ((r =? half) && Z.odd m) then m + 1 else m in
    let v := m' * 2 ^ e in
    if 2 ^ 1024 <=? v then Raise OverflowError
    else Return (FFinite (inject_Z (Z.sgn z * v))).

(** One argument of a [%f] conversion. *)
Definition format_3f_arg (x : PyVal) : pyresult string :=
  match x with
  | PFloat f => Return (format_3f f)
  | PInt z => f ← int_to_float z; Return (format_3f f)
  | PBool b => Return (format_3f (FFinite (if b then 1 else 0)%Q))
  | PNone | PStr _ | PList _ | PTuple _ => Raise TypeError
  end.

(** ['%.3f' % v]: a tuple on the right is the argument list. *)
Definition percent_3f (v : PyVal) : pyresult string :=
  match v with
  | PTuple [x] => format_3f_arg x
  | PTuple _ => Raise TypeError
  | _ => format_3f_arg v
  end.

(** *** Model.format_metric_values *)

(** ['%.3f' % metric_values[i]] *)
Definition format_item (metric_values : PyVal) (i : nat) : pyresult string :=
  v ← getitem metric_values i; percent_3f v.

(** The [try] body.  The two locals start as ['N/A'] and are assigned in
    turn; an exception leaves the assignments made so far in place. *)
Definition try_format (metric_values : PyVal) (loss_str accuracy_str : string)
  : (string * string) * option exn :=
  match format_item metric_values 0 with
  | Raise e => ((loss_str, accuracy_str), Some e)
  | Return s0 =>
      match format_item metric_values 1 with
      | Raise e => ((s0, accuracy_str), Some e)
      | Return s1 => ((s0, s1), None)
      end
  end.

(** [except (TypeError, IndexError): pass] *)
Definition caught (e : exn) : bool :=
  match e with
  | TypeError | IndexError => true
  | OverflowError => false
  end.

Definition format_metric_values (metric_values : PyVal) : pyresult string :=
  let loss_str := "N/A" in
  let accuracy_str := "N/A" in
  let '((loss_str, accuracy_str), raised) :=
    try_format metric_values loss_str accuracy_str in
  match raised with
  | Some e => if caught e then Return (loss_str ++ ", " ++ accuracy_str)
              else Raise e
  | None => Return (loss_str ++ ", " ++ accuracy_str)
  end.

(** ** GraphMode and the example source of build_graph *)

Module GraphMode.
Definition TRAIN : Z := 1.
Definition EVALUATE : Z := 2.
Definition PREDICT : Z := 3.
End GraphMode.

(** The keyword arguments [build_graph] passes to [read_examples];
    [num_epochs = None] is Python's [None]. *)
Record reader_args := ReaderArgs {
  data_paths : list string;
  shuffle : bool;
  num_epochs : option nat
}.

Inductive examples_source :=
  | read_examples (args : reader_args)
  | placeholder (name : string).

(** The first statements of [Model.build_graph]: [graph_mode] is whatever
    integer the caller passes, a non-empty list is truthy. *)
Definition build_graph_examples (data_paths : list string) (graph_mode : Z)
  : examples_source :=
  let is_training :=
    (graph_mode =? GraphMode.TRAIN) || (graph_mode =? GraphMode.EVALUATE) in
  match data_paths with
  | _ :: _ =>
      read_examples {|
        data_paths := data_paths;
        shuffle := (graph_mode =? GraphMode.TRAIN);
        num_epochs := if is_training then None else Some 2%nat
      |}
  | [] => placeholder "input"
  end.

Definition build_train_graph_examples (data_paths : list string) :=
  build_graph_examples data_paths GraphMode.TRAIN.

Definition build_eval_graph_examples (data_paths : list string) :=
  build_graph_examples data_paths GraphMode.EVALUATE.

(** Modelled from the spec: the reader collaborator
    [sciencebeam_gym.trainer.util.read_examples] is not part of this file.
    Per the spec it yields a lazy, infinite-or-bounded sequence of records:
    with [num_epochs = Some n] it stops after [n] full passes over the data,
    with [num_epochs = None] it cycles without an end-of-data signal.
    [records_yielded] is the total number of records it hands out over a
    source of [n_records] records; [None] stands for no bound. *)
Definition records_yielded (args : reader_args) (n_records : nat) : option nat :=
  (λ passes, passes * n_records)%nat <$> num_epochs args.

(** ** float32 and float64 arithmetic *)

(** [⌊log2 q⌋] for [q > 0]. *)
Definition floor_log2 (q : Q) : Z :=
  let e := Z.log2 (Qnum q) - Z.log2 (Z.pos (Qden q)) in
  if Qle_bool (2 ^ e) q then e else e - 1.

(** The integer nearest to [x], ties to the even one. *)
Definition round_half_even_Q (x : Q) : Z :=
  let f := Qfloor x in
  match (x - inject_Z f ?= 1 # 2)%Q with
  | Lt => f
  | Gt => f + 1
  | Eq => if Z.even f then f else f + 1
  end.

(** The exponent of the unit in the last place of [a > 0] in a binary
    format with [prec] bits of precision whose least exponent is [emin]
    (below [2 ^ (emin + prec - 1)] the values are subnormal). *)
Definition ulp_exponent (prec emin : Z) (a : Q) : Z :=
  Z.max (floor_log2 a - (prec - 1)) emin.

Definition round_positive (prec emin : Z) (a : Q) : Q :=
  let e := ulp_exponent prec emin a in
  (inject_Z (round_half_even_Q (a / 2 ^ e)) * 2 ^ e)%Q.

(** IEEE 754 round-to-nearest, ties-to-even, with the exponent unbounded
    above. *)
Definition round_nearest_even (prec emin : Z) (q : Q) : Q :=
  match (q ?= 0)%Q with
  | Eq => 0%Q
  | Gt => round_positive prec emin q
  | Lt => (- round_positive prec emin (- q))%Q
  end.

(** A binary32 value.  The sign of zero is not kept: nothing below
    observes it. *)
Inductive float32 :=
  | Finite (q : Q)
  | Infinity (negative : bool)
  | NaN.

Global Instance Q_eq_dec : EqDecision Q.
Proof. solve_decision. Defined.

Global Instance float32_eq_dec : EqDecision float32.
Proof. solve_decision. Defined.

Definition is_negative (q : Q) : bool := negb (Qle_bool 0 q).

(** The binary32 value of the exact result [q]: 24 bits of precision,
    subnormals down to [2 ^ -149], overflow to an infinity from [2 ^ 128]. *)
Definition round_float32 (q : Q) : float32 :=
  let r := Qred (round_nearest_even 24 (-149) q) in
  if Qle_bool (2 ^ 128) (Qabs r) then Infinity (is_negative r)
  else Finite r.

(** The same for a Python float (binary64). *)
Definition round_float64 (q : Q) : pyfloat :=
  let r := Qred (round_nearest_even 53 (-1074) q) in
  if Qle_bool (2 ^ 1024) (Qabs r) then FInf (is_negative r)
  else FFinite r.

(** A Python float stored in a [float32] tensor. *)
Definition float32_of_pyfloat (f : pyfloat) : float32 :=
  match f with
  | FFinite d => round_float32 d
  | FInf negative => Infinity negative
  | FNaN => NaN
  end.

Definition f32_add (a b : float32) : float32 :=
  match a, b with
  | NaN, _ | _, NaN => NaN
  | Finite x, Finite y => round_float32 (x + y)
  | Infinity s, Infinity t => if Bool.eqb s t then Infinity s else NaN
  | Infinity s, Finite _ | Finite _, Infinity s => Infinity s
  end.

Definition f32_mul (a b : float32) : float32 :=
  match a, b with
  | NaN, _ | _, NaN => NaN
  | Finite x, Finite y => round_float32 (x * y)
  | Infinity s, Infinity t => Infinity (xorb s t)
  | Infinity s, Finite y | Finite y, Infinity s =>
      if Qeq_bool y 0 then NaN else Infinity (xorb s (is_negative y))
  end.

(** ** Tensors *)

Abbreviation image T := (list (list (list T))) (only parsing).
Abbreviation batch T := (list (list (list (list T)))) (only parsing).

Definition map2 {A B} (f : A → B) : list (list A) → list (list B) :=
  fmap (M:=list) (fmap (M:=list) f).
Definition map3 {A B} (f : A → B) : image A → image B :=
  fmap (M:=list) (map2 f).
Definition map4 {A B} (f : A → B) : batch A → batch B :=
  fmap (M:=list) (map3 f).

Definition has_shape3 {T} (H W C : nat) (t : image T) : Prop :=
  length t = H ∧
  Forall (λ row, length row = W ∧ Forall (λ px : list T, length px = C) row) t.

Definition has_shape4 {T} (B H W C : nat) (t : batch T) : Prop :=
  length t = B ∧ Forall (has_shape3 H W C) t.

Definition at3 {T} (t : image T) (h w : nat) : option (list T) :=
  row ← t !! h; row !! w.

Definition at4 {T} (t : batch T) (b h w : nat) : option (list T) :=
  img ← t !! b; at3 img h w.

(** Binary element-wise operation between a tensor's last axis and a rank-1
    constant, with NumPy broadcasting of a dimension of size 1. *)
Definition broadcast_last {A B C} (f : A → B → C) (xs : list A) (ys : list B)
  : option (list C) :=
  if (length xs =? length ys)%nat then Some (zip_with f xs ys)
  else match xs, ys with
       | [x], _ => Some (f x <$> ys)
       | _, [y] => Some ((λ x, f x y) <$> xs)
       | _, _ => None
       end.

(** The same along any axis, for an operation on the sub-tensors that can
    itself fail. *)
Definition broadcast {A B C} (f : A → B → option C)
    (xs : list A) (ys : list B) : option (list C) :=
  if (length xs =? length ys)%nat then mapM (λ '(x, y), f x y) (zip xs ys)
  else match xs, ys with
       | [x], _ => mapM (f x) ys
       | _, [y] => mapM (λ x, f x y) xs
       | _, _ => None
       end.

(** A Python tuple of ints as a [uint8] constant: NumPy's conversion wraps
    modulo 256. *)
Definition uint8_constant (c : list Z) : list Z := (λ x, x mod 256) <$> c.

Fixpoint zip_with3 {A B C D} (f : A → B → C → D)
    (l1 : list A) (l2 : list B) (l3 : list C) : list D :=
  match l1, l2, l3 with
  | a :: l1, b :: l2, c :: l3 => f a b c :: zip_with3 f l1 l2 l3
  | _, _, _ => []
  end.

(** *** Rank 3: one image (H, W, C) *)

Definition tf_equal3 (t : image Z) (c : list Z) : option (image bool) :=
  mapM (mapM (λ px, broadcast_last Z.eqb px (uint8_constant c))) t.

(** [tf.reduce_all(_, axis=-1)] *)
Definition reduce_all3 (t : image bool) : list (list bool) :=
  map2 (forallb id) t.

(** The static shape of a rank-2 tensor. *)
Definition shape2 {T} (t : list (list T)) : nat * nat :=
  (length t, from_option length 0%nat (head t)).

Definition tf_fill2 {T} (shape : nat * nat) (v : T) : list (list T) :=
  replicate shape.1 (replicate shape.2 v).

(** [tf.where(c, x, y)], all three of one shape. *)
Definition tf_where2 {T} (c : list (list bool)) (x y : list (list T))
  : list (list T) :=
  zip_with3 (zip_with3 (λ (c : bool) x y, if c then x else y)) c x y.

(** [tf.stack(ts, axis=-1)] of rank-2 tensors of one shape.  TensorFlow
    reads [ts[0]] for the shape, so an empty list is an [IndexError]. *)
Fixpoint tf_stack_last2 {T} (ts : list (list (list T))) : option (image T) :=
  match ts with
  | [] => None
  | t :: ts' =>
      match ts' with
      | [] => Some (map2 (λ x, [x]) t)
      | _ :: _ => zip_with (zip_with cons) t <$> tf_stack_last2 ts'
      end
  end.

(** *** colors_to_dimensions *)

Definition colors_to_dimensions (image_tensor : image Z) (colors : list (list Z))
  : option (image float32) :=
  single_label_tensors ←
    mapM (λ single_label_color,
      is_color ← reduce_all3 <$> tf_equal3 image_tensor single_label_color;
      Some (tf_where2 is_color
              (tf_fill2 (shape2 is_color) (Finite 1))
              (tf_fill2 (shape2 is_color) (Finite 0))))
    colors;
  tf_stack_last2 single_label_tensors.

(** *** Rank 4: a batch (B, H, W, C) *)

Definition shape4 {T} (t : batch T) : list nat :=
  let img := default [] (head t) in
  let row := default [] (head img) in
  let px := default [] (head row) in
  [length t; length img; length row; length px].

Definition tf_equal4 (t : batch Z) (c : list Z) : option (batch bool) :=
  mapM (mapM (mapM (λ px, broadcast_last Z.eqb px (uint8_constant c)))) t.

Definition reduce_all4 (t : batch bool) : image bool :=
  map3 (forallb id) t.

(** [tf.stack(ts, axis=-1)] of rank-3 tensors of one shape. *)
Fixpoint tf_stack_last3 {T} (ts : list (image T)) : option (batch T) :=
  match ts with
  | [] => None
  | t :: ts' =>
      match ts' with
      | [] => Some (map3 (λ x, [x]) t)
      | _ :: _ => zip_with (zip_with (zip_with cons)) t <$> tf_stack_last3 ts'
      end
  end.

Definition ones_like4 (t : batch Z) : batch Z := map4 (λ _, 1) t.

(** [k * t] for a Python scalar [k] and a [uint8] tensor: the product wraps
    modulo 256. *)
Definition scale4 (k : Z) (t : batch Z) : batch Z :=
  map4 (λ x, (k mod 256 * x) mod 256) t.

(** [tf.where(c, x, y)]: the three shapes must agree. *)
Definition tf_where4 {T} (c : batch bool) (x y : batch T) : option (batch T) :=
  if decide (shape4 c = shape4 x ∧ shape4 x = shape4 y)
  then Some (zip_with3 (zip_with3 (zip_with3 (zip_with3
               (λ (c : bool) x y, if c then x else y)))) c x y)
  else None.

(** [a + b] on [float32] tensors of rank 4: along every axis the extents
    are equal or one of them is 1. *)
Definition add4 (a b : batch float32) : option (batch float32) :=
  broadcast (broadcast (broadcast (broadcast
    (λ x y, Some (f32_add x y))))) a b.

(** *** convert_image *)

Definition Qmaximum (a b : Q) : Q := if Qle_bool a b then b else a.
Definition Qminimum (a b : Q) : Q := if Qle_bool a b then a else b.

(** [tf.saturate_cast(v, uint8)]: clamp into the range, then truncate.
    TensorFlow leaves the cast of a NaN to the platform; 0 is what the x86
    kernel gives. *)
Definition saturate_cast_uint8 (v : float32) : Z :=
  match v with
  | Finite q => Qfloor (Qminimum (Qmaximum q 0) 255)
  | Infinity negative => if negative then 0 else 255
  | NaN => 0
  end.

(** [tf.image.convert_image_dtype(_, tf.uint8, saturate=True)] on one
    [float32]: multiply by [uint8.max + 0.5 = 511/2], then saturate. *)
Definition float32_to_uint8 (v : float32) : Z :=
  saturate_cast_uint8 (f32_mul v (Finite (511 # 2))).

(** The same on a finite value. *)
Definition float_to_uint8 (v : Q) : Z := float32_to_uint8 (Finite v).

(** A tensor with its dtype: [uint8] data or [float32] data. *)
Inductive tensor (DZ DQ : Type) :=
  | Uint8 (d : DZ)
  | Float32 (d : DQ).
Arguments Uint8 {DZ DQ} d.
Arguments Float32 {DZ DQ} d.

Abbreviation tensor3 := (tensor (image Z) (image float32)) (only parsing).
Abbreviation tensor4 := (tensor (batch Z) (batch float32)) (only parsing).

(** Converting a [uint8] image to [uint8] is the identity. *)
Definition convert_image (image_tensor : tensor4) : batch Z :=
  match image_tensor with
  | Uint8 d => d
  | Float32 d => map4 float32_to_uint8 d
  end.

(** *** replace_black_with_white_color *)

Definition replace_black_with_white_color (image_tensor : batch Z)
  : option (batch Z) :=
  is_black ← reduce_all4 <$> tf_equal4 image_tensor [0; 0; 0];
  is_black ← tf_stack_last3 (replicate 3 is_black);
  tf_where4 is_black (scale4 255 (ones_like4 image_tensor)) image_tensor.

(** *** combine_image

    [six.moves.reduce] without initial value: a [TypeError] on an empty
    list, a left fold from the first element otherwise; an exception of
    [f] ends it. *)
Definition reduce {A} (f : A → A → option A) (l : list A) : option A :=
  match l with
  | [] => None
  | x :: l' => foldl (λ acc b, a ← acc; f a b) (Some x) l'
  end.

Definition combine_image (batch_images : list (batch float32))
    (replace_black_with_white : bool) : option (batch Z) :=
  summed ← reduce (λ a b, add4 a b) batch_images;
  let combined_image := convert_image (Float32 summed) in
  if replace_black_with_white
  then replace_black_with_white_color combined_image
  else Some combined_image.

(** *** batch_dimensions_to_colors_list *)

(** [t[:, :, :, i]]: an index outside the channel axis is an error. *)
Definition slice_channel (t : batch float32) (i : nat)
  : option (image float32) :=
  mapM (mapM (mapM (λ px : list float32, px !! i))) t.

(** [tf.expand_dims(_, axis=-1)] *)
Definition expand_dims_last (t : image float32) : batch float32 :=
  map3 (λ x, [x]) t.

(** [x / 255.0] for a Python int [x]: the int becomes a float
    ([OverflowError] when it is too large), the quotient is rounded. *)
Definition div_255 (x : Z) : pyresult pyfloat :=
  f ← int_to_float x;
  Return (match f with
          | FFinite d => round_float64 (d / 255)
          | FInf _ | FNaN => f
          end).

(** [[x / 255.0 for x in color]] as the [float32] constant TensorFlow
    makes of it. *)
Definition color_weights (single_label_color : list Z)
  : option (list float32) :=
  mapM (λ x, match div_255 x with
             | Return f => Some (float32_of_pyfloat f)
             | Raise _ => None
             end) single_label_color.

(** [t * c] for a rank-1 constant [c], broadcast along the last axis. *)
Definition mul_last (t : batch float32) (c : list float32)
  : option (batch float32) :=
  mapM (mapM (mapM (λ px, broadcast_last f32_mul px c))) t.

Definition enumerate {A} (l : list A) : list (nat * A) := imap pair l.

Definition batch_dimensions_to_colors_list (image_tensor : batch float32)
    (colors : list (list Z)) : option (list (batch float32)) :=
  mapM (λ '(i, single_label_color),
      channel ← slice_channel image_tensor i;
      weights ← color_weights single_label_color;
      mul_last (expand_dims_last channel) weights)
    (enumerate colors).

(** ** Summary images *)

(** The fields of [GraphReferences] the summary code reads and writes,
    together with the graph's collection of [tf.summary.image] records. *)
Record GraphReferences := {
  image_tensor : tensor4;
  annotation_tensor : tensor4;
  separate_channel_annotation_tensor : batch float32;
  pred : batch float32;
  image_tensors : gmap string (batch Z);
  summaries : gmap string (batch Z);
  summary_images : list (string * batch Z)
}.

(** [tf.name_scope(name)] at the root of the graph's name stack accepts
    the names that match [^[A-Za-z0-9.][A-Za-z0-9_.\-/]*$] and raises
    [ValueError] for any other non-empty name; Python's [$] also matches
    before a final newline.  (Inside an enclosing scope the first character
    may also be one of [_-/]; every name built below starts with a
    letter.) *)
Definition scope_name_char (first : bool) (c : Ascii.ascii) : bool :=
  let n := Ascii.nat_of_ascii c in
  ((48 <=? n) && (n <=? 57) || (65 <=? n) && (n <=? 90)
   || (97 <=? n) && (n <=? 122) || (n =? 46)
   || negb first && ((n =? 95) || (n =? 45) || (n =? 47)))%nat.

Fixpoint scope_name_rest (s : string) : bool :=
  match s with
  | EmptyString => true
  | String c EmptyString =>
      scope_name_char false c || (Ascii.nat_of_ascii c =? 10)%nat
  | String c s' => scope_name_char false c && scope_name_rest s'
  end.

Definition valid_scope_name (name : string) : bool :=
  match name with
  | EmptyString => true
  | String c s => scope_name_char true c && scope_name_rest s
  end.

(** [with tf.name_scope(name):] entered; [None] is the [ValueError]. *)
Definition name_scope (name : string) : option unit :=
  if valid_scope_name name then Some () else None.

(** The dict entry and the [tf.summary.image(name, image)] call. *)
Definition add_summary_image (tensors : GraphReferences) (name : string)
    (image : batch Z) : GraphReferences :=
  {| image_tensor := image_tensor tensors;
     annotation_tensor := annotation_tensor tensors;
     separate_channel_annotation_tensor :=
       separate_channel_annotation_tensor tensors;
     pred := pred tensors;
     image_tensors := <[name := image]> (image_tensors tensors);
     summaries := summaries tensors;
     summary_images := summary_images tensors ++ [(name, image)] |}.

Definition add_simple_summary_image (tensors : GraphReferences) (name : string)
    (image_tensor : tensor4) : option GraphReferences :=
  _ ← name_scope name;
  Some (add_summary_image tensors name (convert_image image_tensor)).

Definition set_summaries (tensors : GraphReferences)
    (s : gmap string (batch Z)) : GraphReferences :=
  {| image_tensor := image_tensor tensors;
     annotation_tensor := annotation_tensor tensors;
     separate_channel_annotation_tensor :=
       separate_channel_annotation_tensor tensors;
     pred := pred tensors;
     image_tensors := image_tensors tensors;
     summaries := s;
     summary_images := summary_images tensors |}.

(** ["_{}_{}".format(i, label if label else 'unknown_label')]: a missing
    and an empty label are both falsy. *)
Definition label_suffix (i : nat) (dimension_label : option string) : string :=
  "_" ++ pretty i ++ "_" ++
  match dimension_label with
  | Some (String _ _ as l) => l
  | Some EmptyString | None => "unknown_label"
  end.

(** The loop over [enumerate(zip(batch_images, dimension_labels))]. *)
Definition add_dimension_images (prefix : string) (tensors : GraphReferences)
    (batch_images : list (batch float32))
    (dimension_labels : list (option string))
  : option GraphReferences :=
  foldl (λ acc '(i, (batch_image, dimension_label)),
           tensors ← acc;
           add_simple_summary_image tensors
             (prefix ++ label_suffix i dimension_label) (Float32 batch_image))
        (Some tensors)
        (enumerate (zip batch_images dimension_labels)).

(** [dimension_colors] and [dimension_labels] are [None] when the model has
    no colour map.  [None] as a result is an exception. *)
Definition add_model_summary_images (tensors : GraphReferences)
    (dimension_colors : option (list (list Z)))
    (dimension_labels : option (list (option string)))
  : option GraphReferences :=
  let tensors := set_summaries tensors ∅ in
  tensors ← add_simple_summary_image tensors "input" (image_tensor tensors);
  tensors ←
    add_simple_summary_image tensors "target" (annotation_tensor tensors);
  match dimension_colors with
  | Some ((_ :: _) as dimension_colors) =>
      batch_images ← batch_dimensions_to_colors_list
                       (separate_channel_annotation_tensor tensors)
                       dimension_colors;
      dimension_labels ← dimension_labels;
      tensors ←
        add_dimension_images "targets" tensors batch_images dimension_labels;
      _ ← name_scope "targets_combined";
      combined_image ← combine_image batch_images false;
      let tensors := add_summary_image tensors "targets_combined" combined_image in
      batch_images ← batch_dimensions_to_colors_list (pred tensors)
                       dimension_colors;
      tensors ←
        add_dimension_images "outputs" tensors batch_images dimension_labels;
      _ ← name_scope "outputs_combined";
      combined_image ← combine_image batch_images false;
      let tensors :=
        set_summaries tensors
          (<["output_image" := combined_image]> (summaries tensors)) in
      Some (add_summary_image tensors "outputs_combined" combined_image)
  | Some [] | None =>
      tensors ←
        add_simple_summary_image tensors "output" (Float32 (pred tensors));
      output ← image_tensors tensors !! "output";
      Some (set_summaries tensors
              (<["output_image" := output]> (summaries tensors)))
  end.

(** ** Model.__init__: dimension colours and labels *)

(** Python's [<=] on tuples of ints (lexicographic). *)
Fixpoint tuple_leb (a b : list Z) : bool :=
  match a, b with
  | [], _ => true
  | _ :: _, [] => false
  | x :: a', y :: b' =>
      if x <? y then true else if y <? x then false else tuple_leb a' b'
  end.

Definition tuple_le (a b : list Z) : Prop := tuple_leb a b = true.

Global Instance tuple_le_dec : RelDecision tuple_le.
Proof. intros a b. unfold tuple_le. apply _. Defined.

(** [sorted(keys)] *)
Definition sorted (keys : list (list Z)) : list (list Z) :=
  merge_sort tuple_le keys.

(** A dict as the list of its items in iteration order; keys are unique. *)
Fixpoint dict_get {V} (d : list (list Z * V)) (k : list Z) : option V :=
  match d with
  | [] => None
  | (k', v) :: d' => if decide (k' = k) then Some v else dict_get d' k
  end.

(** What [ConfigParser] holds once the file is read: the dict that
    [parse_color_map_from_configparser] returns for it (a collaborator
    outside this file, keys and values are RGB tuples; [None] when it
    raises) and the items of the [color_labels] section in file order
    ([None] when the file has no such section: [NoSectionError]). *)
Record color_map_config := {
  parsed_color_map : option (list (list Z * list Z));
  color_labels : option (list (string * string))
}.

(** What [Model.__init__] finds at [args.color_map]. *)
Inductive color_map_arg :=
  | color_map_unset
  | color_map_unreadable
  | color_map_read (cfg : color_map_config).

Record Model := {
  image_width : nat;
  image_height : nat;
  color_map : option (list (list Z * list Z));
  dimension_colors : option (list (list Z));
  dimension_labels : option (list (option string))
}.

Section ModelInit.
(** Python's [int(k)] on a string; [None] is a [ValueError]. *)
Variable int : string → option Z.

(** [{(int(k), int(k), int(k)): v for k, v in items}]: a later item
    overrides an earlier one with the same key. *)
Fixpoint color_label_map_of (items : list (string * string))
    (acc : gmap (list Z) string) : option (gmap (list Z) string) :=
  match items with
  | [] => Some acc
  | (k, v) :: items' =>
      n ← int k;
      color_label_map_of items' (<[ [n; n; n] := v ]> acc)
  end.

(** [color_map_unset] stands for a falsy [args.color_map],
    [color_map_unreadable] for a file that [FileIO] cannot open or
    [readfp] cannot parse.  [None] as a result is an exception. *)
Definition Model_init (config : color_map_arg) : option Model :=
  match config with
  | color_map_unset =>
      Some {| image_width := 256; image_height := 256; color_map := None;
              dimension_colors := None; dimension_labels := None |}
  | color_map_unreadable => None
  | color_map_read cfg =>
      color_map ← parsed_color_map cfg;
      items ← color_labels cfg;
      color_label_map ← color_label_map_of items ∅;
      let sorted_keys := sorted (color_map.*1) in
      dimension_colors ← mapM (dict_get color_map) sorted_keys;
      Some {| image_width := 256; image_height := 256;
              color_map := Some color_map;
              dimension_colors := Some dimension_colors;
              dimension_labels :=
                Some ((λ k, color_label_map !! k) <$> sorted_keys) |}
  end.
End ModelInit.

(** ** Parsing a serialized example *)

Inductive DType := tf_string | tf_float32 | tf_int64.

(** The value of one feature of an [Example] record. *)
Inductive Feature :=
  | bytes_list (value : list string)
  | float_list (value : list Q)
  | int64_list (value : list Z).

Record FixedLenFeature := {
  shape : list nat;
  dtype : DType;
  default_value : option Feature
}.

(** The [feature_map] literal of [build_graph]. *)
Definition feature_map : gmap string FixedLenFeature :=
  {[ "input_uri" :=
       {| shape := []; dtype := tf_string;
          default_value := Some (bytes_list [""]) |};
     "annotation_uri" :=
       {| shape := []; dtype := tf_string;
          default_value := Some (bytes_list [""]) |};
     "input_image" :=
       {| shape := []; dtype := tf_string; default_value := None |};
     "annotation_image" :=
       {| shape := []; dtype := tf_string; default_value := None |} ]}.

Definition feature_dtype (f : Feature) : DType :=
  match f with
  | bytes_list _ => tf_string
  | float_list _ => tf_float32
  | int64_list _ => tf_int64
  end.

Definition feature_size (f : Feature) : nat :=
  match f with
  | bytes_list v => length v
  | float_list v => length v
  | int64_list v => length v
  end.

Global Instance DType_eq_dec : EqDecision DType.
Proof. solve_decision. Defined.

(** TensorFlow's dense parsing of one [FixedLenFeature]: an absent key takes
    the default when there is one and is an error otherwise; a present
    value must have the declared dtype and as many elements as the shape. *)
Definition parse_feature (spec : FixedLenFeature) (value : option Feature)
  : option Feature :=
  v ← (match value with
       | Some v => Some v
       | None => default_value spec
       end);
  if decide (feature_dtype v = dtype spec ∧
             feature_size v = foldr Nat.mul 1%nat (shape spec))
  then Some v else None.

(** [tf.parse_single_example(example, features)]: every feature of the
    schema must parse; features of the record outside the schema are
    ignored. *)
Definition parse_single_example (example : gmap string Feature)
    (features : gmap string FixedLenFeature) : option (gmap string Feature) :=
  let parse key spec := parse_feature spec (example !! key) in
  if decide (map_Forall (λ key spec, is_Some (parse key spec)) features)
  then Some (map_imap parse features)
  else None.

(** ** The per-example tensors of build_graph *)

Definition squeeze_string (f : Feature) : option string :=
  match f with
  | bytes_list [s] => Some s
  | _ => None
  end.

(** [tf.image.convert_image_dtype(_, tf.float32)] on a [uint8] image: the
    cast is exact, the scale is Python's [1. / 255] as a [float32]
    constant. *)
Definition uint8_to_float32 (t : image Z) : image float32 :=
  let scale := float32_of_pyfloat (round_float64 (1 / 255)) in
  map3 (λ x, f32_mul (Finite (inject_Z x)) scale) t.

(** The five tensors handed to [tf.train.batch]. *)
Record example_tensors := {
  ex_input_uri : string;
  ex_annotation_uri : string;
  ex_image_tensor : image float32;
  ex_annotation_tensor : tensor3;
  ex_separate_channel_annotation_tensor : image float32
}.

Section ExampleGraph.
(** [tf.image.decode_png(_, channels=3)]; [None] when the bytes are not a
    PNG image. *)
Variable decode_png : string → option (image Z).
(** [tf.image.resize_image_with_crop_or_pad(image, height, width)] *)
Variable resize_image_with_crop_or_pad : image Z → nat → nat → image Z.

Definition example_graph (self : Model) (example : gmap string Feature)
  : option example_tensors :=
  parsed ← parse_single_example example feature_map;
  input_uri ← parsed !! "input_uri" ≫= squeeze_string;
  annotation_uri ← parsed !! "annotation_uri" ≫= squeeze_string;
  raw_input_image ← parsed !! "input_image" ≫= squeeze_string;
  raw_annotation_image ← parsed !! "annotation_image" ≫= squeeze_string;
  image_tensor ← decode_png raw_input_image;
  annotation_tensor ← decode_png raw_annotation_image;
  let image_tensor :=
    resize_image_with_crop_or_pad image_tensor
      (image_height self) (image_width self) in
  let image_tensor := uint8_to_float32 image_tensor in
  let annotation_tensor :=
    resize_image_with_crop_or_pad annotation_tensor
      (image_height self) (image_width self) in
  match dimension_colors self with
  | Some ((_ :: _) as colors) =>
      separate ← colors_to_dimensions annotation_tensor colors;
      Some {| ex_input_uri := input_uri;
              ex_annotation_uri := annotation_uri;
              ex_image_tensor := image_tensor;
              ex_annotation_tensor := Uint8 annotation_tensor;
              ex_separate_channel_annotation_tensor := separate |}
  | Some [] | None =>
      let annotation_tensor := uint8_to_float32 annotation_tensor in
      Some {| ex_input_uri := input_uri;
              ex_annotation_uri := annotation_uri;
              ex_image_tensor := image_tensor;
              ex_annotation_tensor := Float32 annotation_tensor;
              ex_separate_channel_annotation_tensor := annotation_tensor |}
  end.

(** *** tf.train.batch

    One call with the list of five tensors: TensorFlow creates a single
    FIFO queue whose elements are whole five-tuples.  The one queue runner
    thread evaluates the five tensors together, which consumes one record
    of the reader, and then enqueues the tuple, waiting while the queue is
    full; the batched tensors are one [dequeue_many(batch_size)], stacked
    component by component.  The leading (batch) axis of a batched tensor
    is the list. *)
Record batched_tensors := {
  input_uri : list string;
  annotation_uri : list string;
  batched_image_tensor : batch float32;
  batched_annotation_tensor : list tensor3;
  batched_separate_channel_annotation_tensor : batch float32
}.

Definition stack_batch (elements : list example_tensors) : batched_tensors :=
  {| input_uri := ex_input_uri <$> elements;
     annotation_uri := ex_annotation_uri <$> elements;
     batched_image_tensor := ex_image_tensor <$> elements;
     batched_annotation_tensor := ex_annotation_tensor <$> elements;
     batched_separate_channel_annotation_tensor :=
       ex_separate_channel_annotation_tensor <$> elements |}.

(** [pending] is the tuple the runner has computed and not yet
    enqueued. *)
Record batch_state := {
  records_read : nat;
  pending : option example_tensors;
  queue : list example_tensors;
  batches : list batched_tensors
}.

Definition initial_state : batch_state :=
  {| records_read := 0; pending := None; queue := []; batches := [] |}.

Section Run.
Variable self : Model.
(** The record the reader yields at each position, [None] once the
    reader has signalled the end of its data. *)
Variable reader : nat → option (gmap string Feature).
Variables batch_size capacity : nat.

(** The runner and the dequeue run in different threads, hence the
    interleaving.  A record whose tensors cannot be computed stops the
    runner: no rule steps over it. *)
Inductive batch_step : batch_state → batch_state → Prop :=
  | step_read st example element :
      pending st = None →
      reader (records_read st) = Some example →
      example_graph self example = Some element →
      batch_step st
        {| records_read := S (records_read st);
           pending := Some element;
           queue := queue st;
           batches := batches st |}
  | step_enqueue st element :
      pending st = Some element →
      (length (queue st) < capacity)%nat →
      batch_step st
        {| records_read := records_read st;
           pending := None;
           queue := queue st ++ [element];
           batches := batches st |}
  | step_dequeue_many st :
      (batch_size ≤ length (queue st))%nat →
      batch_step st
        {| records_read := records_read st;
           pending := pending st;
           queue := drop batch_size (queue st);
           batches := batches st ++ [stack_batch (take batch_size (queue st))] |}.

Definition reachable : batch_state → Prop := rtc batch_step initial_state.

(** The elements computed so far, in order: the [k]-th one is computed
    from the [k]-th record; the batches are its consecutive chunks, the
    queue and the pending tuple hold what is left. *)
Definition batching_invariant (st : batch_state) : Prop :=
  ∃ elements : list example_tensors,
    length elements = records_read st ∧
    (∀ k element, elements !! k = Some element →
       ∃ example,
         reader k = Some example ∧
         example_graph self example
           = Some element) ∧
    (length (batches st) * batch_size ≤ length elements)%nat ∧
    (queue st ++ option_list (pending st))%list
      = drop (length (batches st) * batch_size) elements ∧
    ∀ j batch, batches st !! j = Some batch →
      batch = stack_batch (take batch_size (drop (j * batch_size) elements)).
End Run.
End ExampleGraph.

(** ** Notions used in the statements *)

(** [P] holds of every pixel (or channel vector) of a rank-3 nested list. *)
Definition Forall3 {T} (P : T → Prop) (t : list (list (list T))) : Prop :=
  Forall (Forall (Forall P)) t.

(** The value 0.0. *)
Definition is_zero (v : float32) : Prop :=
  match v with
  | Finite q => (q == 0)%Q
  | Infinity _ | NaN => False
  end.

(** Every weight of the image is zero. *)
Definition all_zero (t : batch float32) : Prop := Forall3 (Forall is_zero) t.

(** An RGB triple: three integers in 0..255. *)
Definition is_rgb (color : list Z) : Prop :=
  length color = 3%nat ∧ Forall (λ x, 0 ≤ x ≤ 255) color.

Definition has_shape2 {T} (H W : nat) (t : list (list T)) : Prop :=
  length t = H ∧ Forall (λ row, length row = W) t.

(** Pure black becomes white, any other pixel stays. *)
Definition whiten (px : list Z) : list Z :=
  if decide (px = [0; 0; 0]) then [255; 255; 255] else px.

(** Channel [c] of pixel [(b, h, w)]. *)
Definition at4c {T} (t : batch T) (b h w c : nat) : option T :=
  px ← at4 t b h w; px !! c.

(** The [float32] sum of a non-empty list of values, added up from the
    left, every partial sum rounded. *)
Definition sum_float32 (values : list float32) : option float32 :=
  match values with
  | [] => None
  | v :: values' => Some (foldl f32_add v values')
  end.

(** The sum of the images at one position. *)
Definition sum_at (imgs : list (batch float32)) (b h w c : nat)
  : option float32 :=
  mapM (λ img, at4c img b h w c) imgs ≫= sum_float32.

(** Element-wise addition of two tensors of one shape. *)
Definition add4_same (a b : batch float32) : batch float32 :=
  zip_with (zip_with (zip_with (zip_with f32_add))) a b.

(** The tensor of shape [(B, H, W, C)] filled with [v]. *)
Definition constant4 {T} (B H W C : nat) (v : T) : batch T :=
  replicate B (replicate H (replicate W (replicate C v))).

(** The channel vector of one pixel: 1.0 at the colours it equals. *)
Definition one_hot (colors : list (list Z)) (px : list Z) : list float32 :=
  (λ color, if bool_decide (px = color) then Finite 1 else Finite 0)
    <$> colors.

(** The two kinds of entry of [feature_map]. *)
Definition optional_string : FixedLenFeature :=
  {| shape := []; dtype := tf_string; default_value := Some (bytes_list [""]) |}.

Definition required_string : FixedLenFeature :=
  {| shape := []; dtype := tf_string; default_value := None |}.

(** The double nearest to the literal [0.1234]. *)
Definition float_0_1234 : pyfloat :=
  FFinite (8891907104280307 # 72057594037927936).

(** The label as the name shows it. *)
Definition shown_label (dimension_label : option string) : string :=
  match dimension_label with
  | Some (String _ _ as l) => l
  | Some EmptyString | None => "unknown_label"
  end.


(** The weight of a colour component: [x / 255.0] as a [float32]. *)
Definition component_weight (x : Z) : float32 :=
  float32_of_pyfloat (round_float64 (inject_Z x / 255)).

(** What colour [color] adds to channel [j] of the composite at a pixel
    [px] of the annotation: its mask value times the weight of its
    component. *)
Definition color_share (px : list Z) (j : nat) (color : list Z) : float32 :=
  f32_mul (if bool_decide (px = color) then Finite 1 else Finite 0)
          (component_weight (default 0 (color !! j))).

(** The pixel the composite shows for an annotation pixel: the pixel itself
    when its colour is configured, black otherwise. *)
Definition decoded (colors : list (list Z)) (px : list Z) : list Z :=
  if decide (px ∈ colors) then px else [0; 0; 0].

(** The lookup table a sequence of summary records amounts to: a later
    record replaces an earlier one of the same name. *)
Definition registered (records : list (string * batch Z))
  : gmap string (batch Z) :=
  foldl (λ m '(name, image), <[name := image]> m) ∅ records.

(** The state once [input] and [target] are registered. *)
Definition with_input_target (tensors : GraphReferences) : GraphReferences :=
  add_summary_image
    (add_summary_image (set_summaries tensors ∅) "input"
       (convert_image (image_tensor tensors)))
    "target" (convert_image (annotation_tensor tensors)).

(** The state once the images of the dimensions are registered. *)
Definition with_dimensions (prefix : string) (tensors : GraphReferences)
    (batch_images : list (batch float32)) (labels : list (option string))
  : GraphReferences :=
  foldl (λ tensors '(i, (batch_image, dimension_label)),
           add_summary_image tensors
             (prefix ++ label_suffix i dimension_label)
             (convert_image (Float32 batch_image)))
        tensors
        (enumerate (zip batch_images labels)).

(** The final state of the branch with dimension colours. *)
Definition with_dimension_images (tensors : GraphReferences)
    (labels : list (option string)) (targets outputs : list (batch float32))
    (targets_sum outputs_sum : batch float32) : GraphReferences :=
  let tensors :=
    with_dimensions "targets" (with_input_target tensors) targets labels in
  let tensors :=
    add_summary_image tensors "targets_combined"
      (convert_image (Float32 targets_sum)) in
  let tensors := with_dimensions "outputs" tensors outputs labels in
  let tensors :=
    set_summaries tensors
      (<["output_image" := convert_image (Float32 outputs_sum)]>
         (summaries tensors)) in
  add_summary_image tensors "outputs_combined"
    (convert_image (Float32 outputs_sum)).

(** The final state of the branch without dimension colours. *)
Definition with_output (tensors : GraphReferences) : GraphReferences :=
  let tensors :=
    add_summary_image (with_input_target tensors) "output"
      (convert_image (Float32 (pred tensors))) in
  set_summaries tensors
    (<["output_image" := convert_image (Float32 (pred tensors))]>
       (summaries tensors)).

(** The name-indexed table and the list of summary records agree. *)
Definition in_sync (tensors : GraphReferences) : Prop :=
  image_tensors tensors = registered (summary_images tensors).

(** Every character of [s] is a decimal digit. *)
Fixpoint digits (s : string) : Prop :=
  match s with
  | EmptyString => True
  | String c s' =>
      (48 ≤ Ascii.nat_of_ascii c ≤ 57)%nat ∧ digits s'
  end.

(** ** Example inputs *)

Definition example_references : GraphReferences :=
  {| image_tensor := Float32 [[[[Finite 1; Finite 0; Finite 0]]]];
     annotation_tensor := Uint8 [[[[9; 9; 9]]]];
     separate_channel_annotation_tensor := [[[[Finite 0; Finite 0]]]];
     pred := [[[[Finite (1 # 4); Finite (1 # 2)]]]];
     image_tensors := ∅; summaries := ∅; summary_images := [] |}.

(** Two weighted images of three pixels that overlap. *)
Definition overlapping_images : list (batch float32) :=
  [ [[[[Finite 0; Finite 0; Finite 0];
       [Finite (1 # 2); Finite 0; Finite 0];
       [Finite 1; Finite 0; Finite 0]]]];
    [[[[Finite 0; Finite 0; Finite 0];
       [Finite (1 # 4); Finite 1; Finite 0];
       [Finite 1; Finite 0; Finite 0]]]] ].

Definition int_digit (s : string) : option Z :=
  match s with
  | "0" => Some 0 | "1" => Some 1 | "7" => Some 7
  | _ => None
  end.

Definition record_a : gmap string Feature :=
  {[ "input_uri" := bytes_list ["a.png"];
     "input_image" := bytes_list ["A"];
     "annotation_image" := bytes_list ["AA"] ]}.

Definition record_b : gmap string Feature :=
  {[ "input_uri" := bytes_list ["b.png"];
     "input_image" := bytes_list ["BBB"];
     "annotation_image" := bytes_list ["BBBB"] ]}.

Definition two_records (k : nat) : option (gmap string Feature) :=
  match k with
  | 0%nat => Some record_a
  | 1%nat => Some record_b
  | _ => None
  end.

(** A stand-in decoder: a one-pixel image whose red channel is the length
    of the encoded string. *)
Definition decode_length (s : string) : option (image Z) :=
  Some [[[Z.of_nat (String.length s); 0; 0]]].

Definition keep_size (t : image Z) (height width : nat) : image Z := t.

(** The tensors of the two records: 1/255, 2/255, 3/255 and 4/255 as
    [float32] values. *)
Definition element_a : example_tensors :=
  {| ex_input_uri := "a.png"; ex_annotation_uri := "";
     ex_image_tensor :=
       [[[Finite (8421505 # 2147483648); Finite 0; Finite 0]]];
     ex_annotation_tensor :=
       Float32 [[[Finite (8421505 # 1073741824); Finite 0; Finite 0]]];
     ex_separate_channel_annotation_tensor :=
       [[[Finite (8421505 # 1073741824); Finite 0; Finite 0]]] |}.

Definition element_b : example_tensors :=
  {| ex_input_uri := "b.png"; ex_annotation_uri := "";
     ex_image_tensor :=
       [[[Finite (6316129 # 536870912); Finite 0; Finite 0]]];
     ex_annotation_tensor :=
       Float32 [[[Finite (8421505 # 536870912); Finite 0; Finite 0]]];
     ex_separate_channel_annotation_tensor :=
       [[[Finite (8421505 # 536870912); Finite 0; Finite 0]]] |}.

Definition plain_model : Model :=
  {| image_width := 256; image_height := 256; color_map := None;
     dimension_colors := None; dimension_labels := None |}.

(** * Properties *)

(** ** The example source *)

Lemma build_graph_examples_cons p ps graph_mode :
  build_graph_examples (p :: ps) graph_mode =
  read_examples {|
    data_paths := p :: ps;
    shuffle := (graph_mode =? GraphMode.TRAIN);
    num_epochs :=
      if (graph_mode =? GraphMode.TRAIN) || (graph_mode =? GraphMode.EVALUATE)
      then None else Some 2%nat |}.
Proof. reflexivity. Qed.

(** C1, as stated, fails: in EVALUATE mode over a non-empty path list the
    reader is not bounded to 2 passes. *)
Lemma evaluate_reader_not_two_passes :
  ¬ (∀ args,
       build_graph_examples ["eval.tfrecord"] GraphMode.EVALUATE
         = read_examples args →
       shuffle args = false ∧ num_epochs args = Some 2%nat).
Proof.
  intros Hclaim.
  destruct (Hclaim _ (build_graph_examples_cons _ _ _)) as [_ Hepochs].
  discriminate Hepochs.
Qed.

(** C1 (amended): with non-empty [data_paths] the reader is shuffled exactly
    when the mode is TRAIN; it repeats without bound when the mode is TRAIN
    or EVALUATE, and is bounded to exactly 2 passes for every other mode. *)
Theorem build_graph_reader_config (paths : list string) (graph_mode : Z) :
  paths ≠ [] →
  ∃ args,
    build_graph_examples paths graph_mode = read_examples args ∧
    data_paths args = paths ∧
    (shuffle args = true ↔ graph_mode = GraphMode.TRAIN) ∧
    (graph_mode = GraphMode.TRAIN ∨ graph_mode = GraphMode.EVALUATE →
       num_epochs args = None ∧ ∀ n, records_yielded args n = None) ∧
    (graph_mode ≠ GraphMode.TRAIN → graph_mode ≠ GraphMode.EVALUATE →
       num_epochs args = Some 2%nat ∧
       ∀ n, records_yielded args n = Some (2 * n)%nat).
Proof.
  intros Hne. destruct paths as [|p ps]; [done|].
  eexists. split; [apply build_graph_examples_cons|]. simpl.
  split; [done|]. split; [apply Z.eqb_eq|].
  unfold records_yielded. split.
  - intros [-> | ->]; done.
  - intros Htrain Heval.
    apply Z.eqb_neq in Htrain, Heval. rewrite Htrain, Heval. done.
Qed.

Lemma build_graph_reader_config_predict :
  ∃ args,
    build_graph_examples ["predict.tfrecord"] GraphMode.PREDICT
      = read_examples args ∧
    data_paths args = ["predict.tfrecord"] ∧
    (shuffle args = true ↔ GraphMode.PREDICT = GraphMode.TRAIN) ∧
    (GraphMode.PREDICT = GraphMode.TRAIN ∨
     GraphMode.PREDICT = GraphMode.EVALUATE →
       num_epochs args = None ∧ ∀ n, records_yielded args n = None) ∧
    (GraphMode.PREDICT ≠ GraphMode.TRAIN →
     GraphMode.PREDICT ≠ GraphMode.EVALUATE →
       num_epochs args = Some 2%nat ∧
       ∀ n, records_yielded args n = Some (2 * n)%nat).
Proof.
  apply (build_graph_reader_config ["predict.tfrecord"] GraphMode.PREDICT).
  discriminate.
Defined.

(** ** format_metric_values *)

Lemma format_metric_values_unfold metric_values :
  format_metric_values metric_values =
  match format_item metric_values 0 with
  | Raise e => if caught e then Return "N/A, N/A" else Raise e
  | Return s0 =>
      match format_item metric_values 1 with
      | Raise e => if caught e then Return (s0 ++ ", N/A") else Raise e
      | Return s1 => Return (s0 ++ ", " ++ s1)
      end
  end.
Proof.
  unfold format_metric_values, try_format.
  destruct (format_item metric_values 0) as [s0|e]; [|done].
  destruct (format_item metric_values 1) as [s1|e]; done.
Qed.

Lemma format_3f_arg_raise x e :
  format_3f_arg x = Raise e →
  e = TypeError ∨ (e = OverflowError ∧ ∃ z, x = PInt z).
Proof.
  destruct x as [| b | z | f | s | l | l]; simpl;
    try discriminate; try (intros [= <-]; by left).
  unfold int_to_float.
  destruct (Z.abs z <? 2 ^ 53); [discriminate|].
  match goal with |- context [if ?c then _ else _] => destruct c end;
    [|discriminate].
  intros [= <-]. right. eauto.
Qed.

Lemma format_item_raise metric_values i e :
  format_item metric_values i = Raise e →
  caught e = true ∨ e = OverflowError.
Proof.
  unfold format_item.
  destruct (getitem metric_values i) as [v|e'] eqn:Hget; simpl.
  - intros Hfmt.
    assert (e = TypeError ∨ e = OverflowError) as [-> | ->]; [|by left|by right].
    destruct v as [| b | z | f | s | l | [|x [|y l]]];
      unfold percent_3f in Hfmt;
      try (apply format_3f_arg_raise in Hfmt as [? | [? _]]; by auto);
      injection Hfmt as <-; by left.
  - intros [= ->]. left.
    destruct metric_values; simpl in Hget; repeat case_match; by simplify_eq.
Qed.

(** C3, as stated, fails: with an unformattable first value the second
    value is not formatted, although it could be. *)
Lemma first_failure_blanks_second :
  ¬ (format_metric_values (PList [PNone; PFloat (FFinite (3 # 4))])
       = Return "N/A, 0.750").
Proof. vm_compute. discriminate. Qed.

(** C3 (amended): no [TypeError] or [IndexError] escapes
    [format_metric_values], and it returns a string whenever no item
    overflows the float range (so for [None], for an empty or short
    sequence, for items of a wrong type).  The placeholder is per field in
    one direction only: a failure on the second value keeps the first value
    formatted; a failure on the first value leaves both fields ["N/A"],
    whatever the second value is. *)
Theorem format_metric_values_placeholders :
  (∀ metric_values e,
     format_metric_values metric_values = Raise e → e = OverflowError) ∧
  (∀ metric_values,
     (∀ i, format_item metric_values i ≠ Raise OverflowError) →
     ∃ s, format_metric_values metric_values = Return s) ∧
  (∀ metric_values s0 e,
     format_item metric_values 0 = Return s0 →
     format_item metric_values 1 = Raise e → caught e = true →
     format_metric_values metric_values = Return (s0 ++ ", N/A")) ∧
  (∀ metric_values s0 s1,
     format_item metric_values 0 = Return s0 →
     format_item metric_values 1 = Return s1 →
     format_metric_values metric_values = Return (s0 ++ ", " ++ s1)) ∧
  (∀ metric_values e,
     format_item metric_values 0 = Raise e → caught e = true →
     format_metric_values metric_values = Return "N/A, N/A").
Proof.
  repeat split.
  - intros mv e. rewrite format_metric_values_unfold.
    destruct (format_item mv 0) as [s0|e0] eqn:H0.
    + destruct (format_item mv 1) as [s1|e1] eqn:H1; [done|].
      destruct (format_item_raise _ _ _ H1) as [-> | ->]; [done|].
      by intros [= <-].
    + destruct (format_item_raise _ _ _ H0) as [-> | ->]; [done|].
      by intros [= <-].
  - intros mv Hrange. rewrite format_metric_values_unfold.
    destruct (format_item mv 0) as [s0|e0] eqn:H0.
    + destruct (format_item mv 1) as [s1|e1] eqn:H1; [eauto|].
      destruct (format_item_raise _ _ _ H1) as [-> | ->]; [eauto|].
      by destruct (Hrange 1%nat).
    + destruct (format_item_raise _ _ _ H0) as [-> | ->]; [eauto|].
      by destruct (Hrange 0%nat).
  - intros mv s0 e H0 H1 He. rewrite format_metric_values_unfold, H0, H1.
    by rewrite He.
  - intros mv s0 s1 H0 H1. by rewrite format_metric_values_unfold, H0, H1.
  - intros mv e H0 He. rewrite format_metric_values_unfold, H0. by rewrite He.
Qed.

Lemma format_metric_values_placeholders_short :
  format_metric_values (PList [PFloat (FFinite (1 # 2))])
    = Return ("0.500" ++ ", N/A") ∧
  format_metric_values (PList [PStr "nan?"; PFloat (FFinite (1 # 2))])
    = Return "N/A, N/A" ∧
  ∃ s, format_metric_values PNone = Return s.
Proof.
  destruct format_metric_values_placeholders as (_ & Htotal & Hsnd & _ & Hfst).
  split; [|split].
  - apply (Hsnd (PList [PFloat (FFinite (1 # 2))]) "0.500" IndexError);
      reflexivity.
  - apply (Hfst (PList [PStr "nan?"; PFloat (FFinite (1 # 2))]) TypeError);
      reflexivity.
  - apply (Htotal PNone). intros i. destruct i; discriminate.
Defined.

(** C4: the three documented renderings. *)
Theorem format_metric_values_examples :
  format_metric_values (PList []) = Return "N/A, N/A" ∧
  format_metric_values (PList [PFloat float_0_1234]) = Return "0.123, N/A" ∧
  format_metric_values
    (PList [PFloat (FFinite (1 # 2)); PFloat (FFinite (3 # 4))])
    = Return "0.500, 0.750".
Proof. repeat split; vm_compute; reflexivity. Qed.

(** ** float32 arithmetic *)

Lemma Qpow2_pos e : (0 < 2 ^ e)%Q.
Proof. apply Qpower_0_lt. reflexivity. Qed.

Lemma Qpow2_plus a b : (2 ^ (a + b) == 2 ^ a * 2 ^ b)%Q.
Proof. apply Qpower_plus. discriminate. Qed.

Lemma Qpow2_succ e : (2 ^ (e + 1) == 2 * 2 ^ e)%Q.
Proof. rewrite Qpow2_plus. change (2 ^ 1)%Q with 2%Q. ring. Qed.

Lemma Qpow2_le a b : a <= b -> (2 ^ a <= 2 ^ b)%Q.
Proof. intros H. apply Qpower_le_compat_l; [exact H|]. discriminate. Qed.

Lemma Qpow2_lt a b : a < b -> (2 ^ a < 2 ^ b)%Q.
Proof. intros H. apply Qpower_lt_compat_l; [exact H|]. reflexivity. Qed.

Lemma Qpow2_lt_inv a b : (2 ^ a < 2 ^ b)%Q -> a < b.
Proof. intros H. eapply Qpower_lt_compat_l_inv; [exact H|]. reflexivity. Qed.

Lemma Qpow2_inject e : 0 <= e -> (inject_Z (2 ^ e) == 2 ^ e)%Q.
Proof. intros H. apply (Zpower_Qpower 2 e H). Qed.

Lemma floor_log2_spec q :
  (0 < q)%Q -> (2 ^ floor_log2 q <= q)%Q /\ (q < 2 ^ (floor_log2 q + 1))%Q.
Proof.
  intros Hq. unfold floor_log2. cbv zeta.
  destruct q as [n d]. cbn [Qnum Qden].
  assert (0 < n) as Hn by (unfold Qlt in Hq; simpl in Hq; lia).
  pose proof (Z.log2_spec n Hn) as [Hn1 Hn2].
  pose proof (Z.log2_spec (Z.pos d) (Pos2Z.is_pos d)) as [Hd1 Hd2].
  pose proof (Z.log2_nonneg n) as Hln.
  pose proof (Z.log2_nonneg (Z.pos d)) as Hld.
  set (ln := Z.log2 n) in *. set (ld := Z.log2 (Z.pos d)) in *.
  assert (inject_Z (2 ^ ln) <= inject_Z n)%Q as Q1 by (rewrite <-Zle_Qle; exact Hn1).
  assert (inject_Z n < inject_Z (2 ^ Z.succ ln))%Q as Q2 by (rewrite <-Zlt_Qlt; exact Hn2).
  assert (inject_Z (2 ^ ld) <= inject_Z (Z.pos d))%Q as Q3 by (rewrite <-Zle_Qle; exact Hd1).
  assert (inject_Z (Z.pos d) < inject_Z (2 ^ Z.succ ld))%Q as Q4 by (rewrite <-Zlt_Qlt; exact Hd2).
  rewrite Qpow2_inject in Q1, Q2, Q3, Q4 by lia.
  unfold Z.succ in Q2, Q4. rewrite Qpow2_succ in Q2, Q4.
  assert (0 < inject_Z (Z.pos d))%Q as Hdpos by (rewrite <-(Zlt_Qlt 0); lia).
  assert (n # d == inject_Z n / inject_Z (Z.pos d))%Q as Hq' by apply Qmake_Qdiv.
  pose proof (Qpow2_pos ln) as HL. pose proof (Qpow2_pos ld) as HD.
  assert (2 ^ ln == 2 ^ (ln - ld) * 2 ^ ld)%Q as Hsplit.
  { rewrite <-Qpow2_plus. apply Qpower_comp; [reflexivity|lia]. }
  pose proof (Qpow2_pos (ln - ld)) as HE.
  assert (inject_Z n == (n # d) * inject_Z (Z.pos d))%Q as Hnq.
  { rewrite Hq'. field. lra. }
  set (x := (n # d)%Q) in *. set (Qn := inject_Z n) in *.
  set (Qd := inject_Z (Z.pos d)) in *.
  set (L := (2 ^ ln)%Q) in *. set (D := (2 ^ ld)%Q) in *.
  set (E := (2 ^ (ln - ld))%Q) in *.
  assert (E * Qd < E * (2 * D))%Q as P1 by (apply Qmult_lt_l; lra).
  assert (E * D <= E * Qd)%Q as P2 by (apply Qmult_le_l; lra).
  assert (E * (1 # 2) < x)%Q as Hlow.
  { apply Qnot_le_lt. intros Hc.
    assert (x * Qd <= E * (1 # 2) * Qd)%Q as P3 by (apply Qmult_le_compat_r; lra).
    lra. }
  assert (x < 2 * E)%Q as Hhigh.
  { apply Qnot_le_lt. intros Hc.
    assert (2 * E * Qd <= x * Qd)%Q as P3 by (apply Qmult_le_compat_r; lra).
    lra. }
  destruct (Qle_bool E x) eqn:Hle.
  - apply Qle_bool_iff in Hle. split; [exact Hle|].
    rewrite Qpow2_succ. exact Hhigh.
  - assert (x < E)%Q as Hlt.
    { apply Qnot_le_lt. intros H. apply Qle_bool_iff in H. congruence. }
    replace (ln - ld - 1 + 1) with (ln - ld) by lia.
    split; [|exact Hlt].
    assert (E == 2 * 2 ^ (ln - ld - 1))%Q as HE1.
    { unfold E. rewrite <-Qpow2_succ. apply Qpower_comp; [reflexivity|lia]. }
    lra.
Qed.

Lemma floor_log2_unique q e :
  (2 ^ e <= q)%Q -> (q < 2 ^ (e + 1))%Q -> floor_log2 q = e.
Proof.
  intros Hlow Hhigh.
  assert (0 < q)%Q as Hq by (pose proof (Qpow2_pos e); lra).
  destruct (floor_log2_spec q Hq) as [Hl Hh].
  assert (floor_log2 q < e + 1).
  { apply Qpow2_lt_inv. lra. }
  assert (e < floor_log2 q + 1).
  { apply Qpow2_lt_inv. lra. }
  lia.
Qed.

Lemma floor_log2_le p q :
  (0 < p)%Q -> (p <= q)%Q -> floor_log2 p <= floor_log2 q.
Proof.
  intros Hp Hpq.
  destruct (floor_log2_spec p Hp) as [Hl _].
  destruct (floor_log2_spec q) as [_ Hh]; [lra|].
  assert (floor_log2 p < floor_log2 q + 1); [|lia].
  apply Qpow2_lt_inv. lra.
Qed.

Lemma Qfloor_bounds x :
  (inject_Z (Qfloor x) <= x)%Q /\ (x < inject_Z (Qfloor x) + 1)%Q.
Proof.
  split; [apply Qfloor_le|].
  pose proof (Qlt_floor x) as H. rewrite inject_Z_plus in H. exact H.
Qed.

Lemma round_half_even_Q_cases x :
  let f := Qfloor x in
  ((x - inject_Z f < 1 # 2)%Q /\ round_half_even_Q x = f) \/
  ((1 # 2 < x - inject_Z f)%Q /\ round_half_even_Q x = f + 1) \/
  ((x - inject_Z f == 1 # 2)%Q /\
   round_half_even_Q x = if Z.even f then f else f + 1).
Proof.
  cbv zeta. unfold round_half_even_Q.
  destruct (Qcompare_spec (x - inject_Z (Qfloor x)) (1 # 2)); auto.
Qed.

Lemma round_half_even_Q_bounds x :
  (x - (1 # 2) <= inject_Z (round_half_even_Q x))%Q /\
  (inject_Z (round_half_even_Q x) <= x + (1 # 2))%Q.
Proof.
  destruct (Qfloor_bounds x) as [Hl Hh].
  destruct (round_half_even_Q_cases x) as [[H ->]|[[H ->]|[H ->]]].
  - lra.
  - rewrite inject_Z_plus. change (inject_Z 1) with 1%Q. lra.
  - destruct (Z.even _); [lra|].
    rewrite inject_Z_plus. change (inject_Z 1) with 1%Q. lra.
Qed.

Lemma round_half_even_Q_floor x :
  Qfloor x <= round_half_even_Q x <= Qfloor x + 1.
Proof.
  destruct (round_half_even_Q_cases x) as [[H ->]|[[H ->]|[H ->]]];
    try destruct (Z.even _); lia.
Qed.

Lemma round_half_even_Q_le x y :
  (x <= y)%Q -> round_half_even_Q x <= round_half_even_Q y.
Proof.
  intros Hxy. pose proof (Qfloor_resp_le _ _ Hxy) as Hf.
  pose proof (round_half_even_Q_floor x) as Hx.
  pose proof (round_half_even_Q_floor y) as Hy.
  destruct (Z.eq_dec (Qfloor x) (Qfloor y)) as [Heq|Hne]; [|lia].
  destruct (round_half_even_Q_cases x) as [[H1 E1]|[[H1 E1]|[H1 E1]]];
  destruct (round_half_even_Q_cases y) as [[H2 E2]|[[H2 E2]|[H2 E2]]];
    rewrite E1, E2, ?Heq in *; try destruct (Z.even (Qfloor y)); try lia;
    exfalso; lra.
Qed.

Lemma round_half_even_Q_inject n : round_half_even_Q (inject_Z n) = n.
Proof.
  destruct (round_half_even_Q_cases (inject_Z n)) as [[H ->]|[[H E]|[H E]]];
    rewrite Qfloor_Z in *; [reflexivity|exfalso; lra..].
Qed.

Lemma Qdiv_pow2_mul a e : (a / 2 ^ e * 2 ^ e == a)%Q.
Proof. field. pose proof (Qpow2_pos e). lra. Qed.

Lemma Qdiv_pow2_le a b e : (a <= b)%Q -> (a / 2 ^ e <= b / 2 ^ e)%Q.
Proof.
  intros H. unfold Qdiv. apply Qmult_le_compat_r; [exact H|].
  apply Qlt_le_weak, Qinv_lt_0_compat, Qpow2_pos.
Qed.

Lemma Qpow2_div a b : 0 <= a - b -> (2 ^ a / 2 ^ b == inject_Z (2 ^ (a - b)))%Q.
Proof.
  intros H. rewrite Qpow2_inject by exact H.
  rewrite Qpower_minus by discriminate. reflexivity.
Qed.

Section Rounding.
Variables prec emin : Z.
Hypothesis prec_pos : 1 <= prec.

Lemma round_positive_error a :
  let e := ulp_exponent prec emin a in
  (a - 2 ^ e * (1 # 2) <= round_positive prec emin a)%Q /\
  (round_positive prec emin a <= a + 2 ^ e * (1 # 2))%Q.
Proof.
  cbv zeta. unfold round_positive.
  set (e := ulp_exponent prec emin a).
  pose proof (round_half_even_Q_bounds (a / 2 ^ e)) as [Hl Hh].
  pose proof (Qpow2_pos e) as He. pose proof (Qdiv_pow2_mul a e) as Ha.
  fold e in Ha.
  set (m := inject_Z (round_half_even_Q (a / 2 ^ e))) in *.
  assert ((a / 2 ^ e - (1 # 2)) * 2 ^ e <= m * 2 ^ e)%Q as H1
    by (apply Qmult_le_compat_r; lra).
  assert (m * 2 ^ e <= (a / 2 ^ e + (1 # 2)) * 2 ^ e)%Q as H2
    by (apply Qmult_le_compat_r; lra).
  split; lra.
Qed.

Lemma round_positive_le a b :
  (0 < a)%Q -> (a <= b)%Q ->
  (round_positive prec emin a <= round_positive prec emin b)%Q.
Proof.
  intros Ha Hab. assert (0 < b)%Q as Hb by lra.
  pose proof (floor_log2_le a b Ha Hab) as Hfl.
  unfold round_positive.
  set (ea := ulp_exponent prec emin a). set (eb := ulp_exponent prec emin b).
  assert (ea <= eb) as Hle by (unfold ea, eb, ulp_exponent; lia).
  destruct (Z.eq_dec ea eb) as [Heq|Hne].
  - rewrite Heq. apply Qmult_le_compat_r; [|apply Qlt_le_weak, Qpow2_pos].
    rewrite <-Zle_Qle. apply round_half_even_Q_le, Qdiv_pow2_le, Hab.
  - assert (eb = floor_log2 b - (prec - 1)) as Heb
      by (unfold ea, eb, ulp_exponent in *; lia).
    assert (floor_log2 a < floor_log2 b) as Hlt
      by (unfold ea, eb, ulp_exponent in *; lia).
    destruct (floor_log2_spec a Ha) as [_ Hah].
    destruct (floor_log2_spec b Hb) as [Hbl _].
    set (T := (2 ^ floor_log2 b)%Q) in *.
    assert (a <= T)%Q as HaT.
    { pose proof (Qpow2_le (floor_log2 a + 1) (floor_log2 b)) as H.
      specialize (H ltac:(lia)). fold T in H. lra. }
    apply (Qle_trans _ T).
    + assert (round_half_even_Q (a / 2 ^ ea) <= 2 ^ (floor_log2 b - ea)) as Hm.
      { rewrite <-(round_half_even_Q_inject (2 ^ (floor_log2 b - ea))).
        apply round_half_even_Q_le.
        rewrite <-Qpow2_div by lia. apply Qdiv_pow2_le, HaT. }
      rewrite Zle_Qle in Hm. rewrite <-Qpow2_div in Hm by lia. fold T in Hm.
      rewrite <-(Qdiv_pow2_mul T ea).
      apply Qmult_le_compat_r; [exact Hm|apply Qlt_le_weak, Qpow2_pos].
    + assert (2 ^ (prec - 1) <= round_half_even_Q (b / 2 ^ eb)) as Hm.
      { rewrite <-(round_half_even_Q_inject (2 ^ (prec - 1))).
        apply round_half_even_Q_le.
        replace (prec - 1) with (floor_log2 b - eb) by lia.
        rewrite <-Qpow2_div by lia. apply Qdiv_pow2_le, Hbl. }
      rewrite Zle_Qle in Hm.
      replace (prec - 1) with (floor_log2 b - eb) in Hm by lia.
      rewrite <-Qpow2_div in Hm by lia. fold T in Hm.
      rewrite <-(Qdiv_pow2_mul T eb) at 1.
      apply Qmult_le_compat_r; [exact Hm|apply Qlt_le_weak, Qpow2_pos].
Qed.

Lemma round_positive_nonneg a :
  (0 < a)%Q -> (0 <= round_positive prec emin a)%Q.
Proof.
  intros Ha. unfold round_positive.
  apply Qmult_le_0_compat; [|apply Qlt_le_weak, Qpow2_pos].
  rewrite <-(Zle_Qle 0). rewrite <-(round_half_even_Q_inject 0).
  apply round_half_even_Q_le. change (inject_Z 0) with 0%Q.
  apply Qle_shift_div_l; [apply Qpow2_pos|]. lra.
Qed.

Lemma round_nearest_even_le p q :
  (p <= q)%Q ->
  (round_nearest_even prec emin p <= round_nearest_even prec emin q)%Q.
Proof.
  intros Hpq. unfold round_nearest_even.
  destruct (Qcompare_spec p 0) as [Hp|Hp|Hp];
  destruct (Qcompare_spec q 0) as [Hq|Hq|Hq]; try (exfalso; lra).
  - lra.
  - apply round_positive_nonneg, Hq.
  - pose proof (round_positive_nonneg (- p)) as H. specialize (H ltac:(lra)). lra.
  - pose proof (round_positive_le (- q) (- p)) as H.
    specialize (H ltac:(lra) ltac:(lra)). lra.
  - pose proof (round_positive_nonneg (- p)) as H. specialize (H ltac:(lra)).
    pose proof (round_positive_nonneg q Hq). lra.
  - apply round_positive_le; [exact Hp|exact Hpq].
Qed.
End Rounding.

Lemma round_nearest_even_0 prec emin q :
  (q == 0)%Q → round_nearest_even prec emin q = 0%Q.
Proof.
  intros Hq. unfold round_nearest_even.
  by destruct (Qcompare_spec q 0) as [_|H|H]; [|exfalso; lra..].
Qed.

Lemma round_nearest_even_proper prec emin p q :
  1 ≤ prec → (p == q)%Q →
  (round_nearest_even prec emin p == round_nearest_even prec emin q)%Q.
Proof.
  intros Hprec Hpq.
  apply Qle_antisym; apply round_nearest_even_le; (exact Hprec || lra).
Qed.

(** Within the normal range the rounding error is at most [2 ^ -prec]
    relative to the exact value. *)
Lemma round_positive_relative_error prec emin a :
  (2 ^ (emin + (prec - 1)) <= a)%Q →
  (a * (1 - 2 ^ (- prec)) <= round_positive prec emin a)%Q ∧
  (round_positive prec emin a <= a * (1 + 2 ^ (- prec)))%Q.
Proof.
  intros Hnormal.
  assert (0 < a)%Q as Ha by (pose proof (Qpow2_pos (emin + (prec - 1))); lra).
  destruct (floor_log2_spec a Ha) as [Hlow Hhigh].
  assert (emin + (prec - 1) < floor_log2 a + 1) as Hfl.
  { apply Qpow2_lt_inv. lra. }
  pose proof (round_positive_error prec emin a) as Herr. cbv zeta in Herr.
  assert (ulp_exponent prec emin a = floor_log2 a - (prec - 1)) as He
    by (unfold ulp_exponent; lia).
  rewrite He in Herr.
  assert (2 ^ (floor_log2 a - (prec - 1)) * (1 # 2)
          == 2 ^ floor_log2 a * 2 ^ (- prec))%Q as Hulp.
  { replace (floor_log2 a - (prec - 1)) with (floor_log2 a + (- prec) + 1)
      by lia.
    rewrite Qpow2_succ, Qpow2_plus. ring. }
  rewrite Hulp in Herr.
  pose proof (Qpow2_pos (- prec)) as Heps.
  assert (2 ^ floor_log2 a * 2 ^ (- prec) <= a * 2 ^ (- prec))%Q as Hbound
    by (apply Qmult_le_compat_r; lra).
  split; lra.
Qed.

(** *** Conversion to [uint8] *)

Lemma Qmaximum_proper a b c : (a == b)%Q → (Qmaximum a c == Qmaximum b c)%Q.
Proof.
  intros Hab. unfold Qmaximum. rewrite Hab. by destruct (Qle_bool b c).
Qed.

Lemma Qminimum_proper a b c : (a == b)%Q → (Qminimum a c == Qminimum b c)%Q.
Proof.
  intros Hab. unfold Qminimum. rewrite Hab. by destruct (Qle_bool b c).
Qed.

Lemma Qle_bool_false a b : Qle_bool a b = false → (b < a)%Q.
Proof.
  intros Hab. apply Qnot_le_lt. intros Hle%Qle_bool_iff. congruence.
Qed.

Lemma Qmaximum_mono a b c : (a <= b)%Q → (Qmaximum a c <= Qmaximum b c)%Q.
Proof.
  intros Hab. unfold Qmaximum.
  destruct (Qle_bool a c) eqn:Ha, (Qle_bool b c) eqn:Hb;
    rewrite ?Qle_bool_iff in *;
    try apply Qle_bool_false in Ha; try apply Qle_bool_false in Hb; lra.
Qed.

Lemma Qminimum_mono a b c : (a <= b)%Q → (Qminimum a c <= Qminimum b c)%Q.
Proof.
  intros Hab. unfold Qminimum.
  destruct (Qle_bool a c) eqn:Ha, (Qle_bool b c) eqn:Hb;
    rewrite ?Qle_bool_iff in *;
    try apply Qle_bool_false in Ha; try apply Qle_bool_false in Hb; lra.
Qed.

(** Clamping into [0, 255]. *)
Lemma clamp_cases q :
  ((q <= 0)%Q ∧ (Qminimum (Qmaximum q 0) 255 == 0)%Q) ∨
  ((0 <= q)%Q ∧ (q <= 255)%Q ∧ (Qminimum (Qmaximum q 0) 255 == q)%Q) ∨
  ((255 <= q)%Q ∧ (Qminimum (Qmaximum q 0) 255 == 255)%Q).
Proof.
  unfold Qmaximum, Qminimum.
  destruct (Qle_bool q 0) eqn:H0.
  - apply Qle_bool_iff in H0. left. split; [done|].
    change (Qle_bool 0 255) with true. reflexivity.
  - apply Qle_bool_false in H0.
    destruct (Qle_bool q 255) eqn:H255.
    + apply Qle_bool_iff in H255. right. left. repeat split; lra.
    + apply Qle_bool_false in H255. right. right. split; lra.
Qed.

(** An overflow does not show after the saturation: the conversion of a
    rounded value is the clamped, truncated rounding with the exponent
    unbounded. *)
Lemma saturate_cast_round_float32 q :
  saturate_cast_uint8 (round_float32 q)
  = Qfloor (Qminimum (Qmaximum (round_nearest_even 24 (-149) q) 0) 255).
Proof.
  unfold round_float32. cbv zeta.
  set (r := round_nearest_even 24 (-149) q).
  pose proof (Qred_correct r) as Hred.
  assert (255 < 2 ^ 128)%Q as Hbig by reflexivity.
  destruct (Qle_bool (2 ^ 128) (Qabs (Qred r))) eqn:Hover.
  - apply Qle_bool_iff in Hover. rewrite Hred in Hover.
    unfold is_negative. destruct (Qle_bool 0 (Qred r)) eqn:Hsign; simpl.
    + apply Qle_bool_iff in Hsign. rewrite Hred in Hsign.
      rewrite Qabs_pos in Hover by done.
      destruct (clamp_cases r) as [[? _]|[(_ & ? & _)|[_ Hc]]];
        [exfalso; lra..|].
      rewrite (Qfloor_comp _ _ Hc). reflexivity.
    + apply Qle_bool_false in Hsign. rewrite Hred in Hsign.
      destruct (clamp_cases r) as [[_ Hc]|[(? & _ & _)|[? _]]];
        [|exfalso; lra..].
      rewrite (Qfloor_comp _ _ Hc). reflexivity.
  - simpl. apply Qfloor_comp, Qminimum_proper, Qmaximum_proper, Hred.
Qed.

Lemma float_to_uint8_unfold v :
  float_to_uint8 v
  = Qfloor (Qminimum
      (Qmaximum (round_nearest_even 24 (-149) (v * (511 # 2))) 0) 255).
Proof. apply saturate_cast_round_float32. Qed.

Lemma float_to_uint8_le v w :
  (v <= w)%Q → float_to_uint8 v ≤ float_to_uint8 w.
Proof.
  intros Hvw. rewrite !float_to_uint8_unfold.
  apply Qfloor_resp_le, Qminimum_mono, Qmaximum_mono.
  apply round_nearest_even_le; [lia|]. lra.
Qed.

Lemma float_to_uint8_proper a b :
  (a == b)%Q → float_to_uint8 a = float_to_uint8 b.
Proof.
  intros Hab. apply Z.le_antisymm; apply float_to_uint8_le; lra.
Qed.

Lemma float_to_uint8_zero v : (v == 0)%Q → float_to_uint8 v = 0.
Proof.
  intros Hv. rewrite (float_to_uint8_proper v 0 Hv). reflexivity.
Qed.

Lemma saturate_cast_uint8_range v : 0 ≤ saturate_cast_uint8 v ≤ 255.
Proof.
  destruct v as [q|[]|]; simpl; try lia.
  destruct (clamp_cases q) as [[_ Hc]|[(H0 & H255 & Hc)|[_ Hc]]];
    rewrite (Qfloor_comp _ _ Hc); try (by vm_compute).
  split.
  - change 0 with (Qfloor 0). by apply Qfloor_resp_le.
  - change 255 with (Qfloor 255). by apply Qfloor_resp_le.
Qed.

Lemma float32_to_uint8_range v : 0 ≤ float32_to_uint8 v ≤ 255.
Proof. apply saturate_cast_uint8_range. Qed.

Lemma float_to_uint8_range v : 0 ≤ float_to_uint8 v ≤ 255.
Proof. apply float32_to_uint8_range. Qed.

Lemma float32_to_uint8_zero v : is_zero v → float32_to_uint8 v = 0.
Proof.
  destruct v as [q| |]; simpl; [|done..]. apply float_to_uint8_zero.
Qed.

Lemma float_to_uint8_nonpos v : (v <= 0)%Q → float_to_uint8 v = 0.
Proof.
  intros Hv. pose proof (float_to_uint8_le v 0 Hv) as Hle.
  pose proof (float_to_uint8_range v).
  change (float_to_uint8 0) with 0 in Hle. lia.
Qed.

Lemma float_to_uint8_one v : (1 <= v)%Q → float_to_uint8 v = 255.
Proof.
  intros Hv. pose proof (float_to_uint8_le 1 v Hv) as Hle.
  pose proof (float_to_uint8_range v).
  assert (float_to_uint8 1 = 255) as Hone by (vm_compute; reflexivity).
  rewrite Hone in Hle. lia.
Qed.

(** The intensity of a value [v] of [0, 1]: [255.5 v], up to the rounding
    of the product and the truncation. *)
Lemma float_to_uint8_bracket v :
  (0 <= v)%Q → (v <= 1)%Q →
  (v * (511 # 2) * (1 - 2 ^ (-24)) - 1 < inject_Z (float_to_uint8 v))%Q ∧
  (inject_Z (float_to_uint8 v) <= v * (511 # 2) * (1 + 2 ^ (-24)))%Q.
Proof.
  intros H0 H1. rewrite float_to_uint8_unfold.
  set (x := (v * (511 # 2))%Q).
  assert (0 <= x)%Q as Hx0 by (unfold x; lra).
  assert (x <= 511 # 2)%Q as Hx1 by (unfold x; lra).
  set (r := round_nearest_even 24 (-149) x).
  pose proof (Qpow2_pos (-24)) as Heps.
  assert (2 ^ (-24) < 1 # 1000)%Q as Hsmall by reflexivity.
  assert (0 <= r)%Q as Hr0.
  { pose proof (round_nearest_even_le 24 (-149) ltac:(lia) 0 x Hx0) as H.
    rewrite (round_nearest_even_0 _ _ 0) in H by reflexivity. exact H. }
  assert ((x < 1)%Q → (r <= 1)%Q) as Hr1.
  { intros Hlt.
    pose proof (round_nearest_even_le 24 (-149) ltac:(lia) x 1) as H.
    specialize (H ltac:(lra)).
    assert (round_nearest_even 24 (-149) 1 == 1)%Q as Hone by reflexivity.
    fold r in H. lra. }
  assert ((1 <= x)%Q →
          (x * (1 - 2 ^ (-24)) <= r)%Q ∧ (r <= x * (1 + 2 ^ (-24)))%Q) as Hrel.
  { intros Hge. unfold r, round_nearest_even.
    destruct (Qcompare_spec x 0) as [H|H|H]; [exfalso; lra..|].
    apply (round_positive_relative_error 24 (-149) x).
    assert (2 ^ (-149 + (24 - 1)) <= 1)%Q by (by vm_compute). lra. }
  destruct (clamp_cases r) as [[Hr Hc]|[(_ & Hr & Hc)|[Hr Hc]]];
    rewrite (Qfloor_comp _ _ Hc).
  - change (inject_Z (Qfloor 0)) with 0%Q.
    destruct (Qlt_le_dec x 1) as [Hlt|Hge]; [split; nra|].
    destruct (Hrel Hge). exfalso. nra.
  - pose proof (Qfloor_bounds r) as [Hfl Hfh].
    destruct (Qlt_le_dec x 1) as [Hlt|Hge].
    + specialize (Hr1 Hlt).
      assert (0 <= inject_Z (Qfloor r))%Q as Hf0.
      { rewrite <-(Zle_Qle 0). change 0 with (Qfloor 0).
        by apply Qfloor_resp_le. }
      split; [nra|].
      destruct (Qlt_le_dec r 1) as [Hrlt|Hrge].
      * assert (Qfloor r = 0) as ->.
        { apply Z.le_antisymm.
          - apply Z.lt_succ_r. rewrite Zlt_Qlt.
            eapply Qle_lt_trans; [apply Qfloor_le|]. exact Hrlt.
          - change 0 with (Qfloor 0). by apply Qfloor_resp_le. }
        change (inject_Z 0) with 0%Q. nra.
      * assert (r == 1)%Q as Hr_one by lra.
        rewrite (Qfloor_comp _ _ Hr_one).
        change (inject_Z (Qfloor 1)) with 1%Q.
        assert (1 - 2 ^ (-24) <= x)%Q as Hclose.
        { apply Qnot_lt_le. intros Hfar.
          pose proof (round_nearest_even_le 24 (-149) ltac:(lia) x
                        (1 - 2 ^ (-24))) as H.
          specialize (H ltac:(lra)). fold r in H.
          assert (round_nearest_even 24 (-149) (1 - 2 ^ (-24))
                  == 1 - 2 ^ (-24))%Q as Hrep by reflexivity.
          lra. }
        assert (1 # 2 <= x)%Q as Hhalf by lra.
        assert (floor_log2 x = -1) as Hfl1.
        { apply floor_log2_unique; [exact Hhalf|exact Hlt]. }
        pose proof (round_positive_error 24 (-149) x) as [_ Herr].
        unfold ulp_exponent in Herr. rewrite Hfl1 in Herr.
        change (Z.max (-1 - (24 - 1)) (-149)) with (-24) in Herr.
        assert (r = round_positive 24 (-149) x) as Hr_pos.
        { unfold r, round_nearest_even.
          by destruct (Qcompare_spec x 0) as [H|H|H]; [exfalso; lra..|]. }
        rewrite <-Hr_pos in Herr.
        assert (x * 2 ^ (-24) >= (1 # 2) * 2 ^ (-24))%Q as Hprod
          by (apply Qmult_le_compat_r; lra).
        lra.
    + destruct (Hrel Hge) as [Hl Hh]. split; lra.
  - change (inject_Z (Qfloor 255)) with 255%Q.
    destruct (Hrel ltac:(lra)) as [Hl Hh]. split; nra.
Qed.
(** ** Nested lists *)

Lemma mapM_ext_Some {A B} (f : A → option B) (g : A → B) l :
  Forall (λ x, f x = Some (g x)) l → mapM f l = Some (g <$> l).
Proof.
  intros Hl. apply mapM_Some. induction Hl; constructor; auto.
Qed.

Lemma zip_with_fmap_diag {A B C} (f : A → B → C) (g : A → B) l :
  zip_with f l (g <$> l) = (λ x, f x (g x)) <$> l.
Proof. induction l; simpl; f_equal; auto. Qed.

Lemma zip_with3_fmap_diag {A B C D} (f : B → C → A → D) (g : A → B) (h : A → C) l :
  zip_with3 f (g <$> l) (h <$> l) l = (λ x, f (g x) (h x) x) <$> l.
Proof. induction l; simpl; f_equal; auto. Qed.

Lemma fmap_ext_Forall {A B} (f g : A → B) l :
  Forall (λ x, f x = g x) l → f <$> l = g <$> l.
Proof. intros Hl. induction Hl; simpl; f_equal; auto. Qed.

Lemma map3_ext_Forall {A B} (f g : A → B) t :
  Forall3 (λ x, f x = g x) t → map3 f t = map3 g t.
Proof.
  intros Ht. unfold map3, map2. apply fmap_ext_Forall.
  eapply Forall_impl; [exact Ht|]. intros img Himg. apply fmap_ext_Forall.
  eapply Forall_impl; [exact Himg|]. intros row Hrow.
  by apply fmap_ext_Forall.
Qed.

Lemma mapM3_ext_Some {A B} (f : A → option B) (g : A → B) t :
  Forall3 (λ x, f x = Some (g x)) t →
  mapM (mapM (mapM f)) t = Some (map3 g t).
Proof.
  intros Ht. unfold map3, map2. apply mapM_ext_Some.
  eapply Forall_impl; [exact Ht|]. intros img Himg. apply mapM_ext_Some.
  eapply Forall_impl; [exact Himg|]. intros row Hrow.
  by apply mapM_ext_Some.
Qed.

Lemma map3_map3 {A B C} (f : B → C) (g : A → B) t :
  map3 f (map3 g t) = map3 (λ x, f (g x)) t.
Proof.
  unfold map3, map2. rewrite <-list_fmap_compose. apply list_fmap_ext.
  intros ? img _. unfold compose. rewrite <-list_fmap_compose.
  apply list_fmap_ext. intros ? row _. unfold compose.
  by rewrite <-list_fmap_compose.
Qed.

Lemma Forall3_impl {T} (P Q : T → Prop) t :
  Forall3 P t → (∀ x, P x → Q x) → Forall3 Q t.
Proof.
  intros Ht HPQ. eapply Forall_impl; [exact Ht|]. intros img Himg.
  eapply Forall_impl; [exact Himg|]. intros row Hrow.
  eapply Forall_impl; [exact Hrow|]. done.
Qed.

Lemma has_shape4_pixels {T} B H W C (t : batch T) :
  has_shape4 B H W C t → Forall3 (λ px, length px = C) t.
Proof.
  intros [_ Ht]. eapply Forall_impl; [exact Ht|]. intros img [_ Himg].
  eapply Forall_impl; [exact Himg|]. by intros row [_ Hrow].
Qed.

Lemma has_shape4_map3 {S T} B H W C C' (f : list S → list T) (t : batch S) :
  has_shape4 B H W C t → (∀ px, length px = C → length (f px) = C') →
  has_shape4 B H W C' (map3 f t).
Proof.
  intros [HB Ht] Hf. unfold map3, map2.
  split; [by rewrite length_fmap|].
  apply Forall_fmap. eapply Forall_impl; [exact Ht|].
  intros img [HH Himg]. split; [by rewrite length_fmap|].
  apply Forall_fmap. eapply Forall_impl; [exact Himg|].
  intros row [HW Hrow]. split; [by rewrite length_fmap|].
  apply Forall_fmap. eapply Forall_impl; [exact Hrow|]. done.
Qed.

Lemma at4_map3 {S T} (f : list S → list T) (t : batch S) b h w :
  at4 (map3 f t) b h w = f <$> at4 t b h w.
Proof.
  unfold at4, at3, map3, map2. rewrite list_lookup_fmap.
  destruct (t !! b) as [img|]; simpl; [|done]. rewrite list_lookup_fmap.
  destruct (img !! h) as [row|]; simpl; [|done]. by rewrite list_lookup_fmap.
Qed.

Lemma shape4_map3 {S T} (f : list S → list T) (t : batch S) :
  Forall3 (λ px, length (f px) = length px) t →
  shape4 (map3 f t) = shape4 t.
Proof.
  intros Ht. unfold shape4, map3, map2.
  destruct t as [|img t]; [done|]. simpl.
  apply Forall_cons_1 in Ht as [Himg _]. rewrite !length_fmap.
  destruct img as [|row img]; [done|]. simpl.
  apply Forall_cons_1 in Himg as [Hrow _]. rewrite !length_fmap.
  destruct row as [|px row]; [done|]. simpl.
  apply Forall_cons_1 in Hrow as [Hpx _]. by rewrite Hpx.
Qed.

Lemma map4_map3 {S T} (f : S → T) (t : batch S) :
  map4 f t = map3 (fmap f) t.
Proof. reflexivity. Qed.

(** ** replace_black_with_white_color *)

Lemma whiten_pixel (px : list Z) :
  length px = 3%nat →
  zip_with3 (λ (c : bool) x y, if c then x else y)
    (replicate 3 (forallb id (zip_with Z.eqb px [0; 0; 0])))
    ((λ x, (255 mod 256 * x) mod 256) <$> ((λ _, 1) <$> px)) px = whiten px.
Proof.
  destruct px as [|r [|g [|b [|]]]]; try done. intros _. unfold whiten.
  destruct (decide ([r; g; b] = [0; 0; 0])) as [[= -> -> ->]|Hne]; [done|].
  simpl. destruct (Z.eqb_spec r 0) as [->|]; [|done].
  destruct (Z.eqb_spec g 0) as [->|]; [|done].
  destruct (Z.eqb_spec b 0) as [->|]; [|done]. done.
Qed.

Lemma tf_stack_last3_replicate3 {T} (t : image T) :
  tf_stack_last3 (replicate 3 t) = Some (map3 (replicate 3) t).
Proof.
  simpl. f_equal. unfold map3, map2.
  rewrite !zip_with_fmap_diag. apply list_fmap_ext. intros ? img _.
  rewrite !zip_with_fmap_diag. apply list_fmap_ext. intros ? row _.
  by rewrite !zip_with_fmap_diag.
Qed.

Lemma zip_with3_map3_diag {A B C D} (f : B → C → A → D) (g : A → B)
    (h : A → C) (t : image A) :
  zip_with3 (zip_with3 (zip_with3 f)) (map3 g t) (map3 h t) t
  = map3 (λ x, f (g x) (h x) x) t.
Proof.
  unfold map3, map2. rewrite zip_with3_fmap_diag.
  apply list_fmap_ext. intros ? img _. rewrite zip_with3_fmap_diag.
  apply list_fmap_ext. intros ? row _. by rewrite zip_with3_fmap_diag.
Qed.

Lemma replace_black_with_white_color_whiten B H W (t : batch Z) :
  has_shape4 B H W 3 t →
  replace_black_with_white_color t = Some (map3 whiten t).
Proof.
  intros Hshape. pose proof (has_shape4_pixels _ _ _ _ _ Hshape) as Hpx.
  unfold replace_black_with_white_color, tf_equal4.
  change (uint8_constant [0; 0; 0]) with [0; 0; 0].
  rewrite (mapM3_ext_Some _ (λ px, zip_with Z.eqb px [0; 0; 0])); last first.
  { eapply Forall3_impl; [exact Hpx|]. intros px Hlen.
    unfold broadcast_last. by rewrite Hlen. }
  unfold reduce_all4. cbn [fmap option_fmap option_map mbind option_bind].
  rewrite map3_map3, tf_stack_last3_replicate3.
  cbn [mbind option_bind]. rewrite map3_map3.
  unfold tf_where4, scale4, ones_like4. rewrite !map4_map3, map3_map3.
  rewrite decide_True; last first.
  { rewrite !shape4_map3; [done|..].
    - eapply Forall3_impl; [exact Hpx|]. intros px Hlen.
      by rewrite !length_fmap.
    - eapply Forall3_impl; [exact Hpx|]. intros px Hlen.
      by rewrite length_replicate. }
  f_equal. rewrite zip_with3_map3_diag. apply map3_ext_Forall.
  eapply Forall3_impl; [exact Hpx|]. intros px Hlen.
  by apply whiten_pixel.
Qed.


Lemma whiten_length px : length px = 3%nat → length (whiten px) = 3%nat.
Proof. unfold whiten. by case_decide. Qed.

(** C10: [replace_black_with_white_color] returns an image of the same
    shape in which every pixel that is not exactly (0, 0, 0) is the input
    pixel. *)
Theorem replace_black_with_white_color_frame B H W (t : batch Z) :
  has_shape4 B H W 3 t →
  ∃ out,
    replace_black_with_white_color t = Some out ∧
    has_shape4 B H W 3 out ∧
    ∀ b h w px,
      at4 t b h w = Some px → px ≠ [0; 0; 0] → at4 out b h w = Some px.
Proof.
  intros Hshape. exists (map3 whiten t).
  split; [by eapply replace_black_with_white_color_whiten|].
  split; [eapply has_shape4_map3; eauto using whiten_length|].
  intros b h w px Hpx Hne. rewrite at4_map3, Hpx. simpl.
  unfold whiten. by rewrite decide_False.
Qed.

Lemma replace_black_with_white_color_frame_example :
  ∃ out,
    replace_black_with_white_color [[[[0; 0; 0]; [0; 7; 0]]]] = Some out ∧
    has_shape4 1 1 2 3 out ∧
    ∀ b h w px,
      at4 [[[[0; 0; 0]; [0; 7; 0]]]] b h w = Some px → px ≠ [0; 0; 0] →
      at4 out b h w = Some px.
Proof.
  apply (replace_black_with_white_color_frame 1 1 2 [[[[0; 0; 0]; [0; 7; 0]]]]).
  repeat (split || constructor).
Defined.

(** ** combine_image *)

Lemma length_Forall_zip_with {A B C} (f : A → B → C)
    (P : A → Prop) (Q : B → Prop) (R : C → Prop) n l k :
  length l = n ∧ Forall P l → length k = n ∧ Forall Q k →
  (∀ x y, P x → Q y → R (f x y)) →
  length (zip_with f l k) = n ∧ Forall R (zip_with f l k).
Proof.
  intros [Hl HP] [Hk HQ] Hf. split.
  - rewrite length_zip_with_l_eq; congruence.
  - clear Hl Hk. revert k HQ.
    induction HP as [|x l Hx _ IH]; intros k HQ; [constructor|].
    destruct HQ as [|y k Hy HQ]; constructor; auto.
Qed.

Lemma mapM_zip_Some {A B C} (f : A → B → option C) (g : A → B → C) l k :
  Forall2 (λ x y, f x y = Some (g x y)) l k →
  mapM (λ '(x, y), f x y) (zip l k) = Some (zip_with g l k).
Proof.
  induction 1 as [|x y l k Hxy _ IH]; [done|].
  cbn [zip zip_with mapM]. rewrite Hxy. cbn [mbind option_bind].
  rewrite IH. reflexivity.
Qed.

Lemma broadcast_same {A B C} (f : A → B → option C) (g : A → B → C) l k :
  Forall2 (λ x y, f x y = Some (g x y)) l k →
  broadcast f l k = Some (zip_with g l k).
Proof.
  intros Hlk. unfold broadcast.
  rewrite (Forall2_length _ _ _ Hlk), Nat.eqb_refl.
  by apply mapM_zip_Some.
Qed.

Lemma Forall2_same_length_Forall {A B} (P : A → Prop) (Q : B → Prop)
    (R : A → B → Prop) n l k :
  length l = n ∧ Forall P l → length k = n ∧ Forall Q k →
  (∀ x y, P x → Q y → R x y) → Forall2 R l k.
Proof.
  intros [Hl HP] [Hk HQ] HR. subst n. revert k Hk HQ.
  induction HP as [|x l Hx _ IH]; intros [|y k] Hk HQ;
    try discriminate Hk; [constructor|].
  apply Forall_cons_1 in HQ as [Hy HQ]. constructor; [by apply HR|].
  apply IH; [by injection Hk|done].
Qed.

Lemma add4_same_shape B H W C (a b : batch float32) :
  has_shape4 B H W C a → has_shape4 B H W C b →
  add4 a b = Some (add4_same a b).
Proof.
  intros Ha Hb. unfold add4, add4_same.
  apply broadcast_same.
  eapply Forall2_same_length_Forall; [exact Ha|exact Hb|].
  intros ia ib Hia Hib. apply broadcast_same.
  eapply Forall2_same_length_Forall; [exact Hia|exact Hib|].
  intros ra rb Hra Hrb. cbv beta in *. apply broadcast_same.
  eapply Forall2_same_length_Forall; [exact Hra|exact Hrb|].
  intros pa pb Hpa Hpb. cbv beta in *. apply broadcast_same.
  apply Forall2_true; [done|congruence].
Qed.

Lemma has_shape4_add4_same B H W C (a b : batch float32) :
  has_shape4 B H W C a → has_shape4 B H W C b →
  has_shape4 B H W C (add4_same a b).
Proof.
  intros Ha Hb. unfold add4_same.
  eapply length_Forall_zip_with; [exact Ha|exact Hb|].
  intros ia ib Hia Hib.
  eapply length_Forall_zip_with; [exact Hia|exact Hib|].
  intros ra rb Hra Hrb. cbv beta in *.
  eapply length_Forall_zip_with; [exact Hra|exact Hrb|].
  intros pa pb Hpa Hpb. cbv beta in *.
  rewrite length_zip_with_l_eq; congruence.
Qed.

Lemma has_shape4_foldl_add4_same B H W C (x : batch float32) l :
  has_shape4 B H W C x → Forall (has_shape4 B H W C) l →
  has_shape4 B H W C (foldl add4_same x l).
Proof.
  intros Hx Hl. revert x Hx.
  induction Hl as [|y l Hy _ IH]; intros x Hx; [done|].
  simpl. apply IH. by apply has_shape4_add4_same.
Qed.

(** On images of one shape [reduce] is the left fold of the element-wise
    sum. *)
Lemma reduce_add4 B H W C (x : batch float32) l :
  has_shape4 B H W C x → Forall (has_shape4 B H W C) l →
  reduce (λ a b, add4 a b) (x :: l) = Some (foldl add4_same x l).
Proof.
  intros Hx Hl. cbn [reduce]. revert x Hx.
  induction Hl as [|y l Hy _ IH]; intros x Hx; [done|].
  cbn [foldl mbind option_bind]. rewrite (add4_same_shape B H W C) by done.
  apply IH. by apply has_shape4_add4_same.
Qed.

Lemma at4c_add4_same (a b : batch float32) b0 h w c :
  at4c (add4_same a b) b0 h w c =
  x ← at4c a b0 h w c; y ← at4c b b0 h w c; Some (f32_add x y).
Proof.
  unfold at4c, at4, at3, add4_same.
  repeat first
    [ rewrite lookup_zip_with
    | progress simpl
    | match goal with
      | |- context [?l !! ?i] => is_var l; destruct (l !! i)
      end ];
    done.
Qed.

Lemma at4c_foldl_add4_same (x : batch float32) l b h w c :
  at4c (foldl add4_same x l) b h w c = sum_at (x :: l) b h w c.
Proof.
  unfold sum_at. revert x. induction l as [|y l IH]; intros x.
  - simpl. by destruct (at4c x b h w c).
  - simpl foldl. rewrite IH. simpl. rewrite at4c_add4_same.
    destruct (at4c x b h w c) as [vx|]; simpl; [|done].
    destruct (at4c y b h w c) as [vy|]; simpl; [|done].
    by destruct (mapM _ l).
Qed.

Lemma Forall_zip_with_both {A B C} (f : A → B → C)
    (P : A → Prop) (Q : B → Prop) (R : C → Prop) l k :
  Forall P l → Forall Q k → (∀ x y, P x → Q y → R (f x y)) →
  Forall R (zip_with f l k).
Proof.
  intros HP HQ Hf. revert k HQ.
  induction HP as [|x l Hx _ IH]; intros k HQ; [constructor|].
  destruct HQ as [|y k Hy HQ]; constructor; auto.
Qed.

Lemma round_float32_zero q : (q == 0)%Q → round_float32 q = Finite 0.
Proof.
  intros Hq. unfold round_float32.
  by rewrite (round_nearest_even_0 _ _ q Hq).
Qed.

Lemma is_zero_f32_add x y : is_zero x → is_zero y → is_zero (f32_add x y).
Proof.
  destruct x as [p| |], y as [q| |]; simpl; try done. intros Hp Hq.
  rewrite round_float32_zero; [reflexivity|]. lra.
Qed.

Lemma all_zero_add4_same a b :
  all_zero a → all_zero b → all_zero (add4_same a b).
Proof.
  intros Ha Hb. unfold all_zero, Forall3, add4_same in *.
  eapply Forall_zip_with_both; [exact Ha|exact Hb|]. intros ia ib Hia Hib.
  eapply Forall_zip_with_both; [exact Hia|exact Hib|]. intros ra rb Hra Hrb.
  eapply Forall_zip_with_both; [exact Hra|exact Hrb|]. intros pa pb Hpa Hpb.
  eapply Forall_zip_with_both; [exact Hpa|exact Hpb|]. intros x y Hx Hy.
  by apply is_zero_f32_add.
Qed.

Lemma all_zero_foldl_add4_same x l :
  all_zero x → Forall all_zero l → all_zero (foldl add4_same x l).
Proof.
  intros Hx Hl. revert x Hx.
  induction Hl as [|y l Hy _ IH]; intros x Hx; [done|].
  simpl. apply IH. by apply all_zero_add4_same.
Qed.

Lemma fmap_constant {A B} (f : A → B) c n l :
  length l = n → Forall (λ x, f x = c) l → f <$> l = replicate n c.
Proof.
  intros <- Hl. induction Hl as [|x l Hx _ IH]; [done|].
  simpl. rewrite Hx. f_equal. exact IH.
Qed.

Lemma map4_constant {A B} (f : A → B) c B0 H W C (t : batch A) :
  has_shape4 B0 H W C t → Forall3 (Forall (λ v, f v = c)) t →
  map4 f t = constant4 B0 H W C c.
Proof.
  intros [HB Ht] Hc. unfold map4, map3, map2, constant4.
  apply fmap_constant; [done|].
  apply Forall_lookup. intros i img Hi.
  pose proof (Forall_lookup_1 _ _ _ _ Ht Hi) as [HH Himg].
  pose proof (Forall_lookup_1 _ _ _ _ Hc Hi) as Hcimg.
  apply fmap_constant; [done|].
  apply Forall_lookup. intros j row Hj.
  pose proof (Forall_lookup_1 _ _ _ _ Himg Hj) as [HW Hrow].
  pose proof (Forall_lookup_1 _ _ _ _ Hcimg Hj) as Hcrow.
  apply fmap_constant; [done|].
  apply Forall_lookup. intros k px Hk.
  pose proof (Forall_lookup_1 _ _ _ _ Hrow Hk) as HC.
  pose proof (Forall_lookup_1 _ _ _ _ Hcrow Hk) as Hcpx.
  by apply fmap_constant.
Qed.

Lemma has_shape4_constant4 {T} B H W C (v : T) :
  has_shape4 B H W C (constant4 B H W C v).
Proof.
  unfold constant4. split; [apply length_replicate|].
  apply Forall_replicate. split; [apply length_replicate|].
  apply Forall_replicate. split; [apply length_replicate|].
  apply Forall_replicate. apply length_replicate.
Qed.

Lemma map3_constant4 {S T} (f : list S → list T) B H W C (v : S) :
  map3 f (constant4 B H W C v) = replicate B (replicate H (replicate W (f (replicate C v)))).
Proof. unfold map3, map2, constant4. by rewrite !fmap_replicate. Qed.

(** C5: on a non-empty list of weighted images of one shape,
    [combine_image] adds the images element by element (the [float32] sum
    in list order, not a maximum) and converts each sum to an integer
    intensity in 0..255: 0 for a sum of 0.0 or less, 255 for a sum of 1.0
    or more, and [255.5 s] for a sum [s] in between, up to the rounding of
    the product and the truncation.  With [replace_black_with_white = True]
    exactly the pixels that came out (0, 0, 0) are (255, 255, 255).  When
    every weight is zero the result is all black without the flag and all
    white with it. *)
Theorem combine_image_additive B H W (batch_images : list (batch float32)) :
  batch_images ≠ [] → Forall (has_shape4 B H W 3) batch_images →
  ∃ plain white_background,
    combine_image batch_images false = Some plain ∧
    combine_image batch_images true = Some white_background ∧
    has_shape4 B H W 3 plain ∧
    has_shape4 B H W 3 white_background ∧
    (∀ b h w c,
       at4c plain b h w c
       = float32_to_uint8 <$> sum_at batch_images b h w c) ∧
    (∀ b h w c v, at4c plain b h w c = Some v → 0 ≤ v ≤ 255) ∧
    (∀ b h w c s v,
       sum_at batch_images b h w c = Some (Finite s) →
       at4c plain b h w c = Some v →
       ((s <= 0)%Q → v = 0) ∧ ((1 <= s)%Q → v = 255) ∧
       ((0 <= s)%Q → (s <= 1)%Q →
        (s * (511 # 2) * (1 - 2 ^ (-24)) - 1 < inject_Z v)%Q ∧
        (inject_Z v <= s * (511 # 2) * (1 + 2 ^ (-24)))%Q)) ∧
    (∀ b h w,
       at4 white_background b h w = whiten <$> at4 plain b h w) ∧
    (Forall all_zero batch_images →
       plain = constant4 B H W 3 0 ∧
       white_background = constant4 B H W 3 255).
Proof.
  intros Hne Hshapes. destruct batch_images as [|x l]; [done|]. clear Hne.
  apply Forall_cons_1 in Hshapes as [Hx Hl].
  pose proof (has_shape4_foldl_add4_same _ _ _ _ _ _ Hx Hl) as Hsum.
  set (summed := foldl add4_same x l) in *.
  assert (has_shape4 B H W 3 (map4 float32_to_uint8 summed)) as Hplain.
  { rewrite map4_map3. eapply has_shape4_map3; [exact Hsum|].
    intros px Hpx. by rewrite length_fmap. }
  exists (map4 float32_to_uint8 summed),
         (map3 whiten (map4 float32_to_uint8 summed)).
  unfold combine_image. rewrite (reduce_add4 B H W 3) by done.
  cbn [mbind option_bind convert_image]. fold summed.
  split; [done|].
  split; [by apply (replace_black_with_white_color_whiten B H W)|].
  split; [done|].
  split; [eapply has_shape4_map3; eauto using whiten_length|].
  assert (∀ b h w c,
    at4c (map4 float32_to_uint8 summed) b h w c
    = float32_to_uint8 <$> sum_at (x :: l) b h w c) as Hsums.
  { intros b h w c. rewrite <-at4c_foldl_add4_same. fold summed.
    unfold at4c. rewrite map4_map3, at4_map3.
    destruct (at4 summed b h w) as [px|]; simpl; [|done].
    apply list_lookup_fmap. }
  split; [exact Hsums|]. split; [|split; [|split]].
  - intros b h w c v. rewrite Hsums.
    destruct (sum_at (x :: l) b h w c) as [s|]; [|done].
    intros [= <-]. apply float32_to_uint8_range.
  - intros b h w c s v Hs. rewrite Hsums, Hs. intros [= <-].
    change (float32_to_uint8 (Finite s)) with (float_to_uint8 s).
    split; [apply float_to_uint8_nonpos|].
    split; [apply float_to_uint8_one|apply float_to_uint8_bracket].
  - intros b h w. apply at4_map3.
  - intros Hzero. apply Forall_cons_1 in Hzero as [Hzx Hzl].
    pose proof (all_zero_foldl_add4_same _ _ Hzx Hzl) as Hz. fold summed in Hz.
    assert (map4 float32_to_uint8 summed = constant4 B H W 3 0) as ->.
    { apply map4_constant; [done|].
      eapply Forall3_impl; [exact Hz|]. intros px Hpx.
      eapply Forall_impl; [exact Hpx|]. apply float32_to_uint8_zero. }
    split; [done|]. by rewrite map3_constant4.
Qed.

Lemma combine_image_additive_example :
  ∃ plain white_background,
    combine_image overlapping_images false = Some plain ∧
    combine_image overlapping_images true = Some white_background ∧
    at4 plain 0 0 0 = Some [0; 0; 0] ∧
    at4c plain 0 0 1 0 = Some 191 ∧
    at4c plain 0 0 1 1 = Some 255 ∧
    at4c plain 0 0 2 0 = Some 255 ∧
    at4 white_background 0 0 0 = Some [255; 255; 255].
Proof.
  destruct (combine_image_additive 1 1 3 overlapping_images)
    as (plain & white_background & Hplain & Hwhite & Hshape & _ & Hsum & _
        & _ & Hwhiten & _);
    [discriminate | repeat (split || constructor) |].
  exists plain, white_background.
  split; [exact Hplain|]. split; [exact Hwhite|].
  assert (at4 plain 0 0 0 = Some [0; 0; 0]) as Hblack.
  { pose proof (Hsum 0 0 0 0)%nat as H0. pose proof (Hsum 0 0 0 1)%nat as H1.
    pose proof (Hsum 0 0 0 2)%nat as H2. pose proof (Hsum 0 0 0 3)%nat as H3.
    change (float32_to_uint8 <$> sum_at overlapping_images 0 0 0 0)
      with (Some 0) in H0.
    change (float32_to_uint8 <$> sum_at overlapping_images 0 0 0 1)
      with (Some 0) in H1.
    change (float32_to_uint8 <$> sum_at overlapping_images 0 0 0 2)
      with (Some 0) in H2.
    change (float32_to_uint8 <$> sum_at overlapping_images 0 0 0 3)
      with (@None Z) in H3.
    unfold at4c in *.
    destruct (at4 plain 0 0 0) as [[|r [|g [|b [|? ?]]]]|];
      try discriminate.
    by injection H0 as ->; injection H1 as ->; injection H2 as ->. }
  split; [exact Hblack|].
  rewrite !Hsum, Hwhiten, Hblack. repeat split.
Defined.
(** ** colors_to_dimensions *)

Lemma has_shape3_pixels {T} H W C (t : image T) :
  has_shape3 H W C t → Forall (Forall (λ px, length px = C)) t.
Proof.
  intros [_ Ht]. eapply Forall_impl; [exact Ht|]. by intros row [_ Hrow].
Qed.

Lemma has_shape3_map2 {S T} H W C C' (f : list S → list T) (t : image S) :
  has_shape3 H W C t → (∀ px, length px = C → length (f px) = C') →
  has_shape3 H W C' (map2 f t).
Proof.
  intros [HH Ht] Hf. unfold map2. split; [by rewrite length_fmap|].
  apply Forall_fmap. eapply Forall_impl; [exact Ht|].
  intros row [HW Hrow]. split; [by rewrite length_fmap|].
  apply Forall_fmap. eapply Forall_impl; [exact Hrow|]. done.
Qed.

Lemma has_shape2_map2 {S T} H W C (f : list S → T) (t : image S) :
  has_shape3 H W C t → has_shape2 H W (map2 f t).
Proof.
  intros [HH Ht]. unfold map2. split; [by rewrite length_fmap|].
  apply Forall_fmap. eapply Forall_impl; [exact Ht|].
  intros row [HW _]. cbv [compose]. by rewrite length_fmap.
Qed.

Lemma at3_map2 {S T} (f : S → T) (t : list (list S)) h w :
  (row ← map2 f t !! h; row !! w) = f <$> (row ← t !! h; row !! w).
Proof.
  unfold map2. rewrite list_lookup_fmap.
  destruct (t !! h) as [row|]; simpl; [|done]. by rewrite list_lookup_fmap.
Qed.

Lemma map2_ext_Forall {A B} (f g : A → B) t :
  Forall (Forall (λ x, f x = g x)) t → map2 f t = map2 g t.
Proof.
  intros Ht. unfold map2. apply fmap_ext_Forall.
  eapply Forall_impl; [exact Ht|]. intros row Hrow.
  by apply fmap_ext_Forall.
Qed.

Lemma map2_map2 {A B C} (f : B → C) (g : A → B) t :
  map2 f (map2 g t) = map2 (λ x, f (g x)) t.
Proof.
  unfold map2. rewrite <-list_fmap_compose. apply list_fmap_ext.
  intros ? row _. unfold compose. by rewrite <-list_fmap_compose.
Qed.

Lemma mapM2_ext_Some {A B} (f : A → option B) (g : A → B) t :
  Forall (Forall (λ x, f x = Some (g x))) t →
  mapM (mapM f) t = Some (map2 g t).
Proof.
  intros Ht. unfold map2. apply mapM_ext_Some.
  eapply Forall_impl; [exact Ht|]. intros row Hrow.
  by apply mapM_ext_Some.
Qed.

Lemma forallb_eqb (px color : list Z) :
  length px = length color →
  forallb id (zip_with Z.eqb px color) = bool_decide (px = color).
Proof.
  revert color. induction px as [|x px IH]; intros [|y color] Hlen;
    try done.
  simpl in *. rewrite IH by lia.
  destruct (Z.eqb_spec x y) as [->|Hne]; simpl.
  - apply bool_decide_ext. split; [by intros ->|by intros [= ->]].
  - symmetry. apply bool_decide_eq_false. by intros [= ? ?].
Qed.

Lemma zip_with3_replicate {A B C D} (f : A → B → C → D) (l : list A) x y :
  zip_with3 f l (replicate (length l) x) (replicate (length l) y)
  = (λ a, f a x y) <$> l.
Proof. induction l; simpl; f_equal; auto. Qed.

Lemma tf_where2_fill {T} H W (c : list (list bool)) (x y : T) :
  has_shape2 H W c →
  tf_where2 c (tf_fill2 (shape2 c) x) (tf_fill2 (shape2 c) y)
  = map2 (λ b : bool, if b then x else y) c.
Proof.
  intros [_ Hc]. unfold tf_where2, tf_fill2, shape2, map2. simpl.
  rewrite zip_with3_replicate. apply fmap_ext_Forall.
  destruct Hc as [|row0 c Hrow0 Hc]; [constructor|]. simpl. rewrite Hrow0.
  assert (Forall (λ row, length row = W) (row0 :: c)) as Hall
    by by constructor.
  eapply Forall_impl; [exact Hall|]. intros row <-.
  apply zip_with3_replicate.
Qed.

Lemma tf_stack_last2_cons2 {T} (x y : list (list T)) l :
  tf_stack_last2 (x :: y :: l)
  = zip_with (zip_with cons) x <$> tf_stack_last2 (y :: l).
Proof. reflexivity. Qed.

Lemma tf_stack_last2_fmap_cons {S T C} (g : C → S → T) (t : list (list S))
    c (colors : list C) :
  tf_stack_last2 ((λ c, map2 (g c) t) <$> c :: colors)
  = Some (map2 (λ px, (λ c, g c px) <$> c :: colors) t).
Proof.
  revert c. induction colors as [|c' colors IH]; intros c.
  - cbn [fmap list_fmap tf_stack_last2]. by rewrite map2_map2.
  - specialize (IH c'). cbn [fmap list_fmap] in *.
    rewrite tf_stack_last2_cons2, IH.
    cbn [fmap option_fmap option_map]. f_equal.
    unfold map2. rewrite zip_with_fmap_r, zip_with_fmap_l, zip_with_diag.
    apply list_fmap_ext. intros ? row _.
    by rewrite zip_with_fmap_r, zip_with_fmap_l, zip_with_diag.
Qed.

Lemma tf_stack_last2_fmap {S T C} (g : C → S → T) (t : list (list S))
    (colors : list C) :
  colors ≠ [] →
  tf_stack_last2 ((λ c, map2 (g c) t) <$> colors)
  = Some (map2 (λ px, (λ c, g c px) <$> colors) t).
Proof. destruct colors; [done|]. intros _. apply tf_stack_last2_fmap_cons. Qed.

Lemma uint8_constant_rgb color : is_rgb color → uint8_constant color = color.
Proof.
  intros [_ Hrange]. unfold uint8_constant.
  rewrite <-(list_fmap_id color) at 2. apply fmap_ext_Forall.
  eapply Forall_impl; [exact Hrange|]. intros x Hx. cbv beta in *.
  unfold id. apply Z.mod_small. lia.
Qed.

Lemma colors_to_dimensions_one_hot H W (image_tensor : image Z) colors :
  has_shape3 H W 3 image_tensor → colors ≠ [] → Forall is_rgb colors →
  colors_to_dimensions image_tensor colors
  = Some (map2 (one_hot colors) image_tensor).
Proof.
  intros Hshape Hne Hrgb. unfold colors_to_dimensions.
  rewrite (mapM_ext_Some _
    (λ color, map2 (λ px, if bool_decide (px = color)
                          then Finite 1 else Finite 0)
                   image_tensor)).
  - simpl. by apply tf_stack_last2_fmap.
  - eapply Forall_impl; [exact Hrgb|]. intros color Hcolor.
    pose proof Hcolor as [Hlen _].
    pose proof (has_shape3_pixels _ _ _ _ Hshape) as Hpx.
    unfold tf_equal3. rewrite (uint8_constant_rgb color Hcolor).
    rewrite (mapM2_ext_Some _ (λ px, zip_with Z.eqb px color)); last first.
    { eapply Forall_impl; [exact Hpx|]. intros row Hrow.
      eapply Forall_impl; [exact Hrow|]. intros px Hpxlen.
      unfold broadcast_last. by rewrite Hpxlen, Hlen. }
    simpl. f_equal. unfold reduce_all3. rewrite map2_map2.
    rewrite (tf_where2_fill H W); [|by eapply has_shape2_map2].
    rewrite map2_map2. apply map2_ext_Forall.
    eapply Forall_impl; [exact Hpx|]. intros row Hrow.
    eapply Forall_impl; [exact Hrow|]. intros px Hpxlen.
    cbv beta. rewrite forallb_eqb; [done|congruence].
Qed.

(** C2, as stated, fails for the empty colour sequence: there is no output
    of shape (H, W, 0), the stacking of no tensors is an error. *)
Lemma colors_to_dimensions_no_colors :
  ¬ (∃ out, colors_to_dimensions [[[0; 0; 0]]] [] = Some out ∧
            has_shape3 1 1 0 out).
Proof. intros (out & Hout & _). discriminate Hout. Qed.

(** C2 (amended): for an image of shape (H, W, 3) and a non-empty sequence
    of RGB triples, [colors_to_dimensions] has shape (H, W, len(colors));
    channel [c] of a pixel is 1.0 when the pixel equals [colors[c]] and 0.0
    otherwise; a pixel matching no colour is 0.0 in every channel. *)
Theorem colors_to_dimensions_masks H W (image_tensor : image Z)
    (colors : list (list Z)) :
  has_shape3 H W 3 image_tensor → colors ≠ [] → Forall is_rgb colors →
  ∃ out,
    colors_to_dimensions image_tensor colors = Some out ∧
    has_shape3 H W (length colors) out ∧
    (∀ h w c px color,
       at3 image_tensor h w = Some px → colors !! c = Some color →
       at3 out h w ≫= (.!! c)
       = Some (if decide (px = color) then Finite 1 else Finite 0)) ∧
    (∀ h w px,
       at3 image_tensor h w = Some px → px ∉ colors →
       at3 out h w = Some (replicate (length colors) (Finite 0))).
Proof.
  intros Hshape Hne Hrgb. exists (map2 (one_hot colors) image_tensor).
  split; [by eapply colors_to_dimensions_one_hot|].
  split; [eapply has_shape3_map2; [exact Hshape|]|split].
  - intros px _. unfold one_hot. by rewrite length_fmap.
  - intros h w c px color Hpx Hcolor. unfold at3 in *.
    rewrite at3_map2, Hpx. simpl. unfold one_hot.
    rewrite list_lookup_fmap, Hcolor. simpl. f_equal.
    unfold bool_decide. by destruct (decide_rel _ _ _); case_decide.
  - intros h w px Hpx Hnotin. unfold at3 in *.
    rewrite at3_map2, Hpx. simpl. f_equal. unfold one_hot.
    apply fmap_constant; [done|]. apply Forall_forall.
    intros color Hin. rewrite bool_decide_eq_false_2; [done|].
    by intros ->.
Qed.

Lemma colors_to_dimensions_masks_example :
  ∃ out,
    colors_to_dimensions [[[255; 0; 0]; [1; 2; 3]]] [[255; 0; 0]; [0; 255; 0]]
      = Some out ∧
    has_shape3 1 2 2 out ∧
    at3 out 0 0 = Some [Finite 1; Finite 0] ∧
    at3 out 0 1 = Some [Finite 0; Finite 0].
Proof.
  destruct (colors_to_dimensions_masks 1 2
    [[[255; 0; 0]; [1; 2; 3]]] [[255; 0; 0]; [0; 255; 0]])
    as (out & Hout & Hshape & _);
    [ repeat (split || constructor) | discriminate
    | repeat (split || constructor); lia | ].
  exists out. split; [exact Hout|]. split; [exact Hshape|].
  injection Hout as <-. split; reflexivity.
Defined.

(** ** Summary images *)

Lemma string_app_cons c (s t : string) : String c s ++ t = String c (s ++ t).
Proof. reflexivity. Qed.

Lemma string_app_nil (s : string) : EmptyString ++ s = s.
Proof. reflexivity. Qed.

Lemma pretty_N_go_digits x s : digits s → digits (pretty_N_go x s).
Proof.
  revert s. induction (N.lt_wf_0 x) as [x _ IH]. intros s Hs.
  assert (x = 0 ∨ 0 < x)%N as [->|Hpos] by lia.
  - by rewrite pretty_N_go_0.
  - rewrite pretty_N_go_step by done. apply IH.
    { by apply N.div_lt. }
    split; [|done]. unfold pretty_N_char.
    repeat case_match; vm_compute; split; lia.
Qed.

Lemma pretty_nat_digits (i : nat) : digits (pretty i).
Proof.
  unfold pretty, pretty_nat, pretty, pretty_N.
  destruct (decide _); [split; [vm_compute; split; lia|done]|].
  by apply pretty_N_go_digits.
Qed.








Lemma foldl_None {A B} (f : option A → B → option A) l :
  (∀ b, f None b = None) → foldl f None l = None.
Proof. intros Hf. induction l as [|b l IH]; [done|]. simpl. by rewrite Hf. Qed.

Lemma add_dimension_images_inv prefix tensors batch_images labels out :
  add_dimension_images prefix tensors batch_images labels = Some out →
  out = with_dimensions prefix tensors batch_images labels.
Proof.
  unfold add_dimension_images, with_dimensions.
  generalize (enumerate (zip batch_images labels)). intros l. revert tensors.
  induction l as [|[i [image label]] l IH]; intros tensors; [by intros [= <-]|].
  cbn [foldl mbind option_bind]. unfold add_simple_summary_image, name_scope.
  destruct (valid_scope_name _); cbn [mbind option_bind]; [apply IH|].
  rewrite foldl_None; [done|]. by intros [? [? ?]].
Qed.

Lemma with_dimensions_frame prefix tensors batch_images labels :
  let out := with_dimensions prefix tensors batch_images labels in
  pred out = pred tensors ∧
  separate_channel_annotation_tensor out
    = separate_channel_annotation_tensor tensors ∧
  summaries out = summaries tensors ∧
  ∀ name, (∀ i l, name ≠ prefix ++ label_suffix i l) →
          image_tensors out !! name = image_tensors tensors !! name.
Proof.
  unfold with_dimensions.
  generalize (enumerate (zip batch_images labels)). intros l. revert tensors.
  induction l as [|[i [img label]] l IH]; intros tensors; [done|].
  cbn [foldl]. destruct (IH (add_summary_image tensors
    (prefix ++ label_suffix i label) (convert_image (Float32 img))))
    as (-> & -> & -> & Hnames).
  repeat split; try done.
  intros name Hname. rewrite (Hnames name Hname). simpl.
  apply lookup_insert_ne. intros Heq. exact (Hname _ _ (eq_sym Heq)).
Qed.

Lemma Forall3_map3 {S T} (P : T → Prop) (f : S → T) (t : image S) :
  Forall3 (λ x, P (f x)) t → Forall3 P (map3 f t).
Proof.
  intros Ht. unfold Forall3, map3, map2.
  apply Forall_fmap. eapply Forall_impl; [exact Ht|]. intros img Himg.
  apply Forall_fmap. eapply Forall_impl; [exact Himg|]. intros row Hrow.
  by apply Forall_fmap.
Qed.

Lemma Forall3_True {T} (t : image T) : Forall3 (λ _, True) t.
Proof.
  apply Forall_forall. intros img _. apply Forall_forall. intros row _.
  by apply Forall_forall.
Qed.

Lemma mapM_imap_Some {A B C} (f : C → option B) (h : nat → A → C)
    (g : nat → A → B) (l : list A) :
  (∀ i x, l !! i = Some x → f (h i x) = Some (g i x)) →
  mapM f (imap h l) = Some (imap g l).
Proof.
  revert h g. induction l as [|x l IH]; intros h g Hfg; [done|].
  cbn [imap mapM]. rewrite (Hfg 0%nat x eq_refl).
  cbn [mbind option_bind]. rewrite (IH (h ∘ S) (g ∘ S)); [done|].
  intros i y Hy. apply (Hfg (S i) y Hy).
Qed.

Lemma div_255_uint8 x :
  0 ≤ x ≤ 255 → div_255 x = Return (round_float64 (inject_Z x / 255)).
Proof.
  intros Hx. unfold div_255, int_to_float. cbv zeta.
  assert ((Z.abs x <? 2 ^ 53) = true) as ->; [|reflexivity].
  apply Z.ltb_lt. rewrite Z.abs_eq by lia.
  apply (Z.le_lt_trans _ 255); [lia|reflexivity].
Qed.

Lemma color_weights_rgb color :
  is_rgb color → color_weights color = Some (component_weight <$> color).
Proof.
  intros [_ Hrange]. unfold color_weights. apply mapM_ext_Some.
  eapply Forall_impl; [exact Hrange|]. intros x Hx. cbv beta in *.
  by rewrite div_255_uint8.
Qed.

Lemma batch_dimensions_to_colors_list_weighted B H W C (t : batch float32)
    colors :
  Forall is_rgb colors → has_shape4 B H W C t → (length colors ≤ C)%nat →
  batch_dimensions_to_colors_list t colors
  = Some (imap (λ i color,
            map3 (λ px, f32_mul (default (Finite 0) (px !! i))
                          <$> (component_weight <$> color)) t)
          colors).
Proof.
  intros Hrgb Hshape Hle. pose proof (has_shape4_pixels _ _ _ _ _ Hshape) as Hpx.
  unfold batch_dimensions_to_colors_list, enumerate. apply mapM_imap_Some.
  intros i color Hcolor.
  pose proof (Forall_lookup_1 _ _ _ _ Hrgb Hcolor) as Hcolor_rgb.
  pose proof Hcolor_rgb as [Hlen _].
  apply lookup_lt_Some in Hcolor.
  unfold slice_channel.
  rewrite (mapM3_ext_Some _ (λ px, default (Finite 0) (px !! i))); last first.
  { eapply Forall3_impl; [exact Hpx|]. intros px Hpxlen.
    cbv beta in Hpxlen.
    destruct (lookup_lt_is_Some_2 px i) as [v ->]; [lia|done]. }
  cbn [mbind option_bind]. rewrite (color_weights_rgb color Hcolor_rgb).
  cbn [mbind option_bind]. unfold mul_last, expand_dims_last.
  rewrite (mapM3_ext_Some _
    (λ px, f32_mul (default (Finite 0) (head px))
             <$> (component_weight <$> color))); last first.
  { apply Forall3_map3.
    eapply Forall3_impl; [apply Forall3_True|]. intros px _.
    unfold broadcast_last. by rewrite !length_fmap, Hlen. }
  by rewrite !map3_map3.
Qed.


Lemma combine_image_plain batch_images :
  combine_image batch_images false
  = (λ summed, convert_image (Float32 summed))
      <$> reduce (λ a b, add4 a b) batch_images.
Proof. unfold combine_image. by destruct (reduce _ _). Qed.

Lemma combine_image_is_Some B H W C images :
  images ≠ [] → Forall (has_shape4 B H W C) images →
  is_Some (combine_image images false).
Proof.
  intros Hne Hshapes. destruct images as [|x l]; [done|].
  apply Forall_cons_1 in Hshapes as [Hx Hl].
  rewrite combine_image_plain, (reduce_add4 B H W C) by done. by eexists.
Qed.

(** [input], [target] and [output] are valid scope names: the three
    unconditional registrations always go through. *)
Lemma add_model_summary_images_unfold tensors colors labels :
  add_model_summary_images tensors colors labels
  = match colors with
    | Some ((_ :: _) as dimension_colors) =>
        targets ← batch_dimensions_to_colors_list
                    (separate_channel_annotation_tensor tensors)
                    dimension_colors;
        dimension_labels ← labels;
        t2 ← add_dimension_images "targets" (with_input_target tensors)
               targets dimension_labels;
        targets_combined ← combine_image targets false;
        let t3 := add_summary_image t2 "targets_combined" targets_combined in
        outputs ← batch_dimensions_to_colors_list (pred t3) dimension_colors;
        t4 ← add_dimension_images "outputs" t3 outputs dimension_labels;
        outputs_combined ← combine_image outputs false;
        Some (add_summary_image
                (set_summaries t4
                   (<["output_image" := outputs_combined]> (summaries t4)))
                "outputs_combined" outputs_combined)
    | Some [] | None => Some (with_output tensors)
    end.
Proof.
  assert (∀ t name x, valid_scope_name name = true →
            add_simple_summary_image t name x
            = Some (add_summary_image t name (convert_image x))) as Hvalid.
  { intros t name x Hname. unfold add_simple_summary_image, name_scope.
    by rewrite Hname. }
  unfold add_model_summary_images. cbv zeta.
  rewrite (Hvalid _ "input") by reflexivity. cbn [mbind option_bind].
  rewrite (Hvalid _ "target") by reflexivity. cbn [mbind option_bind].
  destruct colors as [[|? ?]|]; [|reflexivity|].
  - rewrite (Hvalid _ "output") by reflexivity. cbn [mbind option_bind].
    cbn [image_tensors add_summary_image]. rewrite lookup_insert_eq.
    reflexivity.
  - rewrite (Hvalid _ "output") by reflexivity. cbn [mbind option_bind].
    cbn [image_tensors add_summary_image]. rewrite lookup_insert_eq.
    reflexivity.
Qed.

(** The two branches of [add_model_summary_images], once it returns. *)
Lemma add_model_summary_images_inv tensors colors labels out :
  add_model_summary_images tensors colors labels = Some out →
  (∃ color colors' labels' targets outputs targets_sum outputs_sum,
     colors = Some (color :: colors') ∧ labels = Some labels' ∧
     batch_dimensions_to_colors_list
       (separate_channel_annotation_tensor tensors) (color :: colors')
       = Some targets ∧
     batch_dimensions_to_colors_list (pred tensors) (color :: colors')
       = Some outputs ∧
     reduce (λ a b, add4 a b) targets = Some targets_sum ∧
     reduce (λ a b, add4 a b) outputs = Some outputs_sum ∧
     out = with_dimension_images tensors labels' targets outputs
             targets_sum outputs_sum) ∨
  ((colors = None ∨ colors = Some []) ∧ out = with_output tensors).
Proof.
  rewrite add_model_summary_images_unfold.
  destruct colors as [[|color colors']|].
  - intros [= <-]. right. split; [by right|]. reflexivity.
  - destruct (batch_dimensions_to_colors_list
                (separate_channel_annotation_tensor tensors)
                (color :: colors'))
      as [targets|] eqn:Htargets; [|done].
    cbn [mbind option_bind].
    destruct labels as [labels'|]; [|done]. cbn [mbind option_bind].
    destruct (add_dimension_images "targets" _ targets labels')
      as [t2|] eqn:Ht2; [|done].
    apply add_dimension_images_inv in Ht2 as ->.
    cbn [mbind option_bind]. rewrite combine_image_plain.
    destruct (reduce _ targets) as [targets_sum|] eqn:Htsum; [|done].
    cbn [fmap option_fmap option_map mbind option_bind]. cbv zeta.
    destruct (with_dimensions_frame "targets" (with_input_target tensors)
                targets labels') as (Hpred & _).
    change (pred (add_summary_image ?t _ _)) with (pred t).
    rewrite Hpred. change (pred (with_input_target tensors)) with (pred tensors).
    destruct (batch_dimensions_to_colors_list (pred tensors)
                (color :: colors'))
      as [outputs|] eqn:Houtputs; [|done].
    cbn [mbind option_bind].
    destruct (add_dimension_images "outputs" _ outputs labels')
      as [t4|] eqn:Ht4; [|done].
    apply add_dimension_images_inv in Ht4 as ->.
    cbn [mbind option_bind]. rewrite combine_image_plain.
    destruct (reduce _ outputs) as [outputs_sum|] eqn:Hosum; [|done].
    cbn [fmap option_fmap option_map mbind option_bind].
    intros [= <-]. left.
    exists color, colors', labels', targets, outputs, targets_sum, outputs_sum.
    repeat (split; [done|]). reflexivity.
  - intros [= <-]. right. split; [by left|]. reflexivity.
Qed.





(** ** Dimension order *)

Lemma tuple_leb_refl a : tuple_leb a a = true.
Proof. induction a as [|x a IH]; [done|]. simpl. by rewrite Z.ltb_irrefl. Qed.

Lemma tuple_leb_total a b : tuple_leb a b = true ∨ tuple_leb b a = true.
Proof.
  revert b. induction a as [|x a IH]; intros [|y b]; simpl; auto.
  destruct (Z.ltb_spec x y), (Z.ltb_spec y x); auto; lia.
Qed.

Lemma tuple_leb_antisym a b :
  tuple_leb a b = true → tuple_leb b a = true → a = b.
Proof.
  revert b. induction a as [|x a IH]; intros [|y b]; simpl; try done.
  destruct (Z.ltb_spec x y), (Z.ltb_spec y x); try done; try lia.
  intros Hab Hba. assert (x = y) as -> by lia. f_equal. auto.
Qed.

Lemma tuple_leb_trans a b c :
  tuple_leb a b = true → tuple_leb b c = true → tuple_leb a c = true.
Proof.
  revert b c. induction a as [|x a IH]; intros [|y b] [|z c]; simpl; try done.
  destruct (Z.ltb_spec x y), (Z.ltb_spec y x), (Z.ltb_spec y z),
    (Z.ltb_spec z y), (Z.ltb_spec x z), (Z.ltb_spec z x);
    try done; try lia.
  apply IH.
Qed.

Global Instance tuple_le_total : Total tuple_le.
Proof. intros a b. apply tuple_leb_total. Qed.
Global Instance tuple_le_trans : Transitive tuple_le.
Proof. intros a b c. apply tuple_leb_trans. Qed.
Global Instance tuple_le_antisym : AntiSymm (=) tuple_le.
Proof. intros a b. apply tuple_leb_antisym. Qed.

Lemma sorted_Permutation keys1 keys2 :
  keys1 ≡ₚ keys2 → sorted keys1 = sorted keys2.
Proof.
  intros Hperm. unfold sorted.
  apply (Sorted_unique tuple_le); [apply Sorted_merge_sort, _..|].
  by rewrite !merge_sort_Permutation.
Qed.

Lemma dict_get_Some_elem_of {V} (d : list (list Z * V)) k v :
  dict_get d k = Some v → (k, v) ∈ d.
Proof.
  induction d as [|[k' v'] d IH]; [done|]. simpl.
  case_decide as Hk.
  - intros [= ->]. subst. apply list_elem_of_here.
  - intros Hget. apply list_elem_of_further. auto.
Qed.

Lemma elem_of_dict_get {V} (d : list (list Z * V)) k v :
  NoDup (d.*1) → (k, v) ∈ d → dict_get d k = Some v.
Proof.
  induction d as [|[k' v'] d IH]; [by intros _ ?%elem_of_nil|].
  rewrite fmap_cons. intros [Hnotin Hnodup]%NoDup_cons.
  intros [[= -> ->]|Hin]%elem_of_cons; simpl.
  - by rewrite decide_True.
  - rewrite decide_False; [auto|]. intros ->. apply Hnotin.
    apply list_elem_of_fmap. by exists (k, v).
Qed.

Lemma dict_get_Permutation {V} (d1 d2 : list (list Z * V)) k :
  NoDup (d1.*1) → d1 ≡ₚ d2 → dict_get d1 k = dict_get d2 k.
Proof.
  intros Hnodup1 Hperm.
  assert (NoDup (d2.*1)) as Hnodup2 by by rewrite <-Hperm.
  destruct (dict_get d1 k) as [v|] eqn:H1.
  - symmetry. apply elem_of_dict_get; [done|]. rewrite <-Hperm.
    by apply dict_get_Some_elem_of.
  - destruct (dict_get d2 k) as [v|] eqn:H2; [|done].
    apply dict_get_Some_elem_of in H2. rewrite <-Hperm in H2.
    apply (elem_of_dict_get _ _ _ Hnodup1) in H2. congruence.
Qed.

Lemma mapM_ext {A B} (f g : A → option B) l :
  (∀ x, f x = g x) → mapM f l = mapM g l.
Proof. intros Hfg. induction l as [|x l IH]; simpl; [done|]. by rewrite Hfg, IH. Qed.

Lemma mapM_dict_get_keys {V} (d : list (list Z * V)) keys :
  keys ⊆ d.*1 → is_Some (mapM (dict_get d) keys).
Proof.
  intros Hsub. apply mapM_is_Some, Forall_forall. intros k Hk.
  apply Hsub, list_elem_of_fmap in Hk as ([k' v] & -> & Hin). simpl.
  clear Hsub. induction d as [|[k0 v0] d IH]; [by apply elem_of_nil in Hin|].
  simpl. case_decide; [done|].
  apply elem_of_cons in Hin as [[= ? ?]|Hin]; [done|auto].
Qed.

(** C8: the dimension order does not depend on the order in which the
    colour map dict hands out its items: two constructions from the same
    configuration give the same [dimension_colors] and [dimension_labels].
    Dimension [i] (counted from 0, without gaps) is the [i]-th key of the
    colour map in ascending tuple order. *)
Theorem dimension_order_deterministic (int : string → option Z)
    (color_map1 color_map2 : list (list Z * list Z))
    (labels : list (string * string)) :
  NoDup (color_map1.*1) → color_map1 ≡ₚ color_map2 →
  let model1 :=
    Model_init int (color_map_read {| parsed_color_map := Some color_map1;
                                      color_labels := Some labels |}) in
  let model2 :=
    Model_init int (color_map_read {| parsed_color_map := Some color_map2;
                                      color_labels := Some labels |}) in
  dimension_colors <$> model1 = dimension_colors <$> model2 ∧
  dimension_labels <$> model1 = dimension_labels <$> model2 ∧
  (is_Some (color_label_map_of int labels ∅) → is_Some model1) ∧
  ∀ m, model1 = Some m →
    ∃ keys colors dimension_names color_label_map,
      dimension_colors m = Some colors ∧
      dimension_labels m = Some dimension_names ∧
      color_label_map_of int labels ∅ = Some color_label_map ∧
      keys ≡ₚ color_map1.*1 ∧
      StronglySorted tuple_le keys ∧ NoDup keys ∧
      length colors = length keys ∧ length dimension_names = length keys ∧
      ∀ i k, keys !! i = Some k →
        (∃ color, dict_get color_map1 k = Some color ∧
                  colors !! i = Some color) ∧
        dimension_names !! i = Some (color_label_map !! k).
Proof.
  intros Hnodup Hperm model1 model2. subst model1 model2.
  unfold Model_init. cbn [parsed_color_map color_labels mbind option_bind].
  assert (sorted (color_map2.*1) = sorted (color_map1.*1)) as ->.
  { apply sorted_Permutation. by rewrite Hperm. }
  rewrite <-(mapM_ext _ _ _ (λ k, dict_get_Permutation _ _ k Hnodup Hperm)).
  destruct (mapM_dict_get_keys color_map1 (sorted (color_map1.*1)))
    as [colors Hcolors].
  { intros k. unfold sorted. by rewrite merge_sort_Permutation. }
  destruct (color_label_map_of int labels ∅) as [color_label_map|];
    cbn [mbind option_bind]; [|by repeat split; try done; intros []].
  rewrite Hcolors. cbn [mbind option_bind].
  split; [done|]. split; [done|]. split; [done|].
  intros m [= <-]. cbn [dimension_colors dimension_labels].
  exists (sorted (color_map1.*1)), colors,
    ((λ k, color_label_map !! k) <$> sorted (color_map1.*1)), color_label_map.
  assert (sorted (color_map1.*1) ≡ₚ color_map1.*1) as Hkeys
    by apply merge_sort_Permutation.
  do 4 (split; [done|]).
  split; [apply StronglySorted_merge_sort; apply _|].
  split; [by rewrite Hkeys|].
  split; [symmetry; by eapply length_mapM|].
  split; [by rewrite length_fmap|].
  intros i k Hk. split.
  - apply mapM_Some in Hcolors.
    destruct (Forall2_lookup_l _ _ _ _ _ Hcolors Hk) as (color & ? & ?).
    eauto.
  - by rewrite list_lookup_fmap, Hk.
Qed.

Lemma dimension_order_deterministic_example :
  dimension_colors <$>
    Model_init int_digit
      (color_map_read
         {| parsed_color_map :=
              Some [([7; 7; 7], [0; 0; 255]); ([1; 1; 1], [255; 0; 0])];
            color_labels := Some [("1", "one")] |})
  = dimension_colors <$>
    Model_init int_digit
      (color_map_read
         {| parsed_color_map :=
              Some [([1; 1; 1], [255; 0; 0]); ([7; 7; 7], [0; 0; 255])];
            color_labels := Some [("1", "one")] |}).
Proof.
  apply (dimension_order_deterministic int_digit
    [([7; 7; 7], [0; 0; 255]); ([1; 1; 1], [255; 0; 0])]
    [([1; 1; 1], [255; 0; 0]); ([7; 7; 7], [0; 0; 255])]
    [("1", "one")]).
  - apply NoDup_cons. split; [by intros [= ]%list_elem_of_singleton|].
    apply NoDup_singleton.
  - apply Permutation_swap.
Defined.

(** ** The example schema *)

Lemma feature_map_Forall (P : string → FixedLenFeature → Prop) :
  map_Forall P feature_map ↔
  P "input_uri" optional_string ∧ P "annotation_uri" optional_string ∧
  P "input_image" required_string ∧ P "annotation_image" required_string.
Proof.
  unfold feature_map.
  rewrite !map_Forall_insert, map_Forall_singleton by done.
  reflexivity.
Qed.

Lemma parse_required_is_Some value :
  is_Some (parse_feature required_string value) ↔
  ∃ s, value = Some (bytes_list [s]).
Proof.
  unfold parse_feature, required_string. simpl. split.
  - destruct value as [[[|s [|? ?]]|?|?]|]; simpl;
      try (intros [? [=]]); try case_decide; try (intros [? [=]]);
      try naive_solver.
  - intros [s ->]. by eexists.
Qed.

Lemma parse_optional_is_Some value :
  is_Some (parse_feature optional_string value) ↔
  value = None ∨ ∃ s, value = Some (bytes_list [s]).
Proof.
  unfold parse_feature, optional_string. simpl. split.
  - destruct value as [[[|s [|? ?]]|?|?]|]; simpl;
      try (intros [? [=]]); try case_decide; try (intros [? [=]]);
      try naive_solver.
  - intros [->|[s ->]]; by eexists.
Qed.

Lemma parse_single_example_lookup example parsed key :
  parse_single_example example feature_map = Some parsed →
  parsed !! key
  = spec ← feature_map !! key; parse_feature spec (example !! key).
Proof.
  unfold parse_single_example. generalize feature_map. intros features.
  destruct (decide _) as [_|_]; intros Heq; [|discriminate Heq].
  apply (inj Some) in Heq. rewrite <-Heq. apply map_lookup_imap.
Qed.

Lemma parse_single_example_is_Some example :
  is_Some (parse_single_example example feature_map) ↔
  (example !! "input_uri" = None ∨
   ∃ s, example !! "input_uri" = Some (bytes_list [s])) ∧
  (example !! "annotation_uri" = None ∨
   ∃ s, example !! "annotation_uri" = Some (bytes_list [s])) ∧
  (∃ s, example !! "input_image" = Some (bytes_list [s])) ∧
  (∃ s, example !! "annotation_image" = Some (bytes_list [s])).
Proof.
  rewrite <-!parse_optional_is_Some, <-!parse_required_is_Some.
  rewrite <-(feature_map_Forall
    (λ key spec, is_Some (parse_feature spec (example !! key)))).
  unfold parse_single_example. generalize feature_map. intros features.
  destruct (decide _) as [Hall|Hnot]; split; try done.
Qed.

Section ExampleGraphProperties.
Variable decode_png : string → option (image Z).
Variable resize_image_with_crop_or_pad : image Z → nat → nat → image Z.
Variable self : Model.
Variable reader : nat → option (gmap string Feature).
Variables batch_size capacity : nat.

Lemma example_graph_parse_error example :
  parse_single_example example feature_map = None →
  example_graph decode_png resize_image_with_crop_or_pad self example = None.
Proof. unfold example_graph. intros Hparse. by rewrite Hparse. Qed.

Lemma example_graph_not_png example s :
  example !! "input_image" = Some (bytes_list [s]) →
  decode_png s = None →
  example_graph decode_png resize_image_with_crop_or_pad self example = None.
Proof.
  intros Himage Hdecode. unfold example_graph.
  destruct (parse_single_example example feature_map) as [parsed|] eqn:Hparse;
    [|done].
  cbn [mbind option_bind].
  destruct (parsed !! "input_uri" ≫= squeeze_string); [|done].
  cbn [mbind option_bind].
  destruct (parsed !! "annotation_uri" ≫= squeeze_string); [|done].
  cbn [mbind option_bind].
  rewrite (parse_single_example_lookup _ _ "input_image" Hparse), Himage.
  change (feature_map !! "input_image") with (Some required_string).
  cbn. rewrite decide_True by (split; reflexivity).
  cbn [mbind option_bind squeeze_string].
  destruct (parsed !! "annotation_image" ≫= squeeze_string); [|reflexivity].
  cbn [mbind option_bind]. rewrite Hdecode. reflexivity.
Qed.

Lemma failing_record_stops_reader k example st :
  reader k = Some example →
  example_graph decode_png resize_image_with_crop_or_pad self example
    = None →
  reachable decode_png resize_image_with_crop_or_pad self reader
    batch_size capacity st →
  (records_read st ≤ k)%nat.
Proof.
  intros Hk Hfail. unfold reachable. revert st.
  apply (rtc_ind_r (λ st, records_read st ≤ k)%nat).
  - simpl. lia.
  - intros st st' _ Hstep IH.
    destruct Hstep as [st ex element _ Hread Helement|st element _ _|st _];
      simpl; [|done..].
    destruct (decide (records_read st = k)) as [Heq|Hne]; [|lia].
    rewrite Heq in Hread. congruence.
Qed.

(** C6: the schema has exactly the four fields, the two URIs optional
    with default [""], the two images required strings; an example parses
    exactly when it fits the schema, an absent URI parses to [""]; an
    input image that does not decode as PNG and a record that violates the
    schema make the example graph fail, and the failure is not stepped
    over: the reader never gets past that record. *)
Theorem schema_violation_is_fatal (example : gmap string Feature) :
  (dom feature_map
     = {[ "input_uri"; "annotation_uri"; "input_image"; "annotation_image" ]}
         :> gset string) ∧
  feature_map !! "input_uri" = Some optional_string ∧
  feature_map !! "annotation_uri" = Some optional_string ∧
  feature_map !! "input_image" = Some required_string ∧
  feature_map !! "annotation_image" = Some required_string ∧
  (is_Some (parse_single_example example feature_map) ↔
     (example !! "input_uri" = None ∨
      ∃ s, example !! "input_uri" = Some (bytes_list [s])) ∧
     (example !! "annotation_uri" = None ∨
      ∃ s, example !! "annotation_uri" = Some (bytes_list [s])) ∧
     (∃ s, example !! "input_image" = Some (bytes_list [s])) ∧
     (∃ s, example !! "annotation_image" = Some (bytes_list [s]))) ∧
  (∀ parsed, parse_single_example example feature_map = Some parsed →
     (example !! "input_uri" = None →
      parsed !! "input_uri" = Some (bytes_list [""])) ∧
     (example !! "annotation_uri" = None →
      parsed !! "annotation_uri" = Some (bytes_list [""]))) ∧
  (example !! "input_image" = None ∨ example !! "annotation_image" = None →
     parse_single_example example feature_map = None) ∧
  (∀ s, example !! "input_image" = Some (bytes_list [s]) →
     decode_png s = None →
     example_graph decode_png resize_image_with_crop_or_pad self example
       = None) ∧
  (parse_single_example example feature_map = None →
     example_graph decode_png resize_image_with_crop_or_pad self example
       = None ∧
     ∀ k st,
       reader k = Some example →
       reachable decode_png resize_image_with_crop_or_pad self reader
         batch_size capacity st →
       (records_read st ≤ k)%nat).
Proof.
  split.
  { unfold feature_map. rewrite !dom_insert_L, dom_singleton_L.
    set_solver. }
  do 4 (split; [reflexivity|]).
  split; [apply parse_single_example_is_Some|].
  split; [|split; [|split; [apply example_graph_not_png|]]].
  - intros parsed Hparsed.
    rewrite !(parse_single_example_lookup _ _ _ Hparsed).
    split; intros ->; reflexivity.
  - intros Hmissing.
    destruct (parse_single_example example feature_map) eqn:Hparse; [|done].
    assert (is_Some (parse_single_example example feature_map)) as Hsome
      by by rewrite Hparse.
    apply parse_single_example_is_Some
      in Hsome as (_ & _ & [? Hin] & [? Han]).
    destruct Hmissing; congruence.
  - intros Hparse.
    pose proof (example_graph_parse_error _ Hparse) as Hfail.
    split; [done|]. intros k st Hk Hst.
    by eapply failing_record_stops_reader.
Qed.

Lemma reachable_batching_invariant st :
  reachable decode_png resize_image_with_crop_or_pad self reader
    batch_size capacity st →
  batching_invariant decode_png resize_image_with_crop_or_pad self reader
    batch_size st.
Proof.
  unfold reachable. revert st. apply (rtc_ind_r (batching_invariant decode_png
    resize_image_with_crop_or_pad self reader batch_size)).
  - exists []. repeat split; simpl; try done; try lia.
  - intros st st' _ Hstep (elements & Hlen & Hfrom & Hle & Hqueue & Hbatches).
    destruct Hstep as [st example element Hnone Hread Helement
                      |st element Hpending _|st Hsize].
    + exists (elements ++ [element])%list.
      cbn [records_read queue pending batches].
      rewrite Hnone in Hqueue. cbn [option_list] in *.
      rewrite app_nil_r in Hqueue.
      split; [rewrite length_app; simpl; lia|]. split; [|split; [|split]].
      * intros k element' Hk.
        apply lookup_app_Some in Hk as [Hk|[Hge Hk]]; [by apply Hfrom|].
        apply list_lookup_singleton_Some in Hk as [Hk0 <-].
        assert (k = records_read st) as -> by lia. eauto.
      * rewrite length_app. lia.
      * rewrite Hqueue, drop_app_le by done. done.
      * intros j batch Hj. rewrite (Hbatches j batch Hj).
        apply lookup_lt_Some in Hj.
        assert (S j * batch_size ≤ length (batches st) * batch_size)%nat
          by (apply Nat.mul_le_mono_r; lia).
        simpl in *.
        rewrite drop_app_le, take_app_le by
          (rewrite ?length_drop; lia). done.
    + exists elements. cbn [records_read queue pending batches].
      rewrite Hpending in Hqueue. cbn [option_list] in *.
      rewrite app_nil_r. done.
    + exists elements. cbn [records_read queue pending batches].
      assert (batch_size ≤ length elements
                - length (batches st) * batch_size)%nat as Hroom.
      { apply (f_equal length) in Hqueue.
        rewrite length_app, length_drop in Hqueue. lia. }
      assert (take batch_size (queue st)
              = take batch_size
                  (drop (length (batches st) * batch_size) elements))
        as Htake.
      { rewrite <-Hqueue. by rewrite take_app_le. }
      split; [done|]. split; [done|]. rewrite length_app. simpl.
      replace ((length (batches st) + 1) * batch_size)%nat
        with (length (batches st) * batch_size + batch_size)%nat by lia.
      split; [lia|]. split.
      * rewrite <-drop_drop, <-Hqueue. by rewrite drop_app_le.
      * intros j batch Hj.
        apply lookup_app_Some in Hj as [Hj|[Hge Hj]]; [by apply Hbatches|].
        apply list_lookup_singleton_Some in Hj as [Hj0 <-].
        assert (j = length (batches st)) as -> by lia. by rewrite Htake.
Qed.

(** C9: in every batch that the single five-tensor [tf.train.batch] queue
    hands out, each of the five batched tensors has exactly [batch_size]
    entries, and position [i] of all five comes from one and the same
    record of the reader (record [j * batch_size + i] for the [j]-th
    batch): nothing pairs the input of one record with the annotation of
    another. *)
Theorem batch_positions_share_record st j batch :
  reachable decode_png resize_image_with_crop_or_pad self reader
    batch_size capacity st →
  batches st !! j = Some batch →
  length (input_uri batch) = batch_size ∧
  length (annotation_uri batch) = batch_size ∧
  length (batched_image_tensor batch) = batch_size ∧
  length (batched_annotation_tensor batch) = batch_size ∧
  length (batched_separate_channel_annotation_tensor batch) = batch_size ∧
  ∀ i, (i < batch_size)%nat →
    ∃ example element,
      reader (j * batch_size + i)%nat = Some example ∧
      example_graph decode_png resize_image_with_crop_or_pad self example
        = Some element ∧
      input_uri batch !! i = Some (ex_input_uri element) ∧
      annotation_uri batch !! i = Some (ex_annotation_uri element) ∧
      batched_image_tensor batch !! i = Some (ex_image_tensor element) ∧
      batched_annotation_tensor batch !! i
        = Some (ex_annotation_tensor element) ∧
      batched_separate_channel_annotation_tensor batch !! i
        = Some (ex_separate_channel_annotation_tensor element).
Proof.
  intros Hst Hj.
  destruct (reachable_batching_invariant st Hst)
    as (elements & Hlen & Hfrom & Hle & Hqueue & Hbatches).
  rewrite (Hbatches j batch Hj). clear Hbatches.
  apply lookup_lt_Some in Hj.
  assert (S j * batch_size ≤ length (batches st) * batch_size)%nat as Hchunk
    by (apply Nat.mul_le_mono_r; lia).
  simpl in Hchunk.
  assert (length (take batch_size (drop (j * batch_size) elements))
          = batch_size) as Hsize.
  { rewrite length_take, length_drop. lia. }
  cbn [stack_batch input_uri annotation_uri batched_image_tensor
       batched_annotation_tensor batched_separate_channel_annotation_tensor].
  rewrite !length_fmap. do 5 (split; [exact Hsize|]).
  intros i Hi.
  destruct (lookup_lt_is_Some_2
    (take batch_size (drop (j * batch_size) elements)) i) as [element Hel];
    [lia|].
  pose proof Hel as Hk. rewrite lookup_take_lt, lookup_drop in Hk by done.
  destruct (Hfrom _ _ Hk) as (example & Hread & Hgraph).
  exists example, element. rewrite !list_lookup_fmap, Hel.
  split; [exact Hread|]. split; [exact Hgraph|]. repeat split.
Qed.
End ExampleGraphProperties.

Lemma schema_violation_is_fatal_example :
  parse_single_example (delete "input_image" record_a) feature_map = None.
Proof.
  apply (schema_violation_is_fatal decode_length keep_size plain_model
           two_records 2 32 (delete "input_image" record_a)).
  left. reflexivity.
Defined.

Lemma batch_positions_share_record_example :
  ∃ st batch,
    batches st !! 0%nat = Some batch ∧
    input_uri batch = ["a.png"; "b.png"] ∧
    annotation_uri batch = [""; ""] ∧
    ∀ i, (i < 2)%nat →
      ∃ example element,
        two_records (0 * 2 + i)%nat = Some example ∧
        example_graph decode_length keep_size plain_model example
          = Some element ∧
        input_uri batch !! i = Some (ex_input_uri element) ∧
        annotation_uri batch !! i = Some (ex_annotation_uri element) ∧
        batched_image_tensor batch !! i = Some (ex_image_tensor element) ∧
        batched_annotation_tensor batch !! i
          = Some (ex_annotation_tensor element) ∧
        batched_separate_channel_annotation_tensor batch !! i
          = Some (ex_separate_channel_annotation_tensor element).
Proof.
  assert (example_graph decode_length keep_size plain_model record_a
          = Some element_a) as Ha by (vm_compute; reflexivity).
  assert (example_graph decode_length keep_size plain_model record_b
          = Some element_b) as Hb by (vm_compute; reflexivity).
  set (a := element_a) in *. set (b := element_b) in *.
  pose (st1 := {| records_read := 1; pending := Some a; queue := [];
                  batches := [] |}).
  pose (st2 := {| records_read := 1; pending := None; queue := [a];
                  batches := [] |}).
  pose (st3 := {| records_read := 2; pending := Some b; queue := [a];
                  batches := [] |}).
  pose (st4 := {| records_read := 2; pending := None; queue := [a; b];
                  batches := [] |}).
  pose (st5 := {| records_read := 2; pending := None; queue := [];
                  batches := [stack_batch [a; b]] |}).
  assert (reachable decode_length keep_size plain_model two_records 2 32 st5)
    as Hreach.
  { unfold reachable.
    eapply rtc_l; [exact (step_read decode_length keep_size plain_model
                            two_records 2 32 initial_state record_a a
                            eq_refl eq_refl Ha)|].
    eapply rtc_l; [exact (step_enqueue decode_length keep_size plain_model
                            two_records 2 32 st1 a
                            eq_refl ltac:(simpl; lia))|].
    eapply rtc_l; [exact (step_read decode_length keep_size plain_model
                            two_records 2 32 st2 record_b b
                            eq_refl eq_refl Hb)|].
    eapply rtc_l; [exact (step_enqueue decode_length keep_size plain_model
                            two_records 2 32 st3 b
                            eq_refl ltac:(simpl; lia))|].
    eapply rtc_l; [exact (step_dequeue_many decode_length keep_size plain_model
                            two_records 2 32 st4
                            ltac:(simpl; lia))|].
    apply rtc_refl. }
  exists st5, (stack_batch [a; b]).
  do 3 (split; [reflexivity|]).
  apply (batch_positions_share_record decode_length keep_size plain_model
           two_records 2 32 st5 0 (stack_batch [a; b]) Hreach eq_refl).
Defined.

(** * Further properties *)
(** ** colors_to_dimensions: more *)

(** X1: distinct colours give masks that are one-hot or all zero. *)
Theorem masks_at_most_one_hot H W (image_tensor : image Z)
    (colors : list (list Z)) out h w px channels :
  has_shape3 H W 3 image_tensor → Forall is_rgb colors → NoDup colors →
  colors_to_dimensions image_tensor colors = Some out →
  at3 image_tensor h w = Some px → at3 out h w = Some channels →
  Forall (λ v, v = Finite 1 ∨ v = Finite 0) channels ∧
  (∀ c1 c2, channels !! c1 = Some (Finite 1) → channels !! c2 = Some (Finite 1) → c1 = c2) ∧
  (px ∈ colors ↔ ∃ c, channels !! c = Some (Finite 1)).
Proof.
  intros Hshape Hrgb Hnodup Hout Hpx Hchannels.
  assert (colors ≠ []) as Hne by (by intros ->).
  rewrite (colors_to_dimensions_one_hot H W) in Hout by done.
  injection Hout as <-. unfold at3 in *.
  rewrite at3_map2, Hpx in Hchannels. injection Hchannels as <-.
  assert (∀ c, one_hot colors px !! c = Some (Finite 1) → colors !! c = Some px)
    as Hone.
  { intros c. unfold one_hot. rewrite list_lookup_fmap.
    destruct (colors !! c) as [color|]; [|done]. simpl.
    case_bool_decide; [by intros _; subst|discriminate]. }
  split; [|split].
  - unfold one_hot. apply Forall_fmap, Forall_forall. intros color _.
    simpl. case_bool_decide; auto.
  - intros c1 c2 H1%Hone H2%Hone. by eapply NoDup_lookup.
  - split.
    + intros [c Hc]%list_elem_of_lookup. exists c. unfold one_hot.
      rewrite list_lookup_fmap, Hc. simpl. by rewrite bool_decide_eq_true_2.
    + intros [c Hc%Hone]. by eapply list_elem_of_lookup_2.
Qed.

Lemma masks_at_most_one_hot_example :
  Forall (λ v, v = Finite 1 ∨ v = Finite 0) [Finite 0; Finite 1] ∧
  (∀ c1 c2, [Finite 0; Finite 1] !! c1 = Some (Finite 1) →
            [Finite 0; Finite 1] !! c2 = Some (Finite 1) → c1 = c2) ∧
  ([0; 255; 0] ∈ [[255; 0; 0]; [0; 255; 0]] ↔
   ∃ c, [Finite 0; Finite 1] !! c = Some (Finite 1)).
Proof.
  apply (masks_at_most_one_hot 1 1 [[[0; 255; 0]]]
           [[255; 0; 0]; [0; 255; 0]] [[[Finite 0; Finite 1]]] 0 0 [0; 255; 0]).
  - repeat (split || constructor).
  - repeat (split || constructor); lia.
  - apply NoDup_cons. split; [by intros [=]%list_elem_of_singleton|].
    apply NoDup_singleton.
  - reflexivity.
  - reflexivity.
  - reflexivity.
Defined.

(** X2: a colour that is neither a triple nor a single value cannot be
    broadcast against the three channels. *)
Theorem colors_to_dimensions_bad_arity H W (image_tensor : image Z)
    (colors : list (list Z)) color :
  has_shape3 H W 3 image_tensor → (0 < H)%nat → (0 < W)%nat →
  color ∈ colors → length color ≠ 3%nat → length color ≠ 1%nat →
  colors_to_dimensions image_tensor colors = None.
Proof.
  intros [HH Hrows] HposH HposW Hin Hlen3 Hlen1.
  unfold colors_to_dimensions.
  assert (tf_equal3 image_tensor color = None) as Hequal.
  { destruct image_tensor as [|row rows]; [simpl in HH; lia|].
    apply Forall_cons_1 in Hrows as [[HW Hrow] _].
    destruct row as [|px row]; [simpl in HW; lia|].
    apply Forall_cons_1 in Hrow as [Hpx _].
    unfold tf_equal3. apply mapM_None_2, Exists_cons_hd.
    apply mapM_None_2, Exists_cons_hd. unfold broadcast_last, uint8_constant.
    rewrite Hpx, length_fmap.
    destruct (Nat.eqb_spec 3 (length color)) as [Heq|_]; [lia|].
    destruct px as [|? [|? [|? [|? ?]]]]; try done.
    by destruct color as [|? [|? ?]]. }
  rewrite (proj2 (mapM_None _ _)); [done|].
  apply Exists_exists. exists color. split; [done|]. by rewrite Hequal.
Qed.

Lemma colors_to_dimensions_bad_arity_example :
  colors_to_dimensions [[[7; 7; 7]]] [[7; 7; 7]; [7; 7]] = None.
Proof.
  apply (colors_to_dimensions_bad_arity 1 1 [[[7; 7; 7]]]
           [[7; 7; 7]; [7; 7]] [7; 7]).
  - repeat (split || constructor).
  - lia.
  - lia.
  - apply list_elem_of_further, list_elem_of_here.
  - discriminate.
  - discriminate.
Defined.

(** ** batch_dimensions_to_colors_list: more *)

Lemma uint8_cases (P : Z → Prop) (f : Z → bool) :
  (∀ x, f x = true → P x) →
  forallb f (seqZ 0 256) = true →
  ∀ x, 0 ≤ x ≤ 255 → P x.
Proof.
  intros Hf Hall x Hx. apply Hf.
  rewrite forallb_forall in Hall. apply Hall.
  apply list_elem_of_In, elem_of_seqZ. lia.
Qed.

(** The weight of a colour component is [x / 255] up to one rounding to
    [float32]. *)
Lemma component_weight_close x :
  0 ≤ x ≤ 255 →
  ∃ q, component_weight x = Finite q ∧
       (Qabs (q - inject_Z x / 255) <= inject_Z x / 255 * 2 ^ (-24))%Q.
Proof.
  revert x.
  apply (uint8_cases _ (λ x,
    match component_weight x with
    | Finite q =>
        Qle_bool (Qabs (q - inject_Z x / 255)) (inject_Z x / 255 * 2 ^ (-24))
    | Infinity _ | NaN => false
    end)).
  - intros x. destruct (component_weight x) as [q| |]; [|done..].
    intros Hq%Qle_bool_iff. by exists q.
  - vm_compute. reflexivity.
Qed.

(** X3: each colour gives one weighted image of three channels: at every
    pixel, the value of the colour's channel times the weight of each
    colour component, the product rounded to [float32]; the weight of a
    component [x] is [x / 255] up to one rounding. *)
Theorem batch_dimensions_to_colors_list_pixels B H W C (t : batch float32)
    (colors : list (list Z)) :
  Forall is_rgb colors → has_shape4 B H W C t → (length colors ≤ C)%nat →
  ∃ batch_images,
    batch_dimensions_to_colors_list t colors = Some batch_images ∧
    length batch_images = length colors ∧
    ∀ i color batch_image,
      colors !! i = Some color → batch_images !! i = Some batch_image →
      has_shape4 B H W 3 batch_image ∧
      (∀ b h w px, at4 t b h w = Some px →
         ∃ v, px !! i = Some v ∧
              at4 batch_image b h w
              = Some ((λ x, f32_mul v (component_weight x)) <$> color)) ∧
      ∀ x, x ∈ color →
        ∃ q, component_weight x = Finite q ∧
             (Qabs (q - inject_Z x / 255)
              <= inject_Z x / 255 * 2 ^ (-24))%Q.
Proof.
  intros Hrgb Hshape Hle. eexists.
  split; [by eapply batch_dimensions_to_colors_list_weighted|].
  split; [apply length_imap|].
  intros i color batch_image Hcolor Himage.
  rewrite list_lookup_imap, Hcolor in Himage. injection Himage as <-.
  pose proof (Forall_lookup_1 _ _ _ _ Hrgb Hcolor) as [Hlen Hrange].
  split; [|split].
  - eapply has_shape4_map3; [exact Hshape|]. intros px _.
    by rewrite !length_fmap.
  - intros b h w px Hpx. rewrite at4_map3, Hpx.
    pose proof (has_shape4_pixels _ _ _ _ _ Hshape) as Hpixels.
    assert (length px = C) as Hpxlen.
    { unfold at4, at3 in Hpx.
      destruct (t !! b) as [img|] eqn:Hb; [|done]. simpl in Hpx.
      destruct (img !! h) as [row|] eqn:Hh; [|done]. simpl in Hpx.
      pose proof (Forall_lookup_1 _ _ _ _ Hpixels Hb) as Himg.
      pose proof (Forall_lookup_1 _ _ _ _ Himg Hh) as Hrow.
      exact (Forall_lookup_1 _ _ _ _ Hrow Hpx). }
    apply lookup_lt_Some in Hcolor.
    destruct (lookup_lt_is_Some_2 px i) as [v Hv]; [lia|].
    exists v. split; [done|]. simpl. rewrite Hv. simpl. f_equal.
    by rewrite <-list_fmap_compose.
  - intros x Hx. apply component_weight_close.
    rewrite Forall_forall in Hrange. by apply Hrange.
Qed.

Lemma batch_dimensions_to_colors_list_pixels_example :
  ∃ batch_images batch_image,
    batch_dimensions_to_colors_list [[[[Finite (1 # 2); Finite 0]]]]
      [[255; 0; 0]; [0; 255; 0]] = Some batch_images ∧
    batch_images !! 0%nat = Some batch_image ∧
    at4 batch_image 0 0 0 = Some [Finite (1 # 2); Finite 0; Finite 0].
Proof.
  destruct (batch_dimensions_to_colors_list_pixels 1 1 1 2
              [[[[Finite (1 # 2); Finite 0]]]] [[255; 0; 0]; [0; 255; 0]])
    as (batch_images & Himages & Hlen & Hpixels).
  - repeat (split || constructor); lia.
  - repeat (split || constructor).
  - simpl. lia.
  - destruct batch_images as [|batch_image batch_images]; [done|].
    exists (batch_image :: batch_images), batch_image.
    split; [exact Himages|]. split; [reflexivity|].
    destruct (Hpixels 0%nat [255; 0; 0] batch_image eq_refl eq_refl)
      as (_ & Hpx & _).
    destruct (Hpx 0%nat 0%nat 0%nat [Finite (1 # 2); Finite 0] eq_refl)
      as (v & [= <-] & ->).
    vm_compute. reflexivity.
Defined.

(** X4: more colours than channels is an error: the slice of the missing
    channel is out of range. *)
Theorem batch_dimensions_to_colors_list_too_many_colors B H W C
    (t : batch float32) (colors : list (list Z)) :
  has_shape4 B H W C t → (0 < B)%nat → (0 < H)%nat → (0 < W)%nat →
  (C < length colors)%nat →
  batch_dimensions_to_colors_list t colors = None.
Proof.
  intros [HB Himgs] HposB HposH HposW Hlt.
  destruct (lookup_lt_is_Some_2 colors C) as [color Hcolor]; [done|].
  unfold batch_dimensions_to_colors_list. apply mapM_None_2, Exists_exists.
  exists (C, color). split.
  { apply list_elem_of_lookup. exists C. unfold enumerate.
    by rewrite list_lookup_imap, Hcolor. }
  assert (slice_channel t C = None) as ->; [|done].
  destruct t as [|img t]; [simpl in HB; lia|].
  apply Forall_cons_1 in Himgs as [[HH Hrows] _].
  destruct img as [|row img]; [simpl in HH; lia|].
  apply Forall_cons_1 in Hrows as [[HW Hrow] _].
  destruct row as [|px row]; [simpl in HW; lia|].
  apply Forall_cons_1 in Hrow as [Hpx _].
  unfold slice_channel. do 3 apply mapM_None_2, Exists_cons_hd.
  apply lookup_ge_None. lia.
Qed.

Lemma batch_dimensions_to_colors_list_too_many_colors_example :
  batch_dimensions_to_colors_list [[[[Finite 1]]]] [[255; 0; 0]; [0; 255; 0]]
  = None.
Proof.
  apply (batch_dimensions_to_colors_list_too_many_colors 1 1 1 1).
  - repeat (split || constructor).
  - lia.
  - lia.
  - lia.
  - simpl. lia.
Defined.

(** ** convert_image: more *)

(** X5: the conversion to [uint8] is monotone and saturates: nothing below
    0.0 or above 1.0 leaves the range. *)
Theorem float_to_uint8_monotone_saturating (v w : Q) :
  ((v <= w)%Q → float_to_uint8 v ≤ float_to_uint8 w) ∧
  ((v <= 0)%Q → float_to_uint8 v = 0) ∧
  ((1 <= v)%Q → float_to_uint8 v = 255).
Proof.
  split; [|split].
  - apply float_to_uint8_le.
  - apply float_to_uint8_nonpos.
  - apply float_to_uint8_one.
Qed.

Lemma float_to_uint8_monotone_saturating_example :
  float_to_uint8 (1 # 4) ≤ float_to_uint8 (3 # 4) ∧
  float_to_uint8 (-1 # 3) = 0 ∧
  float_to_uint8 (7 # 2) = 255.
Proof.
  split; [|split].
  - apply (float_to_uint8_monotone_saturating (1 # 4) (3 # 4)). done.
  - apply (float_to_uint8_monotone_saturating (-1 # 3) 0). done.
  - apply (float_to_uint8_monotone_saturating (7 # 2) 0). done.
Defined.

(** ** The codec round trip *)

(** The [float32] facts the round trip rests on, for every component of a
    colour: the weight [x / 255.0] survives a product with 1.0 and a sum
    with 0.0 unchanged, its product with 0.0 is 0.0, and it converts back
    to [x]. *)
Lemma component_weight_facts x :
  0 ≤ x ≤ 255 →
  f32_mul (Finite 0) (component_weight x) = Finite 0 ∧
  f32_mul (Finite 1) (component_weight x) = component_weight x ∧
  f32_add (Finite 0) (component_weight x) = component_weight x ∧
  f32_add (component_weight x) (Finite 0) = component_weight x ∧
  float32_to_uint8 (component_weight x) = x.
Proof.
  revert x.
  apply (uint8_cases _ (λ x,
    bool_decide (f32_mul (Finite 0) (component_weight x) = Finite 0)
    && bool_decide (f32_mul (Finite 1) (component_weight x)
                    = component_weight x)
    && bool_decide (f32_add (Finite 0) (component_weight x)
                    = component_weight x)
    && bool_decide (f32_add (component_weight x) (Finite 0)
                    = component_weight x)
    && (float32_to_uint8 (component_weight x) =? x))).
  - intros x Hx. repeat apply andb_prop in Hx as [Hx ?].
    repeat match goal with
           | H : bool_decide _ = true |- _ => apply bool_decide_eq_true in H
           | H : (_ =? _) = true |- _ => apply Z.eqb_eq in H
           end.
    done.
  - vm_compute. reflexivity.
Qed.

Lemma color_component_range color j :
  is_rgb color → 0 ≤ default 0 (color !! j) ≤ 255.
Proof.
  intros [_ Hrange]. destruct (color !! j) as [x|] eqn:Hx; simpl; [|lia].
  exact (Forall_lookup_1 _ _ _ _ Hrange Hx).
Qed.

Lemma color_share_other px j color :
  is_rgb color → px ≠ color → color_share px j color = Finite 0.
Proof.
  intros Hrgb Hne. unfold color_share.
  rewrite bool_decide_eq_false_2 by done.
  by apply component_weight_facts, color_component_range.
Qed.

Lemma color_share_same px j :
  is_rgb px →
  color_share px j px = component_weight (default 0 (px !! j)).
Proof.
  intros Hrgb. unfold color_share. rewrite bool_decide_eq_true_2 by done.
  by apply component_weight_facts, color_component_range.
Qed.

(** Colours other than the pixel's add nothing. *)
Lemma foldl_color_share_others px j a colors :
  Forall is_rgb colors → px ∉ colors →
  f32_add a (Finite 0) = a →
  foldl f32_add a (color_share px j <$> colors) = a.
Proof.
  intros Hrgb Hnotin Ha. induction Hrgb as [|color colors Hcolor _ IH]; [done|].
  apply not_elem_of_cons in Hnotin as [Hne Hnotin].
  cbn [fmap list_fmap foldl].
  rewrite (color_share_other px j color) by done. rewrite Ha. by apply IH.
Qed.

Lemma foldl_color_share px j colors :
  Forall is_rgb colors → NoDup colors →
  foldl f32_add (Finite 0) (color_share px j <$> colors)
  = if decide (px ∈ colors)
    then component_weight (default 0 (px !! j)) else Finite 0.
Proof.
  intros Hrgb Hnodup.
  induction Hrgb as [|color colors Hcolor Hrgb IH].
  { simpl. destruct (decide (px ∈ [])) as [Hin%elem_of_nil|]; done. }
  apply NoDup_cons in Hnodup as [Hnotin Hnodup].
  cbn [fmap list_fmap foldl].
  destruct (decide (px = color)) as [->|Hne].
  - rewrite decide_True by apply list_elem_of_here.
    rewrite color_share_same by done.
    pose proof (component_weight_facts _ (color_component_range color j Hcolor))
      as (_ & _ & -> & Hzero & _).
    by apply foldl_color_share_others.
  - rewrite (color_share_other px j color) by done.
    change (f32_add (Finite 0) (Finite 0)) with (Finite 0).
    rewrite (IH Hnodup).
    destruct (decide (px ∈ colors)) as [Hin|Hnin].
    + rewrite decide_True; [done|]. by apply list_elem_of_further.
    + rewrite decide_False; [done|]. intros [?|?]%elem_of_cons; done.
Qed.

Lemma color_share_zero_l px j color :
  is_rgb color →
  f32_add (Finite 0) (color_share px j color) = color_share px j color.
Proof.
  intros Hrgb. destruct (decide (px = color)) as [->|Hne].
  - rewrite color_share_same by done.
    by apply component_weight_facts, color_component_range.
  - by rewrite color_share_other.
Qed.

Lemma decoded_channel colors px j :
  colors ≠ [] → NoDup colors → Forall is_rgb colors → (j < 3)%nat →
  float32_to_uint8 <$> sum_float32 (color_share px j <$> colors)
  = Some (default 0 (decoded colors px !! j)).
Proof.
  intros Hne Hnodup Hrgb Hj. destruct colors as [|color colors]; [done|].
  cbn [fmap list_fmap sum_float32 option_fmap option_map]. f_equal.
  pose proof (Forall_inv Hrgb) as Hcolor.
  rewrite <-(color_share_zero_l px j color) by done.
  change (foldl f32_add (f32_add (Finite 0) (color_share px j color))
            (color_share px j <$> colors))
    with (foldl f32_add (Finite 0) (color_share px j <$> color :: colors)).
  rewrite foldl_color_share by done.
  unfold decoded. destruct (decide (px ∈ color :: colors)) as [Hin|Hnin].
  - apply component_weight_facts, color_component_range.
    rewrite Forall_forall in Hrgb. by apply Hrgb.
  - destruct j as [|[|[|j]]]; try lia; done.
Qed.

Lemma has_shape4_singleton {T} H W C (t : image T) :
  has_shape3 H W C t → has_shape4 1 H W C [t].
Proof. intros Ht. split; [done|]. by constructor. Qed.

Lemma at4_pixel_length {T} B H W C (t : batch T) b h w px :
  has_shape4 B H W C t → at4 t b h w = Some px → length px = C.
Proof.
  intros Hshape Hpx. pose proof (has_shape4_pixels _ _ _ _ _ Hshape) as Hpixels.
  unfold at4, at3 in Hpx.
  destruct (t !! b) as [img|] eqn:Hb; [|done]. simpl in Hpx.
  destruct (img !! h) as [row|] eqn:Hh; [|done]. simpl in Hpx.
  pose proof (Forall_lookup_1 _ _ _ _ Hpixels Hb) as Himg.
  pose proof (Forall_lookup_1 _ _ _ _ Himg Hh) as Hrow.
  exact (Forall_lookup_1 _ _ _ _ Hrow Hpx).
Qed.

Lemma decoded_length colors px :
  Forall is_rgb colors → length (decoded colors px) = 3%nat.
Proof.
  intros Hrgb. unfold decoded. case_decide as Hin; [|done].
  rewrite Forall_forall in Hrgb. by destruct (Hrgb px Hin).
Qed.

(** X6: encoding an annotation image into class masks and recombining the
    weighted class images gives the annotation back wherever its colour is
    configured, and black elsewhere. *)
Theorem codec_round_trip H W (image_tensor : image Z) (colors : list (list Z)) :
  has_shape3 H W 3 image_tensor → colors ≠ [] →
  Forall is_rgb colors → NoDup colors →
  ∃ masks batch_images composite,
    colors_to_dimensions image_tensor colors = Some masks ∧
    batch_dimensions_to_colors_list [masks] colors = Some batch_images ∧
    combine_image batch_images false = Some composite ∧
    has_shape4 1 H W 3 composite ∧
    ∀ h w px, at3 image_tensor h w = Some px →
      at4 composite 0 h w = Some (decoded colors px).
Proof.
  intros Hshape Hne Hrgb Hnodup.
  set (masks := map2 (one_hot colors) image_tensor).
  assert (has_shape4 1 H W (length colors) [masks]) as Hmasks.
  { apply has_shape4_singleton. eapply has_shape3_map2; [exact Hshape|].
    intros px _. unfold one_hot. by rewrite length_fmap. }
  set (build := λ (i : nat) (color : list Z),
    map3 (λ px : list float32, f32_mul (default (Finite 0) (px !! i))
            <$> (component_weight <$> color)) [masks]).
  assert (batch_dimensions_to_colors_list [masks] colors
          = Some (imap build colors)) as Himages.
  { by apply (batch_dimensions_to_colors_list_weighted 1 H W (length colors)). }
  assert (Forall (has_shape4 1 H W 3) (imap build colors)) as Hshapes.
  { apply Forall_lookup. intros i img Himg.
    apply list_lookup_imap_Some in Himg as (color & Hcolor & ->).
    eapply has_shape4_map3; [exact Hmasks|]. intros px _.
    rewrite !length_fmap.
    by destruct (Forall_lookup_1 _ _ _ _ Hrgb Hcolor). }
  assert (∀ h w px j, at3 image_tensor h w = Some px → (j < 3)%nat →
    mapM (λ img, at4c img 0 h w j) (imap build colors)
    = Some (color_share px j <$> colors)) as Hvalues.
  { intros h w px j Hpx Hj. rewrite <-imap_const.
    apply mapM_imap_Some. intros i color Hcolor.
    destruct (Forall_lookup_1 _ _ _ _ Hrgb Hcolor) as [Hlen _].
    destruct (lookup_lt_is_Some_2 color j) as [cj Hcj]; [lia|].
    unfold at4c, build. rewrite at4_map3.
    assert (at4 [masks] 0 h w = Some (one_hot colors px)) as ->.
    { unfold at4. simpl. unfold at3 in *. subst masks.
      by rewrite at3_map2, Hpx. }
    simpl. rewrite !list_lookup_fmap, Hcj. simpl. f_equal.
    unfold color_share, const. rewrite Hcj. simpl.
    unfold one_hot. by rewrite list_lookup_fmap, Hcolor. }
  destruct (imap build colors) as [|x l] eqn:Himap.
  { destruct colors; [done|discriminate]. }
  apply Forall_cons_1 in Hshapes as [Hx Hl].
  pose proof (has_shape4_foldl_add4_same _ _ _ _ _ _ Hx Hl) as Hsum.
  assert (has_shape4 1 H W 3 (map4 float32_to_uint8 (foldl add4_same x l)))
    as Hcomposite.
  { rewrite map4_map3. eapply has_shape4_map3; [exact Hsum|].
    intros px Hpx. by rewrite length_fmap. }
  exists masks, (x :: l), (map4 float32_to_uint8 (foldl add4_same x l)).
  split; [by eapply colors_to_dimensions_one_hot|].
  split; [done|].
  split.
  { by rewrite combine_image_plain, (reduce_add4 1 H W 3). }
  split; [done|].
  intros h w px Hpx.
  assert (∀ j, (j < 3)%nat →
    at4c (map4 float32_to_uint8 (foldl add4_same x l)) 0 h w j
    = Some (default 0 (decoded colors px !! j))) as Hchannels.
  { intros j Hj.
    assert (at4c (map4 float32_to_uint8 (foldl add4_same x l)) 0 h w j
            = float32_to_uint8 <$> sum_at (x :: l) 0 h w j) as ->.
    { rewrite <-at4c_foldl_add4_same. unfold at4c.
      rewrite map4_map3, at4_map3.
      destruct (at4 (foldl add4_same x l) 0 h w) as [p|]; simpl; [|done].
      apply list_lookup_fmap. }
    unfold sum_at. rewrite (Hvalues h w px j Hpx Hj).
    cbn [mbind option_bind]. by apply decoded_channel. }
  destruct (at4 (map4 float32_to_uint8 (foldl add4_same x l)) 0 h w)
    as [p|] eqn:Hp.
  - f_equal. pose proof (at4_pixel_length _ _ _ _ _ _ _ _ _ Hcomposite Hp).
    pose proof (decoded_length colors px Hrgb) as Hdecoded.
    apply list_eq. intros j. destruct (decide (j < 3)%nat) as [Hj|Hj].
    + specialize (Hchannels j Hj). unfold at4c in Hchannels.
      rewrite Hp in Hchannels. simpl in Hchannels. rewrite Hchannels.
      destruct (lookup_lt_is_Some_2 (decoded colors px) j) as [v ->];
        [lia|done].
    + rewrite !lookup_ge_None_2 by lia. done.
  - specialize (Hchannels 0%nat ltac:(lia)). unfold at4c in Hchannels.
    by rewrite Hp in Hchannels.
Qed.

Lemma codec_round_trip_example :
  ∃ masks batch_images composite,
    colors_to_dimensions [[[255; 0; 0]; [9; 9; 9]]] [[255; 0; 0]; [0; 128; 64]]
      = Some masks ∧
    batch_dimensions_to_colors_list [masks] [[255; 0; 0]; [0; 128; 64]]
      = Some batch_images ∧
    combine_image batch_images false = Some composite ∧
    has_shape4 1 1 2 3 composite ∧
    ∀ h w px, at3 [[[255; 0; 0]; [9; 9; 9]]] h w = Some px →
      at4 composite 0 h w = Some (decoded [[255; 0; 0]; [0; 128; 64]] px).
Proof.
  apply (codec_round_trip 1 2 [[[255; 0; 0]; [9; 9; 9]]]
           [[255; 0; 0]; [0; 128; 64]]).
  - repeat (split || constructor).
  - discriminate.
  - repeat (split || constructor); lia.
  - apply NoDup_cons. split; [by intros [=]%list_elem_of_singleton|].
    apply NoDup_singleton.
Defined.

(** ** replace_black_with_white_color: more *)

Lemma whiten_not_black px : whiten px ≠ [0; 0; 0].
Proof. unfold whiten. by case_decide. Qed.

Lemma whiten_idemp px : whiten (whiten px) = whiten px.
Proof.
  unfold whiten at 1. rewrite decide_False; [done|]. apply whiten_not_black.
Qed.

(** X7: on a three-channel image the result has no black pixel left, black
    pixels have become white, and a second pass changes nothing. *)
Theorem replace_black_with_white_color_no_black B H W (t out : batch Z) :
  has_shape4 B H W 3 t →
  replace_black_with_white_color t = Some out →
  (∀ b h w, at4 t b h w = Some [0; 0; 0] →
            at4 out b h w = Some [255; 255; 255]) ∧
  (∀ b h w, at4 out b h w ≠ Some [0; 0; 0]) ∧
  replace_black_with_white_color out = Some out.
Proof.
  intros Hshape. rewrite (replace_black_with_white_color_whiten _ _ _ _ Hshape).
  intros [= <-]. split; [|split].
  - intros b h w Hpx. by rewrite at4_map3, Hpx.
  - intros b h w. rewrite at4_map3.
    destruct (at4 t b h w) as [px|]; [|done]. simpl. intros [= Hblack].
    by apply (whiten_not_black px).
  - rewrite (replace_black_with_white_color_whiten B H W).
    + rewrite map3_map3. f_equal. apply map3_ext_Forall.
      eapply Forall3_impl; [apply Forall3_True|]. intros px _.
      apply whiten_idemp.
    + eapply has_shape4_map3; eauto using whiten_length.
Qed.

Lemma replace_black_with_white_color_no_black_example :
  (∀ b h w, at4 [[[[0; 0; 0]; [0; 0; 1]]]] b h w = Some [0; 0; 0] →
            at4 [[[[255; 255; 255]; [0; 0; 1]]]] b h w
            = Some [255; 255; 255]) ∧
  (∀ b h w, at4 [[[[255; 255; 255]; [0; 0; 1]]]] b h w ≠ Some [0; 0; 0]) ∧
  replace_black_with_white_color [[[[255; 255; 255]; [0; 0; 1]]]]
  = Some [[[[255; 255; 255]; [0; 0; 1]]]].
Proof.
  apply (replace_black_with_white_color_no_black 1 1 2
           [[[[0; 0; 0]; [0; 0; 1]]]]).
  - repeat (split || constructor).
  - reflexivity.
Defined.

(** X8: an image whose pixels do not have exactly three channels is
    rejected. *)
Theorem replace_black_with_white_color_channels B H W C (t : batch Z) :
  has_shape4 B H W C t → (0 < B)%nat → (0 < H)%nat → (0 < W)%nat →
  C ≠ 3%nat →
  replace_black_with_white_color t = None.
Proof.
  intros [HB Himgs] HposB HposH HposW HC.
  destruct t as [|img t]; [simpl in HB; lia|].
  apply Forall_cons_1 in Himgs as [[HH Hrows] _].
  destruct img as [|row img]; [simpl in HH; lia|].
  apply Forall_cons_1 in Hrows as [[HW Hrow] _].
  destruct row as [|px row]; [simpl in HW; lia|].
  apply Forall_cons_1 in Hrow as [Hpx _].
  unfold replace_black_with_white_color. simpl in Hpx.
  destruct (decide (C = 1%nat)) as [->|HC1].
  - destruct (tf_equal4 (((px :: row) :: img) :: t) [0; 0; 0])
      as [equal|] eqn:Hequal; [|done].
    unfold tf_equal4 in Hequal. apply mapM_Some in Hequal.
    apply Forall2_cons_inv_l in Hequal as (eimg & et & Himg & _ & ->).
    apply mapM_Some in Himg.
    apply Forall2_cons_inv_l in Himg as (erow & eimg' & Hrow & _ & ->).
    apply mapM_Some in Hrow.
    apply Forall2_cons_inv_l in Hrow as (epx & erow' & _ & _ & ->).
    cbn [fmap option_fmap option_map mbind option_bind].
    rewrite tf_stack_last3_replicate3. cbn [mbind option_bind].
    unfold tf_where4. rewrite decide_False; [done|].
    intros [Hshape _]. unfold shape4 in Hshape. simpl in Hshape.
    rewrite !length_fmap, Hpx in Hshape. by injection Hshape.
  - assert (tf_equal4 (((px :: row) :: img) :: t) [0; 0; 0] = None) as ->;
      [|done].
    unfold tf_equal4. do 3 apply mapM_None_2, Exists_cons_hd.
    unfold broadcast_last.
    destruct px as [|? [|? [|? [|? ?]]]]; simpl in *; try done; lia.
Qed.

Lemma replace_black_with_white_color_channels_example :
  replace_black_with_white_color [[[[0]]]] = None ∧
  replace_black_with_white_color [[[[0; 0; 0; 0]]]] = None.
Proof.
  split.
  - apply (replace_black_with_white_color_channels 1 1 1 1);
      [repeat (split || constructor)|lia..|discriminate].
  - apply (replace_black_with_white_color_channels 1 1 1 4);
      [repeat (split || constructor)|lia..|discriminate].
Defined.

(** ** Summary images: more *)

Lemma registered_snoc records name image :
  registered (records ++ [(name, image)])%list
  = <[name := image]> (registered records).
Proof. unfold registered. by rewrite foldl_app. Qed.

Lemma in_sync_add_summary_image tensors name image :
  in_sync tensors → in_sync (add_summary_image tensors name image).
Proof.
  unfold in_sync. cbn [image_tensors summary_images add_summary_image].
  intros ->. by rewrite registered_snoc.
Qed.

Lemma in_sync_with_dimensions prefix tensors batch_images labels :
  in_sync tensors →
  in_sync (with_dimensions prefix tensors batch_images labels).
Proof.
  unfold with_dimensions.
  generalize (enumerate (zip batch_images labels)). intros l. revert tensors.
  induction l as [|[i [img label]] l IH]; intros tensors Hsync; [done|].
  cbn [foldl]. apply IH. by apply in_sync_add_summary_image.
Qed.

Lemma in_sync_with_input_target tensors :
  in_sync tensors → in_sync (with_input_target tensors).
Proof.
  intros Hsync. unfold with_input_target.
  by do 2 apply in_sync_add_summary_image.
Qed.

(** X9: the two registrations never drift apart: if the table of named
    images agrees with the summary records before
    [add_model_summary_images], it agrees with them afterwards. *)
Theorem summary_registrations_stay_in_sync tensors colors labels out :
  in_sync tensors →
  add_model_summary_images tensors colors labels = Some out →
  in_sync out.
Proof.
  intros Hsync Hout.
  apply in_sync_with_input_target in Hsync.
  apply add_model_summary_images_inv in Hout
    as [(color & colors' & labels' & targets & outputs & targets_sum
         & outputs_sum & _ & _ & _ & _ & _ & _ & ->)|[_ ->]].
  - unfold with_dimension_images. cbv zeta.
    apply in_sync_add_summary_image.
    change (in_sync (set_summaries ?t _)) with (in_sync t).
    apply in_sync_with_dimensions, in_sync_add_summary_image.
    by apply in_sync_with_dimensions.
  - unfold with_output. cbv zeta.
    change (in_sync (set_summaries ?t _)) with (in_sync t).
    by apply in_sync_add_summary_image.
Qed.

Lemma summary_registrations_stay_in_sync_example :
  ∃ out,
    add_model_summary_images example_references
      (Some [[255; 0; 0]; [0; 128; 0]]) (Some [Some "figure"; None])
      = Some out ∧
    in_sync out.
Proof.
  destruct (add_model_summary_images example_references
              (Some [[255; 0; 0]; [0; 128; 0]]) (Some [Some "figure"; None]))
    as [out|] eqn:Hout; [|vm_compute in Hout; discriminate Hout].
  exists out. split; [reflexivity|].
  by apply (summary_registrations_stay_in_sync example_references
              (Some [[255; 0; 0]; [0; 128; 0]])
              (Some [Some "figure"; None]) out).
Defined.

Lemma summaries_with_input_target tensors :
  summaries (with_input_target tensors) = ∅.
Proof. reflexivity. Qed.

(** X10: whatever [summaries] held before, afterwards it holds exactly one
    entry, [output_image], and that entry is the image registered as
    [outputs_combined] (with dimension colours) or [output] (without). *)
Theorem summaries_hold_only_output_image tensors colors labels out :
  add_model_summary_images tensors colors labels = Some out →
  ∃ image,
    summaries out = {[ "output_image" := image ]} ∧
    image_tensors out
      !! (match colors with
          | Some (_ :: _) => "outputs_combined"
          | _ => "output"
          end) = Some image.
Proof.
  intros Hout.
  apply add_model_summary_images_inv in Hout
    as [(color & colors' & labels' & targets & outputs & targets_sum
         & outputs_sum & -> & _ & _ & _ & _ & _ & ->)|[Hcolors ->]].
  - exists (convert_image (Float32 outputs_sum)).
    unfold with_dimension_images. cbv zeta.
    cbn [summaries image_tensors add_summary_image set_summaries].
    split; [|apply lookup_insert_eq].
    destruct (with_dimensions_frame "outputs"
      (add_summary_image
         (with_dimensions "targets" (with_input_target tensors)
            targets labels')
         "targets_combined" (convert_image (Float32 targets_sum)))
      outputs labels') as (_ & _ & -> & _).
    cbn [summaries add_summary_image].
    destruct (with_dimensions_frame "targets" (with_input_target tensors)
                targets labels') as (_ & _ & -> & _).
    rewrite summaries_with_input_target. apply insert_empty.
  - exists (convert_image (Float32 (pred tensors))).
    unfold with_output. cbv zeta.
    cbn [summaries image_tensors add_summary_image set_summaries].
    split; [apply insert_empty|].
    destruct Hcolors as [-> | ->]; apply lookup_insert_eq.
Qed.

Lemma summaries_hold_only_output_image_example :
  ∃ out image,
    add_model_summary_images example_references None None = Some out ∧
    summaries out = {[ "output_image" := image ]} ∧
    image_tensors out !! "output" = Some image.
Proof.
  destruct (add_model_summary_images example_references None None)
    as [out|] eqn:Hout; [|vm_compute in Hout; discriminate Hout].
  destruct (summaries_hold_only_output_image example_references None None out
              Hout) as (image & Hsummaries & Himage).
  by exists out, image.
Defined.

Lemma length_summary_images_with_dimensions prefix tensors
    batch_images labels :
  length (summary_images
            (with_dimensions prefix tensors batch_images labels))
  = (length (summary_images tensors)
     + length batch_images `min` length labels)%nat.
Proof.
  unfold with_dimensions, enumerate.
  rewrite <-(length_zip batch_images labels),
    <-(length_imap pair (zip batch_images labels)).
  generalize (imap pair (zip batch_images labels)). intros l. revert tensors.
  induction l as [|[i [img label]] l IH]; intros tensors.
  - simpl. lia.
  - cbn [foldl]. rewrite IH.
    cbn [summary_images add_summary_image].
    rewrite length_app. simpl. lia.
Qed.

Lemma length_batch_dimensions_to_colors_list t colors batch_images :
  batch_dimensions_to_colors_list t colors = Some batch_images →
  length batch_images = length colors.
Proof.
  intros Himages. apply length_mapM in Himages. unfold enumerate in Himages.
  by rewrite length_imap in Himages.
Qed.

(** X11: the number of summary records written: [input], [target] and
    [output] without dimension colours; with them, [input], [target], the
    two composites, and one target and one output image per dimension that
    has an entry in [dimension_labels] (the [zip] stops at the shorter
    list). *)
Theorem summary_record_count tensors colors labels out :
  add_model_summary_images tensors colors labels = Some out →
  length (summary_images out)
  = (length (summary_images tensors)
     + match colors with
       | Some ((_ :: _) as colors) =>
           4 + 2 * (length colors `min` length (default [] labels))
       | _ => 3
       end)%nat.
Proof.
  intros Hout.
  apply add_model_summary_images_inv in Hout
    as [(color & colors' & labels' & targets & outputs & targets_sum
         & outputs_sum & -> & -> & Htargets & Houtputs & _ & _ & ->)
       |[Hcolors ->]].
  - apply length_batch_dimensions_to_colors_list in Htargets, Houtputs.
    unfold with_dimension_images. cbv zeta.
    cbn [summary_images add_summary_image set_summaries].
    rewrite length_app, length_summary_images_with_dimensions.
    cbn [summary_images add_summary_image].
    rewrite length_app, length_summary_images_with_dimensions.
    unfold with_input_target.
    cbn [summary_images add_summary_image set_summaries].
    rewrite !length_app, Htargets, Houtputs. simpl. lia.
  - unfold with_output, with_input_target. cbv zeta.
    cbn [summary_images add_summary_image set_summaries].
    rewrite !length_app. destruct Hcolors as [-> | ->]; simpl; lia.
Qed.

Lemma summary_record_count_example :
  ∃ out,
    add_model_summary_images example_references
      (Some [[255; 0; 0]; [0; 128; 0]]) (Some [Some "figure"]) = Some out ∧
    length (summary_images out) = 6%nat.
Proof.
  destruct (add_model_summary_images example_references
              (Some [[255; 0; 0]; [0; 128; 0]]) (Some [Some "figure"]))
    as [out|] eqn:Hout; [|vm_compute in Hout; discriminate Hout].
  exists out. split; [reflexivity|].
  by rewrite (summary_record_count example_references
                (Some [[255; 0; 0]; [0; 128; 0]]) (Some [Some "figure"]) out).
Defined.

(** ** The input image as [float32] *)

Lemma map3_id {A} (t : image A) : map3 id t = t.
Proof.
  unfold map3, map2.
  rewrite <-(list_fmap_id t) at 2. apply list_fmap_ext. intros ? img _.
  rewrite <-(list_fmap_id img) at 2. apply list_fmap_ext. intros ? row _.
  apply list_fmap_id.
Qed.

(** Scaling a byte by the [float32] constant [1. / 255] and converting the
    product back gives the byte. *)
Lemma float32_to_uint8_scaled x :
  0 ≤ x ≤ 255 →
  float32_to_uint8
    (f32_mul (Finite (inject_Z x))
             (float32_of_pyfloat (round_float64 (1 / 255)))) = x.
Proof.
  revert x.
  apply (uint8_cases _ (λ x,
    float32_to_uint8
      (f32_mul (Finite (inject_Z x))
               (float32_of_pyfloat (round_float64 (1 / 255)))) =? x)).
  - intros x. apply Z.eqb_eq.
  - vm_compute. reflexivity.
Qed.

(** X12: converting a [uint8] batch to [float32], as [build_graph] does with
    the input image, and back to [uint8], as the summaries do, gives the
    batch back. *)
Theorem uint8_float32_round_trip (images : batch Z) :
  Forall3 (Forall (λ x, 0 ≤ x ≤ 255)) images →
  convert_image (Float32 (uint8_to_float32 <$> images)) = images.
Proof.
  intros Hrange. cbn [convert_image]. rewrite map4_map3.
  change (uint8_to_float32 <$> images)
    with (map3 (fmap (λ x, f32_mul (Finite (inject_Z x))
                  (float32_of_pyfloat (round_float64 (1 / 255))))) images).
  rewrite map3_map3. rewrite <-(map3_id images) at 2.
  apply map3_ext_Forall. eapply Forall3_impl; [exact Hrange|].
  intros px Hpx. rewrite <-list_fmap_compose.
  rewrite <-(list_fmap_id px) at 2. apply fmap_ext_Forall.
  eapply Forall_impl; [exact Hpx|]. intros x Hx.
  exact (float32_to_uint8_scaled x Hx).
Qed.

Lemma uint8_float32_round_trip_example :
  convert_image (Float32 (uint8_to_float32 <$> [[[[0; 17; 255]]]]))
  = [[[[0; 17; 255]]]].
Proof.
  apply (uint8_float32_round_trip [[[[0; 17; 255]]]]).
  repeat constructor; lia.
Defined.

(** ** Names of the summary images *)

Lemma input_name_not_dimension prefix i l :
  prefix = "targets" ∨ prefix = "outputs" →
  "input" ≠ prefix ++ label_suffix i l ∧ "target" ≠ prefix ++ label_suffix i l.
Proof. intros [-> | ->]; split; discriminate. Qed.

(** X13: the [input] and [target] images survive all later registrations:
    at the end they are the converted input and annotation tensors. *)
Theorem input_and_target_images tensors colors labels out :
  add_model_summary_images tensors colors labels = Some out →
  image_tensors out !! "input" = Some (convert_image (image_tensor tensors)) ∧
  image_tensors out !! "target"
    = Some (convert_image (annotation_tensor tensors)).
Proof.
  intros Hout.
  assert (image_tensors (with_input_target tensors) !! "input"
          = Some (convert_image (image_tensor tensors)) ∧
          image_tensors (with_input_target tensors) !! "target"
          = Some (convert_image (annotation_tensor tensors))) as Hstart.
  { unfold with_input_target.
    cbn [image_tensors add_summary_image set_summaries].
    split; [|apply lookup_insert_eq].
    rewrite lookup_insert_ne by done. apply lookup_insert_eq. }
  apply add_model_summary_images_inv in Hout
    as [(color & colors' & labels' & targets & outputs & targets_sum
         & outputs_sum & _ & _ & _ & _ & _ & _ & ->)|[_ ->]].
  - unfold with_dimension_images. cbv zeta.
    cbn [image_tensors add_summary_image set_summaries].
    rewrite !(lookup_insert_ne _ "outputs_combined") by done.
    destruct (with_dimensions_frame "outputs"
      (add_summary_image
         (with_dimensions "targets" (with_input_target tensors)
            targets labels')
         "targets_combined" (convert_image (Float32 targets_sum)))
      outputs labels') as (_ & _ & _ & Houtputs).
    rewrite !Houtputs
      by (intros i l; apply input_name_not_dimension; by right).
    cbn [image_tensors add_summary_image].
    rewrite !(lookup_insert_ne _ "targets_combined") by done.
    destruct (with_dimensions_frame "targets" (with_input_target tensors)
                targets labels') as (_ & _ & _ & Htargets).
    rewrite !Htargets
      by (intros i l; apply input_name_not_dimension; by left).
    exact Hstart.
  - unfold with_output. cbv zeta.
    cbn [image_tensors add_summary_image set_summaries].
    rewrite !(lookup_insert_ne _ "output") by done. exact Hstart.
Qed.

Lemma input_and_target_images_example :
  ∃ out,
    add_model_summary_images example_references
      (Some [[255; 0; 0]; [0; 128; 0]]) (Some [Some "figure"; None])
      = Some out ∧
    image_tensors out !! "input" = Some [[[[255; 0; 0]]]] ∧
    image_tensors out !! "target" = Some [[[[9; 9; 9]]]].
Proof.
  destruct (add_model_summary_images example_references
              (Some [[255; 0; 0]; [0; 128; 0]]) (Some [Some "figure"; None]))
    as [out|] eqn:Hout; [|vm_compute in Hout; discriminate Hout].
  exists out. split; [reflexivity|].
  exact (input_and_target_images example_references _ _ out Hout).
Defined.

Lemma digits_not_underscore c s : digits (String c s) → String c s ≠ "_" ++ s.
Proof.
  intros [Hc _]. rewrite string_app_cons, string_app_nil. intros [= ->].
  vm_compute in Hc. lia.
Qed.

Lemma underscore_split d1 d2 a b :
  digits d1 → digits d2 →
  d1 ++ "_" ++ a = d2 ++ "_" ++ b → d1 = d2 ∧ a = b.
Proof.
  revert d2. induction d1 as [|c d1 IH]; intros [|c' d2];
    rewrite ?string_app_cons, ?string_app_nil.
  - intros _ _ [= ->]. done.
  - intros _ Hd [= <- _]. by destruct (digits_not_underscore _ _ Hd).
  - intros Hd _ [= -> _]. by destruct (digits_not_underscore _ _ Hd).
  - intros [_ H1] [_ H2] [= -> Heq]. destruct (IH _ H1 H2 Heq) as [-> ->]. done.
Qed.

Lemma label_suffix_inj i j l l' :
  label_suffix i l = label_suffix j l' → i = j ∧ shown_label l = shown_label l'.
Proof.
  unfold label_suffix. fold (shown_label l). fold (shown_label l').
  intros Heq. apply (inj (String.app "_")) in Heq.
  apply underscore_split in Heq as [Hij Hl];
    [|apply pretty_nat_digits..].
  split; [by apply (inj pretty)|done].
Qed.

Lemma foldl_add_summary_image_lookup prefix tensors
    (l : list (nat * (batch float32 * option string))) k i img label :
  (∀ k1 k2 x1 x2, l !! k1 = Some x1 → l !! k2 = Some x2 →
                  x1.1 = x2.1 → k1 = k2) →
  l !! k = Some (i, (img, label)) →
  image_tensors
    (foldl (λ tensors '(i, (batch_image, dimension_label)),
              add_summary_image tensors
                (prefix ++ label_suffix i dimension_label)
                (convert_image (Float32 batch_image))) tensors l)
    !! (prefix ++ label_suffix i label)
  = Some (convert_image (Float32 img)).
Proof.
  revert k. induction l as [|[i' [img' label']] l IH] using rev_ind;
    intros k Hinj Hk; [done|].
  rewrite foldl_app. cbn [foldl image_tensors add_summary_image].
  apply lookup_app_Some in Hk as [Hk|[Hge Hk]].
  - rewrite lookup_insert_ne.
    + apply (IH k); [|done]. intros k1 k2 x1 x2 H1 H2.
      apply Hinj; by apply lookup_app_l_Some.
    + intros Heq. apply (inj (String.app prefix)) in Heq.
      apply label_suffix_inj in Heq as [-> _].
      pose proof (lookup_lt_Some _ _ _ Hk) as Hlt.
      assert (length l = k); [|lia].
      apply (Hinj (length l) k (i, (img', label')) (i, (img, label)));
        [|by apply lookup_app_l_Some|done].
      by rewrite lookup_app_r, Nat.sub_diag by lia.
  - apply list_lookup_singleton_Some in Hk as [_ [= -> -> ->]].
    apply lookup_insert_eq.
Qed.

Lemma with_dimensions_lookup prefix tensors batch_images labels
    i img label :
  batch_images !! i = Some img → labels !! i = Some label →
  image_tensors (with_dimensions prefix tensors batch_images labels)
    !! (prefix ++ label_suffix i label)
  = Some (convert_image (Float32 img)).
Proof.
  intros Himg Hlabel. unfold with_dimensions, enumerate.
  apply (foldl_add_summary_image_lookup _ _ _ i).
  - intros k1 k2 [? ?] [? ?] H1 H2.
    apply list_lookup_imap_Some in H1 as (? & _ & [= -> _]).
    apply list_lookup_imap_Some in H2 as (? & _ & [= -> _]). done.
  - apply list_lookup_imap_Some. exists (img, label). split; [|done].
    apply lookup_zip_with_Some. eauto.
Qed.

Lemma digits_app_ne d x : digits d → "combined" ≠ d ++ "_" ++ x.
Proof.
  destruct d as [|c d]; rewrite ?string_app_cons, ?string_app_nil; [done|].
  intros [Hc _] [= <- _]. vm_compute in Hc. lia.
Qed.

Lemma dimension_name_not_combined prefix i l :
  prefix = "targets" ∨ prefix = "outputs" →
  "targets_combined" ≠ prefix ++ label_suffix i l ∧
  "outputs_combined" ≠ prefix ++ label_suffix i l.
Proof.
  assert (∀ prefix', prefix' ++ "_combined" ≠ prefix' ++ label_suffix i l)
    as Hne.
  { intros prefix' Heq. apply (inj (String.app prefix')) in Heq.
    unfold label_suffix in Heq. apply (inj (String.app "_")) in Heq.
    revert Heq. apply digits_app_ne, pretty_nat_digits. }
  intros [-> | ->]; split; try discriminate.
  - apply (Hne "targets").
  - apply (Hne "outputs").
Qed.

(** X14: whenever [add_model_summary_images] returns, every dimension has
    images of its own: the image registered as [targets_<i>_<label>] (or
    [outputs_<i>_<label>]) at the end is the one of dimension [i]; no later
    registration replaces it. *)
Theorem dimension_images_registered tensors colors labels out i color label :
  add_model_summary_images tensors (Some colors) (Some labels) = Some out →
  colors !! i = Some color → labels !! i = Some label →
  ∃ targets outputs target output,
    batch_dimensions_to_colors_list
      (separate_channel_annotation_tensor tensors) colors = Some targets ∧
    batch_dimensions_to_colors_list (pred tensors) colors = Some outputs ∧
    targets !! i = Some target ∧ outputs !! i = Some output ∧
    image_tensors out !! ("targets" ++ label_suffix i label)
      = Some (convert_image (Float32 target)) ∧
    image_tensors out !! ("outputs" ++ label_suffix i label)
      = Some (convert_image (Float32 output)).
Proof.
  intros Hout Hcolor Hlabel.
  apply add_model_summary_images_inv in Hout
    as [(color0 & colors' & labels' & targets & outputs & targets_sum
         & outputs_sum & [= ->] & [= <-] & Htargets & Houtputs & _ & _ & ->)
       |[[[=]|[= ->]] _]]; [|done].
  pose proof (lookup_lt_Some _ _ _ Hcolor) as Hi.
  destruct (lookup_lt_is_Some_2 targets i) as [target Htarget].
  { by rewrite (length_batch_dimensions_to_colors_list _ _ _ Htargets). }
  destruct (lookup_lt_is_Some_2 outputs i) as [output Houtput].
  { by rewrite (length_batch_dimensions_to_colors_list _ _ _ Houtputs). }
  exists targets, outputs, target, output.
  do 4 (split; [done|]).
  unfold with_dimension_images. cbv zeta.
  cbn [image_tensors add_summary_image set_summaries].
  split.
  - rewrite lookup_insert_ne
      by (apply dimension_name_not_combined; by left).
    destruct (with_dimensions_frame "outputs"
      (add_summary_image
         (with_dimensions "targets" (with_input_target tensors)
            targets labels)
         "targets_combined" (convert_image (Float32 targets_sum)))
      outputs labels) as (_ & _ & _ & Hframe).
    rewrite Hframe by (intros ? ?; discriminate).
    cbn [image_tensors add_summary_image].
    rewrite lookup_insert_ne
      by (apply dimension_name_not_combined; by left).
    by apply with_dimensions_lookup.
  - rewrite lookup_insert_ne
      by (apply dimension_name_not_combined; by right).
    by apply with_dimensions_lookup.
Qed.

Lemma dimension_images_registered_example :
  ∃ out,
    add_model_summary_images example_references
      (Some [[255; 0; 0]; [0; 128; 0]]) (Some [Some "figure"; None])
      = Some out ∧
    image_tensors out !! "outputs_1_unknown_label" = Some [[[[0; 64; 0]]]].
Proof.
  destruct (add_model_summary_images example_references
              (Some [[255; 0; 0]; [0; 128; 0]]) (Some [Some "figure"; None]))
    as [out|] eqn:Hout; [|vm_compute in Hout; discriminate Hout].
  exists out. split; [reflexivity|].
  destruct (dimension_images_registered example_references
              [[255; 0; 0]; [0; 128; 0]] [Some "figure"; None] out
              1 [0; 128; 0] None Hout eq_refl eq_refl)
    as (targets & outputs & target & output & _ & Houtputs & _ & Houtput
        & _ & Hlookup).
  vm_compute in Houtputs. injection Houtputs as <-.
  injection Houtput as <-. exact Hlookup.
Defined.

(** ** Model.__init__: labels *)

Lemma color_label_map_of_snoc int items s v acc :
  color_label_map_of int (items ++ [(s, v)])%list acc
  = m ← color_label_map_of int items acc;
    n ← int s; Some (<[ [n; n; n] := v ]> m).
Proof.
  revert acc. induction items as [|[k0 v0] items IH]; intros acc; [done|].
  simpl. destruct (int k0) as [n0|]; [|done]. apply IH.
Qed.

Lemma color_label_map_of_is_Some int items acc :
  is_Some (color_label_map_of int items acc)
  ↔ Forall (λ item, is_Some (int item.1)) items.
Proof.
  revert acc. induction items as [|[k v] items IH]; intros acc; simpl.
  - split; [constructor|by eexists].
  - rewrite Forall_cons. simpl. destruct (int k) as [n|]; simpl.
    + rewrite IH. split; [by split|by intros [_ ?]].
    + split; [by intros [? [=]]|by intros [[? [=]] _]].
Qed.

Lemma color_label_map_of_lookup int items m k label :
  color_label_map_of int items ∅ = Some m → m !! k = Some label →
  ∃ j s n,
    items !! j = Some (s, label) ∧ int s = Some n ∧ k = [n; n; n] ∧
    ∀ j' s' label', (j < j')%nat → items !! j' = Some (s', label') →
                    int s' ≠ Some n.
Proof.
  revert m label. induction items as [|[s v] items IH] using rev_ind;
    intros m label.
  { intros [= <-]. by rewrite lookup_empty. }
  rewrite color_label_map_of_snoc.
  destruct (color_label_map_of int items ∅) as [m'|]; [|done].
  cbn [mbind option_bind]. destruct (int s) as [n|] eqn:Hs; [|done].
  cbn [mbind option_bind]. intros [= <-].
  destruct (decide (k = [n; n; n])) as [->|Hne].
  - rewrite lookup_insert_eq. intros [= ->].
    exists (length items), s, n. split; [|split; [done|split; [done|]]].
    + by rewrite lookup_app_r, Nat.sub_diag by lia.
    + intros j' s' label' Hlt Hj'. apply lookup_lt_Some in Hj'.
      rewrite length_app in Hj'. simpl in Hj'. lia.
  - rewrite lookup_insert_ne by done. intros Hk.
    destruct (IH m' label eq_refl Hk) as (j & s0 & n0 & Hj & Hs0 & -> & Hlast).
    exists j, s0, n0. split; [by apply lookup_app_l_Some|].
    split; [done|split; [done|]].
    intros j' s' label' Hlt Hj'.
    apply lookup_app_Some in Hj' as [Hj'|[_ Hj']]; [by eapply Hlast|].
    apply list_lookup_singleton_Some in Hj' as [_ [= <- <-]].
    rewrite Hs. intros [= ->]. done.
Qed.




(** X16: a dimension is labelled only when its colour-map key is a gray
    triple [(n, n, n)] named by an item of [color_labels], and the label
    is that of the last item whose key reads as [n]. *)
Theorem dimension_labels_of_gray_keys (int : string → option Z)
    (cfg : color_map_config) (m : Model) names i label :
  Model_init int (color_map_read cfg) = Some m →
  dimension_labels m = Some names → names !! i = Some (Some label) →
  ∃ color_map items j s n,
    parsed_color_map cfg = Some color_map ∧
    color_labels cfg = Some items ∧
    items !! j = Some (s, label) ∧ int s = Some n ∧
    sorted (color_map.*1) !! i = Some [n; n; n] ∧
    ∀ j' s' label', (j < j')%nat →
      items !! j' = Some (s', label') → int s' ≠ Some n.
Proof.
  unfold Model_init.
  destruct (parsed_color_map cfg) as [color_map|]; [|done].
  destruct (color_labels cfg) as [items|]; [|done].
  cbn [mbind option_bind].
  destruct (color_label_map_of int items ∅)
    as [color_label_map|] eqn:Hm; [|done].
  cbn [mbind option_bind].
  destruct (mapM _ _) as [colors|]; [|done]. cbn [mbind option_bind].
  intros [= <-]. cbn [dimension_labels]. intros [= <-].
  rewrite list_lookup_fmap.
  destruct (sorted _ !! i) as [k|] eqn:Hk; [|done]. simpl. intros [= Hlabel].
  destruct (color_label_map_of_lookup _ _ _ _ _ Hm Hlabel)
    as (j & s & n & Hj & Hs & -> & Hlast).
  exists color_map, items, j, s, n. done.
Qed.

Lemma dimension_labels_of_gray_keys_example :
  ∃ j s n,
    [("1", "one"); ("7", "seven"); ("1", "uno")] !! j = Some (s, "uno") ∧
    int_digit s = Some n ∧
    sorted [[7; 7; 7]; [1; 1; 1]] !! 0%nat = Some [n; n; n].
Proof.
  destruct (dimension_labels_of_gray_keys int_digit
    {| parsed_color_map :=
         Some [([7; 7; 7], [0; 0; 255]); ([1; 1; 1], [255; 0; 0])];
       color_labels := Some [("1", "one"); ("7", "seven"); ("1", "uno")] |}
    {| image_width := 256; image_height := 256;
       color_map :=
         Some [([7; 7; 7], [0; 0; 255]); ([1; 1; 1], [255; 0; 0])];
       dimension_colors := Some [[255; 0; 0]; [0; 0; 255]];
       dimension_labels := Some [Some "uno"; Some "seven"] |}
    [Some "uno"; Some "seven"] 0 "uno")
    as (color_map & items & j & s & n & [= <-] & [= <-] & Hj & Hs & Hk & _);
    [vm_compute; reflexivity|done|done|].
  exists j, s, n. done.
Defined.

(** ** An empty colour map *)

(** X18: an empty colour map is no colour map: when the file has a
    [color_labels] section whose keys all read as integers, the model is
    built, with an empty list of dimension colours, and from then on the
    example tensors and the summary images are those of a model without
    colour map. *)
Theorem empty_color_map_is_plain (int : string → option Z)
    (cfg : color_map_config) (items : list (string * string)) :
  parsed_color_map cfg = Some [] → color_labels cfg = Some items →
  Forall (λ item, is_Some (int item.1)) items →
  ∃ self,
    Model_init int (color_map_read cfg) = Some self ∧
    dimension_colors self = Some [] ∧ dimension_labels self = Some [] ∧
    (∀ decode_png resize_image_with_crop_or_pad example,
       example_graph decode_png resize_image_with_crop_or_pad self example
       = example_graph decode_png resize_image_with_crop_or_pad plain_model
           example) ∧
    ∀ tensors,
      add_model_summary_images tensors
        (dimension_colors self) (dimension_labels self)
      = add_model_summary_images tensors None None.
Proof.
  intros Hempty Hitems Hkeys.
  apply (color_label_map_of_is_Some int items ∅) in Hkeys as [m Hm].
  unfold Model_init. rewrite Hempty, Hitems. cbn [mbind option_bind].
  rewrite Hm. cbn. eexists. split; [reflexivity|]. done.
Qed.

Lemma empty_color_map_is_plain_example :
  ∃ self,
    Model_init int_digit
      (color_map_read {| parsed_color_map := Some [];
                         color_labels := Some [("1", "one")] |})
      = Some self ∧
    example_graph decode_length keep_size self record_a
    = example_graph decode_length keep_size plain_model record_a.
Proof.
  destruct (empty_color_map_is_plain int_digit
    {| parsed_color_map := Some []; color_labels := Some [("1", "one")] |}
    [("1", "one")]) as (self & Hself & _ & _ & Hgraph & _).
  - reflexivity.
  - reflexivity.
  - repeat constructor. by eexists.
  - exists self. split; [exact Hself|apply Hgraph].
Defined.

(** ** format_metric_values: more *)

Lemma int_to_float_overflow z :
  2 ^ 1024 ≤ Z.abs z → int_to_float z = Raise OverflowError.
Proof.
  intros Hbig. unfold int_to_float. cbv zeta.
  generalize dependent (Z.abs z). intros a Hbig.
  assert (2 ^ 53 ≤ 2 ^ 1024) as H53 by (apply Z.pow_le_mono_r; lia).
  assert (0 < 2 ^ 53) as Hpos53 by (apply Z.pow_pos_nonneg; lia).
  assert (2 ^ 53 ≤ a) as Ha53 by exact (Z.le_trans _ _ _ H53 Hbig).
  assert (0 < a) as Hpos by exact (Z.lt_le_trans _ _ _ Hpos53 Ha53).
  rewrite (proj2 (Z.ltb_ge a (2 ^ 53))) by exact Ha53.
  assert (1024 ≤ Z.log2 a) as Hlog by (by apply Z.log2_le_pow2).
  destruct (Z.log2_spec a Hpos) as [Hlow _].
  remember (Z.log2 a - 52) as e eqn:He.
  assert (0 ≤ e) as He0 by lia.
  assert (2 ^ Z.log2 a = 2 ^ 52 * 2 ^ e) as Hsplit.
  { rewrite <-Z.pow_add_r by lia. f_equal. lia. }
  assert (0 < 2 ^ e) as Hpose by (apply Z.pow_pos_nonneg; lia).
  assert (2 ^ 52 ≤ Z.shiftr a e) as Hm.
  { rewrite Z.shiftr_div_pow2 by done.
    apply Z.div_le_lower_bound; [done|]. rewrite Z.mul_comm, <-Hsplit. done. }
  assert (2 ^ 1024 ≤ 2 ^ Z.log2 a) as Hpow by (apply Z.pow_le_mono_r; lia).
  remember (Z.shiftr a e) as m eqn:Hmdef.
  match goal with
  | |- context [if 2 ^ 1024 <=? ?m' * 2 ^ e then _ else _] =>
      assert (m ≤ m') as Hup by (destruct (_ || _); lia);
      rewrite (proj2 (Z.leb_le (2 ^ 1024) (m' * 2 ^ e))); [done|];
      apply (Z.le_trans _ _ _ Hpow); rewrite Hsplit;
      apply Z.mul_le_mono_nonneg_r; [apply Z.lt_le_incl, Hpose|];
      exact (Z.le_trans _ _ _ Hm Hup)
  end.
Qed.

(** X20: an integer metric too large for a float is not caught: with a
    magnitude of [2^1024] or more in the first position, or in the second
    one after a first value that formats, [format_metric_values] raises
    [OverflowError]. *)
Theorem format_metric_values_overflow (z : Z) (rest : list PyVal) :
  2 ^ 1024 ≤ Z.abs z →
  format_metric_values (PList (PInt z :: rest)) = Raise OverflowError ∧
  ∀ x s0, percent_3f x = Return s0 →
    format_metric_values (PList (x :: PInt z :: rest)) = Raise OverflowError.
Proof.
  intros Hbig. pose proof (int_to_float_overflow z Hbig) as Hz.
  split.
  - rewrite format_metric_values_unfold. unfold format_item.
    cbn [getitem lookup list_lookup mbind pyresult_bind pybind percent_3f
         format_3f_arg].
    rewrite Hz. reflexivity.
  - intros x s0 Hx. rewrite format_metric_values_unfold. unfold format_item.
    cbn [getitem lookup list_lookup mbind pyresult_bind pybind].
    rewrite Hx.
    cbn [percent_3f format_3f_arg mbind pyresult_bind pybind].
    rewrite Hz. reflexivity.
Qed.

Lemma format_metric_values_overflow_example :
  format_metric_values (PList [PInt (- 2 ^ 1024)]) = Raise OverflowError.
Proof.
  assert (2 ^ 1024 ≤ Z.abs (- 2 ^ 1024)) as Hbig.
  { rewrite Z.abs_opp, Z.abs_eq; [apply Z.le_refl|]. apply Z.pow_nonneg. lia. }
  exact (proj1 (format_metric_values_overflow (- 2 ^ 1024) [] Hbig)).
Defined.

(** X21: only the first two items of a list or tuple are read, a tuple
    gives what the list of its items gives, and any value that is not a
    list or tuple (so [None], a number, a string) gives ["N/A, N/A"]. *)
Theorem format_metric_values_reads_two_items :
  (∀ l, format_metric_values (PTuple l) = format_metric_values (PList l)) ∧
  (∀ l, format_metric_values (PList l)
        = format_metric_values (PList (take 2 l))) ∧
  (∀ v, (∀ l, v ≠ PList l) → (∀ l, v ≠ PTuple l) →
        format_metric_values v = Return "N/A, N/A").
Proof.
  split; [|split].
  - intros l. by rewrite !format_metric_values_unfold.
  - intros l. rewrite !format_metric_values_unfold. unfold format_item.
    cbn [getitem]. by destruct l as [|x [|y l]].
  - intros v Hlist Htuple. rewrite format_metric_values_unfold.
    unfold format_item.
    destruct v as [| b | z | f | s | l | l]; try reflexivity.
    + cbn [getitem]. destruct (String.get 0 s); reflexivity.
    + by destruct (Hlist l).
    + by destruct (Htuple l).
Qed.

Lemma format_metric_values_reads_two_items_example :
  format_metric_values (PStr "0.5") = Return "N/A, N/A".
Proof.
  destruct format_metric_values_reads_two_items as (_ & _ & Hother).
  apply (Hother (PStr "0.5")); discriminate.
Defined.
